(** * Gateway core: circuit breaker, token bucket, LRU+TTL cache,
      load balancers, health checker, client-IP resolution, retrying proxy.

    A shallow embedding of the Go sources under [src/gateway] together
    with the properties the specification states about them.

    Conventions used throughout:
    - a Go [int]/[int64] is a [Z] with its two's-complement wrap-around
      written out ([wrap_int]); a [uint64] likewise ([wrap_uint64]);
    - a [time.Time] is the reading of the monotonic clock in nanoseconds
      (a [Z]); a [time.Duration] is a number of nanoseconds;
    - a Go pointer that may be [nil] is an [option];
    - a Go [error] is [option error], [None] being [nil];
    - mutation is explicit state passing: a method returns the new
      receiver next to its result. *)

From Stdlib Require Import ZArith QArith Qminmax Lqa Lia Bool Ascii String.
From stdpp Require Import gmap strings list fin_maps.

Local Open Scope Z_scope.

(** ** Machine integers and the clock *)

Definition min_int : Z := - 2 ^ 63.
Definition max_int : Z := 2 ^ 63 - 1.

(** Two's-complement wrap-around of a 64-bit signed integer. *)
Definition wrap_int (x : Z) : Z := (x + 2 ^ 63) mod 2 ^ 64 - 2 ^ 63.

(** Wrap-around of a 64-bit unsigned integer. *)
Definition wrap_uint64 (x : Z) : Z := x mod 2 ^ 64.

Definition int_range (x : Z) : Prop := min_int <= x <= max_int.

(** A reading of the monotonic clock: nanoseconds since process start. *)
Definition clock_range (t : Z) : Prop := 0 <= t <= max_int.

(** [time.Time.Sub]: the difference of two readings, saturated to the
    range of a [time.Duration]. *)
Definition time_Sub (t u : Z) : Z :=
  let d := t - u in
  if d <? min_int then min_int
  else if max_int <? d then max_int
  else d.

Arguments wrap_int : simpl never.
Arguments wrap_uint64 : simpl never.
Arguments time_Sub : simpl never.

(** Errors that travel through the proxy path. The two sentinel values
    are the package-level variables of circuitbreaker.go; every other
    error (transport failures and the like) carries its message. *)
Inductive error : Type :=
  | ErrCircuitOpen
  | ErrTooManyRequests
  | ErrOther (msg : string).

(** * Circuit breaker (circuitbreaker.go) *)

Module Breaker.

Inductive CircuitState : Type := StateClosed | StateOpen | StateHalfOpen.

Record CircuitBreakerConfig : Type := {
  Enabled : bool;
  Threshold : Z;
  Timeout : Z;
  MaxRequests : Z
}.

Record CircuitBreaker : Type := {
  config : CircuitBreakerConfig;
  state : CircuitState;
  failures : Z;
  lastFailTime : Z;
  requests : Z
}.

Definition set_state (cb : CircuitBreaker) (s : CircuitState) : CircuitBreaker :=
  {| config := config cb; state := s; failures := failures cb;
     lastFailTime := lastFailTime cb; requests := requests cb |}.

Definition set_failures (cb : CircuitBreaker) (n : Z) : CircuitBreaker :=
  {| config := config cb; state := state cb; failures := n;
     lastFailTime := lastFailTime cb; requests := requests cb |}.

Definition set_lastFailTime (cb : CircuitBreaker) (t : Z) : CircuitBreaker :=
  {| config := config cb; state := state cb; failures := failures cb;
     lastFailTime := t; requests := requests cb |}.

Definition set_requests (cb : CircuitBreaker) (n : Z) : CircuitBreaker :=
  {| config := config cb; state := state cb; failures := failures cb;
     lastFailTime := lastFailTime cb; requests := n |}.

(** [NewCircuitBreaker]: [nil] when the feature is disabled. The zero
    [time.Time] of [lastFailTime] is reading 0; it is only ever read
    in [StateOpen], which is entered through [onFailure]. *)
Definition NewCircuitBreaker (cfg : CircuitBreakerConfig) : option CircuitBreaker :=
  if Enabled cfg then
    Some {| config := cfg; state := StateClosed; failures := 0;
            lastFailTime := 0; requests := 0 |}
  else None.

(** [beforeRequest], with [now] the clock reading of [time.Since]. *)
Definition beforeRequest (cb : CircuitBreaker) (now : Z)
  : CircuitBreaker * option error :=
  match state cb with
  | StateClosed => (cb, None)
  | StateOpen =>
      if Timeout (config cb) <? time_Sub now (lastFailTime cb) then
        (set_requests (set_state cb StateHalfOpen) 0, None)
      else (cb, Some ErrCircuitOpen)
  | StateHalfOpen =>
      if MaxRequests (config cb) <=? requests cb then
        (cb, Some ErrTooManyRequests)
      else (set_requests cb (wrap_int (requests cb + 1)), None)
  end.

Definition onSuccess (cb : CircuitBreaker) : CircuitBreaker :=
  match state cb with
  | StateClosed => set_failures cb 0
  | StateHalfOpen =>
      set_requests (set_failures (set_state cb StateClosed) 0) 0
  | StateOpen => cb
  end.

(** [onFailure], with [now] the reading of its [time.Now()]. The two
    log lines are not part of the state and are left out. *)
Definition onFailure (cb : CircuitBreaker) (now : Z) : CircuitBreaker :=
  let cb := set_failures cb (wrap_int (failures cb + 1)) in
  let cb := set_lastFailTime cb now in
  match state cb with
  | StateClosed =>
      if Threshold (config cb) <=? failures cb then set_state cb StateOpen
      else cb
  | StateHalfOpen => set_requests (set_state cb StateOpen) 0
  | StateOpen => cb
  end.

Definition afterRequest (cb : CircuitBreaker) (err : option error) (now : Z)
  : CircuitBreaker :=
  match err with
  | Some _ => onFailure cb now
  | None => onSuccess cb
  end.

(** [Call]: the gate, the wrapped function and the record of its
    outcome. [fn] is the wrapped closure, acting on the state [s] it
    closes over; [t0] is the clock reading taken by the gate and [t1]
    the one taken when the outcome is recorded. A [nil] breaker passes
    through. *)
Definition Call {S : Type} (cb : option CircuitBreaker)
    (fn : S -> S * option error) (s : S) (t0 t1 : Z)
  : option CircuitBreaker * S * option error :=
  match cb with
  | None => let '(s', err) := fn s in (None, s', err)
  | Some b =>
      match beforeRequest b t0 with
      | (b', Some e) => (Some b', s, Some e)
      | (b', None) =>
          let '(s', err) := fn s in
          (Some (afterRequest b' err t1), s', err)
      end
  end.

Definition State (cb : option CircuitBreaker) : CircuitState :=
  match cb with
  | None => StateClosed
  | Some b => state b
  end.

Definition Reset (cb : option CircuitBreaker) : option CircuitBreaker :=
  match cb with
  | None => None
  | Some b => Some (set_requests (set_failures (set_state b StateClosed) 0) 0)
  end.

(** *** Interleavings

    Concurrent [Call]s take the breaker's lock twice each, once in
    [beforeRequest] and once in [afterRequest]; every execution is
    therefore a sequence of these two critical sections. *)
Inductive Event : Type :=
  | EvBefore (now : Z)
  | EvAfter (err : option error) (now : Z).

Definition ev_time (ev : Event) : Z :=
  match ev with
  | EvBefore now => now
  | EvAfter _ now => now
  end.

(** One critical section; the second component is the gate's verdict
    ([None] for an [afterRequest], which returns nothing). *)
Definition step (cb : CircuitBreaker) (ev : Event)
  : CircuitBreaker * option (option error) :=
  match ev with
  | EvBefore now =>
      let '(cb', r) := beforeRequest cb now in (cb', Some r)
  | EvAfter err now => (afterRequest cb err now, None)
  end.

Definition run (cb : CircuitBreaker) (evs : list Event) : CircuitBreaker :=
  fold_left (fun b ev => fst (step b ev)) evs cb.

Definition let_in (r : option (option error)) : bool :=
  match r with
  | Some None => true
  | _ => false
  end.

(** The number of calls admitted by the half-open gate since the
    breaker last entered [StateHalfOpen]; a ghost counter that reads
    only the visible states and verdicts. *)
Definition count_probe (cb : CircuitBreaker) (ev : Event) (n : Z) : Z :=
  let '(cb', r) := step cb ev in
  match state cb, state cb' with
  | StateHalfOpen, StateHalfOpen => if let_in r then n + 1 else n
  | _, _ => 0
  end.

Fixpoint probes (cb : CircuitBreaker) (evs : list Event) (n : Z) : Z :=
  match evs with
  | [] => n
  | ev :: evs' => probes (fst (step cb ev)) evs' (count_probe cb ev n)
  end.

(** *** The state table of the specification (section 4.4)

    [table cb ev cb' r] says that moving from [cb] to [cb'] with
    verdict [r] on event [ev] is what the table prescribes. It is
    written from the table, row by row. *)
Definition table (cb : CircuitBreaker) (ev : Event) (cb' : CircuitBreaker)
    (r : option (option error)) : Prop :=
  let cfg := config cb in
  match state cb, ev with
  | StateClosed, EvBefore _ => r = Some None /\ cb' = cb
  | StateClosed, EvAfter (Some _) now =>
      failures cb' = failures cb + 1 /\
      (state cb' = StateOpen <-> Threshold cfg <= failures cb') /\
      (state cb' = StateOpen \/ state cb' = StateClosed) /\
      (state cb' = StateOpen -> lastFailTime cb' = now) /\
      requests cb' = requests cb
  | StateClosed, EvAfter None _ =>
      failures cb' = 0 /\ state cb' = StateClosed /\
      requests cb' = requests cb /\ lastFailTime cb' = lastFailTime cb
  | StateOpen, EvBefore now =>
      if decide (now - lastFailTime cb > Timeout cfg) then
        r = Some None /\ state cb' = StateHalfOpen /\ requests cb' = 0 /\
        failures cb' = failures cb /\ lastFailTime cb' = lastFailTime cb
      else r = Some (Some ErrCircuitOpen) /\ cb' = cb
  | StateOpen, EvAfter (Some _) now =>
      state cb' = StateOpen /\ lastFailTime cb' = now /\
      requests cb' = requests cb
  | StateOpen, EvAfter None _ => cb' = cb
  | StateHalfOpen, EvBefore _ =>
      if decide (requests cb < MaxRequests cfg) then
        r = Some None /\ state cb' = StateHalfOpen /\
        requests cb' = requests cb + 1 /\
        failures cb' = failures cb /\ lastFailTime cb' = lastFailTime cb
      else r = Some (Some ErrTooManyRequests) /\ cb' = cb
  | StateHalfOpen, EvAfter (Some _) _ =>
      state cb' = StateOpen /\ requests cb' = 0
  | StateHalfOpen, EvAfter None _ =>
      state cb' = StateClosed /\ failures cb' = 0 /\ requests cb' = 0
  end.

(** The invariant that makes the table exact: counters are in the
    range where [wrap_int] is the identity at the next increment. *)
Definition inv (cb : CircuitBreaker) : Prop :=
  clock_range (lastFailTime cb) /\
  match state cb with
  | StateClosed =>
      0 <= failures cb /\ (failures cb < Threshold (config cb) \/ failures cb = 0)
  | StateOpen => True
  | StateHalfOpen =>
      0 <= requests cb /\ (requests cb <= MaxRequests (config cb) \/ requests cb = 0)
  end.

Definition cfg_ok (cfg : CircuitBreakerConfig) : Prop :=
  int_range (Threshold cfg) /\ int_range (Timeout cfg) /\
  int_range (MaxRequests cfg).

(** *** Sample run: scenario 4 of the specification

    Threshold 3, cool-down 60 s, one probe: three failures one second
    apart, then a call 61 s after the last failure. *)
Definition second : Z := 1000000000.

Definition sample_config : CircuitBreakerConfig :=
  {| Enabled := true; Threshold := 3; Timeout := 60 * second; MaxRequests := 1 |}.

Definition sample_breaker : CircuitBreaker :=
  {| config := sample_config; state := StateClosed; failures := 0;
     lastFailTime := 0; requests := 0 |}.

Definition three_failures : list Event :=
  [EvAfter (Some (ErrOther "connection refused")) (1 * second);
   EvAfter (Some (ErrOther "connection refused")) (2 * second);
   EvAfter (Some (ErrOther "connection refused")) (3 * second)].


End Breaker.

(** * Token-bucket rate limiter (ratelimiter.go)

    The token balance is a [float64] in the source; it is modelled by
    exact rational arithmetic ([Q]), the real-valued balance the
    specification's data model speaks of. The comparisons, the cap at
    [burst] and the decrement are the source's; what the idealisation
    leaves out is the rounding of the sum and of the product. *)

Module Limiter.

Record RateLimitConfig : Type := {
  Enabled : bool;
  RequestsPerSecond : Z;
  BurstSize : Z;
  PerIP : bool;
  CleanupInterval : Z
}.

Record bucket : Type := {
  tokens : Q;
  lastCheck : Z
}.

Record TokenBucketLimiter : Type := {
  rate : Q;
  burst : Z;
  perIP : bool;
  buckets : gmap string bucket
}.

Definition set_buckets (rl : TokenBucketLimiter) (m : gmap string bucket)
  : TokenBucketLimiter :=
  {| rate := rate rl; burst := burst rl; perIP := perIP rl; buckets := m |}.


(** [time.Duration.Seconds]. *)
Definition Seconds (d : Z) : Q := Qmake d 1000000000.

(** The key actually used: ["global"] unless limiting is per IP. *)
Definition bucket_key (rl : TokenBucketLimiter) (key : string) : string :=
  if perIP rl then key else "global"%string.

(** The bucket the token-bucket step works on: the one stored under
    the key, or a fresh full one stamped [t0]. *)
Definition get_bucket (rl : TokenBucketLimiter) (key : string) (t0 : Z) : bucket :=
  match buckets rl !! key with
  | Some b => b
  | None => {| tokens := inject_Z (burst rl); lastCheck := t0 |}
  end.

(** The refill of lines 84-92, with [now] the reading of [time.Now()]. *)
Definition refill (rl : TokenBucketLimiter) (b : bucket) (now : Z) : bucket :=
  let elapsed := Seconds (time_Sub now (lastCheck b)) in
  let t := (tokens b + elapsed * rate rl)%Q in
  let t := if Qle_bool t (inject_Z (burst rl)) then t else inject_Z (burst rl) in
  {| tokens := t; lastCheck := now |}.

(** The test of lines 95-100 on a refilled bucket. *)
Definition take (b : bucket) : bucket * bool :=
  if Qle_bool 1 (tokens b) then
    ({| tokens := (tokens b - 1)%Q; lastCheck := lastCheck b |}, true)
  else (b, false).

(** [Allow]. [t0] is the clock reading that stamps a bucket created
    by this call, [now] the later reading of the token-bucket step.
    A [nil] limiter admits everything. *)
Definition Allow (rl : option TokenBucketLimiter) (key : string) (t0 now : Z)
  : option TokenBucketLimiter * bool :=
  match rl with
  | None => (None, true)
  | Some rl =>
      let key := bucket_key rl key in
      let b := get_bucket rl key t0 in
      let '(b', ok) := take (refill rl b now) in
      (Some (set_buckets rl (<[key := b']> (buckets rl))), ok)
  end.

Definition five_minutes : Z := 5 * 60 * 1000000000.

(** [Cleanup]: buckets idle for more than five minutes are deleted. *)
Definition Cleanup (rl : option TokenBucketLimiter) (now : Z)
  : option TokenBucketLimiter :=
  match rl with
  | None => None
  | Some rl =>
      Some (set_buckets rl
              (filter (fun kb => negb (five_minutes <? time_Sub now (lastCheck kb.2)) = true)
                      (buckets rl)))
  end.

(** A history of the limiter: calls of [Allow] and runs of [Cleanup]. *)
Inductive Event : Type :=
  | EvAllow (key : string) (t0 now : Z)
  | EvCleanup (now : Z).

Definition step (rl : option TokenBucketLimiter) (ev : Event)
  : option TokenBucketLimiter :=
  match ev with
  | EvAllow key t0 now => fst (Allow rl key t0 now)
  | EvCleanup now => Cleanup rl now
  end.

Definition run (rl : option TokenBucketLimiter) (evs : list Event)
  : option TokenBucketLimiter :=
  fold_left step evs rl.


(** Every bucket holds between 0 and [burst] tokens and was last
    checked no later than [clock]. *)
Definition bucket_ok (rl : TokenBucketLimiter) (clock : Z) (b : bucket) : Prop :=
  (0 <= tokens b)%Q /\ (tokens b <= inject_Z (burst rl))%Q /\
  0 <= lastCheck b <= clock.

Definition inv (rl : TokenBucketLimiter) (clock : Z) : Prop :=
  forall k b, buckets rl !! k = Some b -> bucket_ok rl clock b.


(** *** Sample run: scenario 3 of the specification

    One request per second, burst 1, per IP: three requests from one
    address within 100 ms. *)
Definition millisecond : Z := 1000000.

Definition sample_config : RateLimitConfig :=
  {| Enabled := true; RequestsPerSecond := 1; BurstSize := 1; PerIP := true;
     CleanupInterval := 60000 * millisecond |}.

Definition sample_limiter : TokenBucketLimiter :=
  {| rate := inject_Z 1; burst := 1; perIP := true; buckets := ∅ |}.



End Limiter.


(** * LRU+TTL cache (the cache part of ratelimiter.go)

    [container/list] hands out pointers to its elements and the index
    map stores those pointers, so the element store is explicit here:
    [elems] maps every element pointer ever allocated to the
    [cacheEntry] its [Value] points to (the two objects are allocated
    together and never separated), [evictList] is the order of the
    linked list from front to back, and [items] is the index. An
    element that has left the list stays in [elems], as an unreachable
    object stays in the Go heap. Instants are nanoseconds; [Time.Add]
    is addition and [Time.After] is [>]. A [[]byte] is a list of bytes,
    [nil] being the empty list. *)

Module Cache.

Record CacheConfig : Type := {
  Enabled : bool;
  MaxSize : Z;
  TTL : Z;
  CleanupInterval : Z
}.

Abbreviation ptr := nat.

Record cacheEntry : Type := {
  key : string;
  value : list Byte.byte;
  expireTime : Z
}.

Record LRUCache : Type := {
  maxSize : Z;
  ttl : Z;
  items : gmap string ptr;
  evictList : list ptr;
  elems : gmap ptr cacheEntry
}.

Definition set_items (c : LRUCache) (m : gmap string ptr) : LRUCache :=
  {| maxSize := maxSize c; ttl := ttl c; items := m;
     evictList := evictList c; elems := elems c |}.

Definition set_evictList (c : LRUCache) (l : list ptr) : LRUCache :=
  {| maxSize := maxSize c; ttl := ttl c; items := items c;
     evictList := l; elems := elems c |}.

Definition set_elems (c : LRUCache) (h : gmap ptr cacheEntry) : LRUCache :=
  {| maxSize := maxSize c; ttl := ttl c; items := items c;
     evictList := evictList c; elems := h |}.

(** *** The operations of [container/list] the cache uses *)

(** [l.Remove(e)]: unlinks [e] when it is an element of [l]. *)
Definition list_Remove (l : list ptr) (e : ptr) : list ptr :=
  filter (fun q => q ≠ e) l.

(** [l.MoveToFront(e)]: nothing when [e] is not an element of [l] or
    is already its front. *)
Definition list_MoveToFront (l : list ptr) (e : ptr) : list ptr :=
  if decide (e ∈ l) then
    if decide (head l = Some e) then l else e :: list_Remove l e
  else l.

(** [l.PushFront(v)] returns the new element; [alloc] is its address. *)
Definition alloc (c : LRUCache) : ptr := fresh (dom (elems c)).

(** [l.Back()]. *)
Definition list_Back (l : list ptr) : option ptr := last l.

(** [l.Len()]. *)
Definition list_Len (l : list ptr) : Z := Z.of_nat (length l).

(** *** The cache *)

Definition NewCache (cfg : CacheConfig) : option LRUCache :=
  if Enabled cfg then
    Some {| maxSize := MaxSize cfg; ttl := TTL cfg; items := ∅;
            evictList := []; elems := ∅ |}
  else None.

(** [removeElement]. A pointer always has a target in Go; the [None]
    branch only makes the function total. *)
Definition removeElement (c : LRUCache) (element : ptr) : LRUCache :=
  let c := set_evictList c (list_Remove (evictList c) element) in
  match elems c !! element with
  | Some entry => set_items c (delete (key entry) (items c))
  | None => c
  end.

Definition evictOldest (c : LRUCache) : LRUCache :=
  match list_Back (evictList c) with
  | Some element => removeElement c element
  | None => c
  end.

(** [Get], with [now] the reading of [time.Now()]. *)
Definition Get (c : option LRUCache) (k : string) (now : Z)
  : option LRUCache * (list Byte.byte * bool) :=
  match c with
  | None => (None, ([], false))
  | Some c =>
      match items c !! k with
      | None => (Some c, ([], false))
      | Some element =>
          match elems c !! element with
          | None => (Some c, ([], false))
          | Some entry =>
              if expireTime entry <? now then
                (Some (removeElement c element), ([], false))
              else
                (Some (set_evictList c (list_MoveToFront (evictList c) element)),
                 (value entry, true))
          end
      end
  end.

(** [Set], with [now] the reading of [time.Now()]. *)
Definition Set_ (c : option LRUCache) (k : string) (v : list Byte.byte) (now : Z)
  : option LRUCache :=
  match c with
  | None => None
  | Some c =>
      match items c !! k with
      | Some element =>
          let c := set_evictList c (list_MoveToFront (evictList c) element) in
          Some (set_elems c
                  (alter (fun entry => {| key := key entry; value := v;
                                          expireTime := now + ttl c |})
                         element (elems c)))
      | None =>
          let entry := {| key := k; value := v; expireTime := now + ttl c |} in
          let element := alloc c in
          let c := set_elems c (<[element := entry]> (elems c)) in
          let c := set_evictList c (element :: evictList c) in
          let c := set_items c (<[k := element]> (items c)) in
          if maxSize c <? list_Len (evictList c) then Some (evictOldest c)
          else Some c
      end
  end.

Definition Delete (c : option LRUCache) (k : string) : option LRUCache :=
  match c with
  | None => None
  | Some c =>
      match items c !! k with
      | Some element => Some (removeElement c element)
      | None => Some c
      end
  end.

Definition Clear (c : option LRUCache) : option LRUCache :=
  match c with
  | None => None
  | Some c => Some (set_evictList (set_items c ∅) [])
  end.

Definition Size (c : option LRUCache) : Z :=
  match c with
  | None => 0
  | Some c => list_Len (evictList c)
  end.

Definition expired (c : LRUCache) (now : Z) (element : ptr) : bool :=
  match elems c !! element with
  | Some entry => expireTime entry <? now
  | None => false
  end.

(** [Cleanup]: the expired elements are collected from the back of
    the list to its front, then removed one by one. *)
Definition Cleanup (c : option LRUCache) (now : Z) : option LRUCache :=
  match c with
  | None => None
  | Some c =>
      let toRemove :=
        filter (fun e => expired c now e = true) (reverse (evictList c)) in
      Some (foldl removeElement c toRemove)
  end.

(** A history of the cache. *)
Inductive Op : Type :=
  | OpGet (k : string) (now : Z)
  | OpSet (k : string) (v : list Byte.byte) (now : Z)
  | OpDelete (k : string)
  | OpClear
  | OpCleanup (now : Z).

Definition apply_op (c : option LRUCache) (op : Op) : option LRUCache :=
  match op with
  | OpGet k now => fst (Get c k now)
  | OpSet k v now => Set_ c k v now
  | OpDelete k => Delete c k
  | OpClear => Clear c
  | OpCleanup now => Cleanup c now
  end.

Definition run (c : option LRUCache) (ops : list Op) : option LRUCache :=
  foldl apply_op c ops.

Definition is_Set (op : Op) : bool :=
  match op with
  | OpSet _ _ _ => true
  | _ => false
  end.

(** The index and the list describe each other: the list has no
    repeated element, every element of the list is indexed under the
    key of its entry, and every indexed pointer is an element of the
    list whose entry carries that key. *)
Record linked (c : LRUCache) : Prop := {
  linked_nodup : NoDup (evictList c);
  linked_list : forall p, p ∈ evictList c ->
    exists e, elems c !! p = Some e /\ items c !! key e = Some p;
  linked_items : forall k p, items c !! k = Some p ->
    p ∈ evictList c /\ exists e, elems c !! p = Some e /\ key e = k
}.

Definition wf (c : LRUCache) : Prop :=
  linked c /\ list_Len (evictList c) <= maxSize c.

(** *** Sample run: a cache of two entries with a TTL of 300 s *)
Definition second : Z := 1000000000.

Definition sample_config : CacheConfig :=
  {| Enabled := true; MaxSize := 2; TTL := 300 * second;
     CleanupInterval := 60 * second |}.

Definition sample_cache : LRUCache :=
  {| maxSize := 2; ttl := 300 * second; items := ∅; evictList := []; elems := ∅ |}.

Definition body (s : string) : list Byte.byte := String.list_byte_of_string s.

Definition sample_history : list Op :=
  [OpSet "GET:/a" (body "alpha") (1 * second);
   OpSet "GET:/b" (body "beta") (2 * second);
   OpGet "GET:/a" (3 * second);
   OpSet "GET:/c" (body "gamma") (4 * second)].


End Cache.


(** * Backends, load balancers and the health checker (load_balancer.go)

    A [*Backend] is shared by the load balancer, the health checker and
    the proxy, so the backends live in a store addressed by pointer
    (an index); the balancers hold lists of pointers. Dereferencing a
    pointer outside the store does not happen in Go; the store lookups
    below answer [false] or 0 there only to be total. *)

Module Pool.

Record Backend : Type := {
  URL : string;
  Alive : bool;
  Connections : Z
}.

Abbreviation bptr := nat.

Abbreviation Store := (list Backend).

Definition IsAlive (st : Store) (b : bptr) : bool :=
  match st !! b with
  | Some x => Alive x
  | None => false
  end.

Definition SetAlive (st : Store) (b : bptr) (alive : bool) : Store :=
  alter (fun x => {| URL := URL x; Alive := alive; Connections := Connections x |}) b st.

Definition add_connections (d : Z) (x : Backend) : Backend :=
  {| URL := URL x; Alive := Alive x; Connections := wrap_int (Connections x + d) |}.

Definition IncrementConnections (st : Store) (b : bptr) : Store :=
  alter (add_connections 1) b st.

Definition DecrementConnections (st : Store) (b : bptr) : Store :=
  alter (add_connections (-1)) b st.

Definition GetConnections (st : Store) (b : bptr) : Z :=
  match st !! b with
  | Some x => Connections x
  | None => 0
  end.

Definition backend_URL (st : Store) (b : bptr) : string :=
  match st !! b with
  | Some x => URL x
  | None => ""%string
  end.

End Pool.

Module Balancer.
Import Pool.

(** What [NextBackend] hands back: a backend, [nil], or no value at
    all because indexing a slice out of range panicked. *)
Inductive Selection : Type :=
  | Selected (b : bptr)
  | Nil
  | Panic.

Record RoundRobinBalancer : Type := {
  rr_backends : list bptr;
  current : Z
}.

Record LeastConnectionBalancer : Type := {
  lc_backends : list bptr
}.

Record RandomBalancer : Type := {
  rnd_backends : list bptr
}.

(** The loop of [RoundRobinBalancer.NextBackend]: [fuel] iterations are
    left, [i] is the loop variable. *)
Fixpoint rr_scan (st : Store) (backends : list bptr) (start : Z)
    (fuel : nat) (i : Z) : Selection :=
  match fuel with
  | O => Nil
  | S fuel' =>
      let idx := wrap_uint64 (start + i) mod Z.of_nat (length backends) in
      match backends !! Z.to_nat idx with
      | None => Panic
      | Some backend =>
          if IsAlive st backend then Selected backend
          else rr_scan st backends start fuel' (i + 1)
      end
  end.

(** [RoundRobinBalancer.NextBackend]. [atomic.AddUint64] returns the
    new value of the counter. *)
Definition rr_NextBackend (rb : RoundRobinBalancer) (st : Store)
  : Selection * RoundRobinBalancer :=
  match rr_backends rb with
  | [] => (Nil, rb)
  | _ =>
      let cur := wrap_uint64 (current rb + 1) in
      let start := cur mod Z.of_nat (length (rr_backends rb)) in
      (rr_scan st (rr_backends rb) start (length (rr_backends rb)) 0,
       {| rr_backends := rr_backends rb; current := cur |})
  end.

(** One iteration of the loop of [LeastConnectionBalancer.NextBackend]
    on the pair ([selected], [minConns]). *)
Definition lc_visit (st : Store) (acc : option bptr * Z) (backend : bptr)
  : option bptr * Z :=
  let '(selected, minConns) := acc in
  if negb (IsAlive st backend) then acc
  else
    let conns := GetConnections st backend in
    if (minConns =? -1) || (conns <? minConns) then (Some backend, conns)
    else acc.

Definition lc_NextBackend (lb : LeastConnectionBalancer) (st : Store) : Selection :=
  match lc_backends lb with
  | [] => Nil
  | _ =>
      match fst (foldl (lc_visit st) (None, -1) (lc_backends lb)) with
      | Some b => Selected b
      | None => Nil
      end
  end.

(** [RandomBalancer.NextBackend]; [nano] is [time.Now().UnixNano()] and
    [%] truncates towards zero. *)
Definition rnd_NextBackend (rb : RandomBalancer) (st : Store) (nano : Z) : Selection :=
  match rnd_backends rb with
  | [] => Nil
  | _ =>
      let aliveBackends := filter (fun b => IsAlive st b = true) (rnd_backends rb) in
      match aliveBackends with
      | [] => Nil
      | _ =>
          let idx := Z.rem nano (Z.of_nat (length aliveBackends)) in
          if idx <? 0 then Panic
          else match aliveBackends !! Z.to_nat idx with
               | Some b => Selected b
               | None => Panic
               end
      end
  end.

(** The [LoadBalancer] interface value: one of the three balancers. *)
Inductive LoadBalancer : Type :=
  | RoundRobin (rb : RoundRobinBalancer)
  | LeastConnection (lb : LeastConnectionBalancer)
  | Random (rb : RandomBalancer).

Definition backends (lb : LoadBalancer) : list bptr :=
  match lb with
  | RoundRobin rb => rr_backends rb
  | LeastConnection l => lc_backends l
  | Random rb => rnd_backends rb
  end.

Definition NextBackend (lb : LoadBalancer) (st : Store) (nano : Z)
  : Selection * LoadBalancer :=
  match lb with
  | RoundRobin rb => let '(s, rb') := rr_NextBackend rb st in (s, RoundRobin rb')
  | LeastConnection l => (lc_NextBackend l st, lb)
  | Random rb => (rnd_NextBackend rb st nano, lb)
  end.

(** The three implementations of [MarkBackendDown] and [MarkBackendUp]
    are the same call of [SetAlive]. *)
Definition MarkBackendDown (lb : LoadBalancer) (st : Store) (backend : bptr) : Store :=
  SetAlive st backend false.

Definition MarkBackendUp (lb : LoadBalancer) (st : Store) (backend : bptr) : Store :=
  SetAlive st backend true.

(** [NewLoadBalancer] on the URLs that parse: every backend starts
    alive with no connection, and an unknown strategy is round-robin. *)
Definition NewLoadBalancer (urls : list string) (strategy : string)
  : LoadBalancer * Store :=
  let st := (fun u => {| URL := u; Alive := true; Connections := 0 |}) <$> urls in
  let ptrs := seq 0 (length urls) in
  ((if String.eqb strategy "least-conn" then LeastConnection {| lc_backends := ptrs |}
    else if String.eqb strategy "random" then Random {| rnd_backends := ptrs |}
    else RoundRobin {| rr_backends := ptrs; current := 0 |}),
   st).

(** *** Sample pool: three backends, the second one down *)
Definition sample_store : Store :=
  [ {| URL := "http://localhost:8082"; Alive := true; Connections := 0 |};
    {| URL := "http://localhost:8083"; Alive := false; Connections := 0 |};
    {| URL := "http://localhost:8084"; Alive := true; Connections := 2 |} ].

Definition sample_round_robin : RoundRobinBalancer :=
  {| rr_backends := [0; 1; 2]%nat; current := 0 |}.

Definition dead_store : Store :=
  [ {| URL := "http://localhost:8082"; Alive := false; Connections := 0 |};
    {| URL := "http://localhost:8083"; Alive := false; Connections := 0 |} ].


End Balancer.

(** The leveled log sink and the records the core writes to it. *)
Inductive LogLevel : Type := DEBUG | INFO | WARN | ERROR.

Record LogRecord : Type := {
  log_level : LogLevel;
  log_message : string
}.

Module Health.
Import Pool Balancer.

(** How one probe ends: the request could not be built, the transport
    failed, or a response came back with a status code. *)
Inductive Probe : Type :=
  | RequestError (err : string)
  | TransportError (err : string)
  | Response (StatusCode : Z).

Definition StatusOK : Z := 200.

(** [HealthChecker.checkBackend] on the outcome of its probe: the new
    store and the lines it logs. *)
Definition checkBackend (lb : LoadBalancer) (st : Store) (backend : bptr)
    (probe : Probe) : Store * list LogRecord :=
  match probe with
  | RequestError _ =>
      (MarkBackendDown lb st backend,
       [{| log_level := WARN; log_message := "Health check failed to create request" |}])
  | TransportError _ =>
      let wasAlive := IsAlive st backend in
      (MarkBackendDown lb st backend,
       if wasAlive then [{| log_level := WARN; log_message := "Backend marked as down" |}]
       else [])
  | Response StatusCode =>
      if StatusCode =? StatusOK then
        let wasDown := negb (IsAlive st backend) in
        (MarkBackendUp lb st backend,
         if wasDown then [{| log_level := INFO; log_message := "Backend marked as up" |}]
         else [])
      else
        let wasAlive := IsAlive st backend in
        (MarkBackendDown lb st backend,
         if wasAlive then
           [{| log_level := WARN; log_message := "Backend health check failed" |}]
         else [])
  end.

(** The claim of the specification, in its words: the probe speaks for
    "up" when its response has a 2xx status. *)
Definition probe_2xx (probe : Probe) : bool :=
  match probe with
  | Response code => (200 <=? code) && (code <? 300)
  | _ => false
  end.

Definition spec_checkBackend (lb : LoadBalancer) (st : Store) (backend : bptr)
    (probe : Probe) : Prop :=
  let '(st', logs) := checkBackend lb st backend probe in
  (probe_2xx probe = true -> IsAlive st backend = false ->
     IsAlive st' backend = true) /\
  (probe_2xx probe = false -> IsAlive st backend = true ->
     IsAlive st' backend = false) /\
  (probe_2xx probe = IsAlive st backend -> st' = st /\ logs = []).

(** The probe speaks for "up" exactly when a response came back with
    status 200, the comparison [checkBackend] makes. *)
Definition probe_ok (probe : Probe) : bool :=
  match probe with
  | Response code => code =? StatusOK
  | _ => false
  end.

Definition probe_sent (probe : Probe) : bool :=
  match probe with
  | RequestError _ => false
  | _ => true
  end.

Definition down_backend : Backend :=
  {| URL := "http://localhost:8082"; Alive := false; Connections := 0 |}.

Definition some_balancer : LoadBalancer :=
  RoundRobin {| rr_backends := [0%nat]; current := 0 |}.

End Health.


(** * Client-IP resolution (middleware.go)

    Header values and addresses are byte strings. The library functions
    the code calls are written out for ASCII input: [strings.Split],
    [strings.TrimSpace] (the six ASCII white-space bytes; the Unicode
    space runes beyond ASCII are not modelled),
    [textproto.CanonicalMIMEHeaderKey] and [net.SplitHostPort]. *)

Module GoStrings.

Definition is_space (c : ascii) : bool :=
  let n := nat_of_ascii c in
  ((9 <=? n)%nat && (n <=? 13)%nat) || (n =? 32)%nat.

Fixpoint TrimLeftSpace (s : string) : string :=
  match s with
  | EmptyString => EmptyString
  | String c s' => if is_space c then TrimLeftSpace s' else s
  end.

Fixpoint TrimRightSpace (s : string) : string :=
  match s with
  | EmptyString => EmptyString
  | String c s' =>
      match TrimRightSpace s' with
      | EmptyString => if is_space c then EmptyString else String c EmptyString
      | t => String c t
      end
  end.

Definition TrimSpace (s : string) : string := TrimRightSpace (TrimLeftSpace s).

(** [strings.Split(s, sep)] for a one-byte separator: always at least
    one piece. *)
Fixpoint Split (s : string) (sep : ascii) : list string :=
  match s with
  | EmptyString => [EmptyString]
  | String c s' =>
      if Ascii.eqb c sep then EmptyString :: Split s' sep
      else match Split s' sep with
           | h :: t => String c h :: t
           | [] => [String c EmptyString]
           end
  end.

Fixpoint IndexByte (s : string) (c : ascii) : option nat :=
  match s with
  | EmptyString => None
  | String d s' =>
      if Ascii.eqb d c then Some O
      else match IndexByte s' c with
           | Some i => Some (S i)
           | None => None
           end
  end.

Fixpoint LastIndexByte (s : string) (c : ascii) : option nat :=
  match s with
  | EmptyString => None
  | String d s' =>
      match LastIndexByte s' c with
      | Some i => Some (S i)
      | None => if Ascii.eqb d c then Some O else None
      end
  end.

(** [s[i:j]] and [s[i:]]. *)
Definition slice (s : string) (i j : nat) : string := substring i (j - i) s.
Definition slice_from (s : string) (i : nat) : string :=
  substring i (String.length s - i) s.

Definition is_lower (c : ascii) : bool :=
  let n := nat_of_ascii c in (97 <=? n)%nat && (n <=? 122)%nat.
Definition is_upper (c : ascii) : bool :=
  let n := nat_of_ascii c in (65 <=? n)%nat && (n <=? 90)%nat.
Definition is_digit (c : ascii) : bool :=
  let n := nat_of_ascii c in (48 <=? n)%nat && (n <=? 57)%nat.

(** The bytes allowed in a header field name (RFC 7230 token). *)
Definition validHeaderFieldByte (c : ascii) : bool :=
  is_lower c || is_upper c || is_digit c ||
  existsb (Ascii.eqb c)
    ["!"; "#"; "$"; "%"; "&"; "'"; "*"; "+"; "-"; "."; "^"; "_"; "`"; "|"; "~"]%char.

Fixpoint all_valid (s : string) : bool :=
  match s with
  | EmptyString => true
  | String c s' => validHeaderFieldByte c && all_valid s'
  end.

Fixpoint canonical (upper : bool) (s : string) : string :=
  match s with
  | EmptyString => EmptyString
  | String c s' =>
      let c' :=
        if upper && is_lower c then ascii_of_nat (nat_of_ascii c - 32)
        else if negb upper && is_upper c then ascii_of_nat (nat_of_ascii c + 32)
        else c in
      String c' (canonical (Ascii.eqb c "-") s')
  end.

(** [textproto.CanonicalMIMEHeaderKey]: a name with a byte outside the
    token alphabet is returned unchanged. *)
Definition CanonicalMIMEHeaderKey (s : string) : string :=
  if all_valid s then canonical true s else s.

(** [net.SplitHostPort]; [None] is any of its address errors. *)
Definition SplitHostPort (hostport : string) : option (string * string) :=
  match LastIndexByte hostport ":" with
  | None => None
  | Some i =>
      let bracketed :=
        match hostport with
        | String "[" _ => true
        | _ => false
        end in
      let parts : option (string * nat * nat) :=
        if bracketed then
          match IndexByte hostport "]" with
          | None => None
          | Some end_ =>
              if (end_ + 1 =? String.length hostport)%nat then None
              else if (end_ + 1 =? i)%nat then Some (slice hostport 1 end_, 1, end_ + 1)%nat
              else None
          end
        else
          let host := slice hostport 0 i in
          match IndexByte host ":" with
          | Some _ => None
          | None => Some (host, 0, 0)%nat
          end in
      match parts with
      | None => None
      | Some (host, j, k) =>
          match IndexByte (slice_from hostport j) "[" with
          | Some _ => None
          | None =>
              match IndexByte (slice_from hostport k) "]" with
              | Some _ => None
              | None => Some (host, slice_from hostport (i + 1))
              end
          end
      end
  end.

Fixpoint all_space (s : string) : bool :=
  match s with
  | EmptyString => true
  | String c s' => is_space c && all_space s'
  end.

Definition first_byte (s : string) : option ascii :=
  match s with
  | EmptyString => None
  | String c _ => Some c
  end.

Fixpoint last_byte (s : string) : option ascii :=
  match s with
  | EmptyString => None
  | String c EmptyString => Some c
  | String _ s' => last_byte s'
  end.

(** A string with no white space at either end. *)
Definition trimmed (s : string) : Prop :=
  (forall c, first_byte s = Some c -> is_space c = false) /\
  (forall c, last_byte s = Some c -> is_space c = false).


End GoStrings.

Module Middleware.
Import GoStrings.

(** The parts of [http.Request] the core reads. [Header] is keyed by
    canonical field names. *)
Record Request : Type := {
  Method : string;
  URL_Path : string;
  URL_RawQuery : string;
  Host : string;
  Header : gmap string (list string);
  RemoteAddr : string
}.

(** [http.Header.Get]: the first value of the field, or the empty
    string. *)
Definition Header_Get (h : gmap string (list string)) (name : string) : string :=
  match h !! CanonicalMIMEHeaderKey name with
  | Some (v :: _) => v
  | _ => EmptyString
  end.

Definition peer_host (remoteAddr : string) : string :=
  match SplitHostPort remoteAddr with
  | Some (ip, _) => ip
  | None => remoteAddr
  end.

Definition getClientIP (r : Request) : string :=
  let xff := Header_Get (Header r) "X-Forwarded-For" in
  let from_xff :=
    if negb (String.eqb xff "") then
      match Split xff "," with
      | ip :: _ => Some (TrimSpace ip)
      | [] => None
      end
    else None in
  match from_xff with
  | Some ip => ip
  | None =>
      let xri := Header_Get (Header r) "X-Real-IP" in
      if negb (String.eqb xri "") then xri
      else peer_host (RemoteAddr r)
  end.

(** The resolution policy in the words of the specification: the first
    non-empty entry of X-Forwarded-For (trimmed), else X-Real-IP, else
    the peer address with the port stripped. *)
Definition spec_clientIP (r : Request) : string :=
  let xff := Header_Get (Header r) "X-Forwarded-For" in
  match List.find (fun ip => negb (String.eqb ip "")) (TrimSpace <$> Split xff ",") with
  | Some ip => ip
  | None =>
      let xri := Header_Get (Header r) "X-Real-IP" in
      if negb (String.eqb xri "") then xri
      else peer_host (RemoteAddr r)
  end.

(** A request that arrives through a proxy which left the first entry
    of X-Forwarded-For empty. *)
Definition leading_comma_request : Request :=
  {| Method := "GET"; URL_Path := "/api/v1/orders"; URL_RawQuery := "";
     Host := "gateway.example";
     Header := {[ "X-Forwarded-For"%string := [", 10.0.0.1"%string] ]};
     RemoteAddr := "192.0.2.7:4711" |}.


Definition request_with (headers : gmap string (list string)) (peer : string) : Request :=
  {| Method := "GET"; URL_Path := "/api/v1/orders"; URL_RawQuery := "";
     Host := "gateway.example"; Header := headers; RemoteAddr := peer |}.


End Middleware.


(** * Proxy stage and retrying proxy (proxy.go)

    What the handler does to the outside world is a trace of effects;
    what the outside world answers is given to the model: the outcome
    of each upstream attempt and the readings of the clock. *)

Module Proxy.
Import Pool Balancer Middleware.

Record BackendConfig : Type := {
  URLs : list string;
  HealthCheckInterval : Z;
  HealthCheckTimeout : Z;
  HealthCheckPath : string;
  LoadBalanceStrategy : string;
  MaxIdleConns : Z;
  MaxConnsPerHost : Z;
  IdleConnTimeout : Z;
  RetryAttempts : Z;
  RetryDelay : Z
}.

Inductive Effect : Type :=
  | Log (level : LogLevel) (msg : string)
  | HttpError (msg : string) (code : Z)
  | Sleep (d : Z)
  | Upstream (backend : bptr) (url : string)
  | CopyResponse (StatusCode : Z)
  | ServeNext.

(** How one call of [proxyRequest] ends: the request could not be
    built, the transport failed, or a response with a status code came
    back and copying its body succeeded or failed. *)
Inductive Attempt : Type :=
  | NewRequestFails (err : string)
  | DoFails (err : string)
  | Responds (StatusCode : Z) (copy_err : option string).

Definition StatusBadGateway : Z := 502.
Definition StatusServiceUnavailable : Z := 503.

Definition targetURL (st : Store) (r : Request) (backend : bptr) : string :=
  let u := (backend_URL st backend ++ URL_Path r)%string in
  if negb (String.eqb (URL_RawQuery r) "") then (u ++ "?" ++ URL_RawQuery r)%string
  else u.

(** [proxyRequest] on the outcome [a] of this attempt. *)
Definition proxyRequest (st : Store) (r : Request) (backend : bptr) (a : Attempt)
  : list Effect * option error :=
  match a with
  | NewRequestFails e =>
      ([Log ERROR "Failed to create proxy request";
        HttpError "Bad Gateway" StatusBadGateway], Some (ErrOther e))
  | DoFails e =>
      ([Upstream backend (targetURL st r backend);
        Log ERROR "Proxy request failed";
        HttpError "Bad Gateway" StatusBadGateway], Some (ErrOther e))
  | Responds code (Some e) =>
      ([Upstream backend (targetURL st r backend);
        CopyResponse code;
        Log ERROR "Failed to copy response body"], Some (ErrOther e))
  | Responds code None =>
      ([Upstream backend (targetURL st r backend);
        CopyResponse code;
        Log INFO "Proxy request succeeded"], None)
  end.

Definition isClientError (err : error) : bool := false.

(** What an iteration does before its attempt. *)
Definition before_attempt (config : BackendConfig) (attempt : Z) : list Effect :=
  if 0 <? attempt then
    [Sleep (wrap_int (RetryDelay config * attempt)); Log INFO "Retrying request"]
  else [].

(** The loop of [proxyRequestWithRetry]. [upstream i] is the outcome of
    attempt [i]. The result is [None] when [fuel] iterations were not
    enough to leave the loop. *)
Fixpoint retry_loop (config : BackendConfig) (st : Store) (r : Request)
    (backend : bptr) (upstream : Z -> Attempt)
    (fuel : nat) (attempt : Z) (lastErr : option error)
  : option (list Effect * option error) :=
  match fuel with
  | O => None
  | S fuel' =>
      if attempt <=? RetryAttempts config then
        let pre := before_attempt config attempt in
        let '(effs, err) := proxyRequest st r backend (upstream attempt) in
        match err with
        | None => Some (pre ++ effs, None)
        | Some e =>
            if isClientError e then Some (pre ++ effs, Some e)
            else
              match retry_loop config st r backend upstream fuel'
                      (wrap_int (attempt + 1)) (Some e) with
              | Some (effs', res) => Some (pre ++ effs ++ effs', res)
              | None => None
              end
        end
      else Some ([], lastErr)
  end.

(** Iterations that always suffice when [RetryAttempts < max_int]. *)
Definition retry_fuel (config : BackendConfig) : nat :=
  Z.to_nat (RetryAttempts config + 2).

(** [proxyRequestWithRetry]: the connection count of the backend is
    raised for the duration of the call. *)
Definition proxyRequestWithRetry (config : BackendConfig) (r : Request)
    (backend : bptr) (upstream : Z -> Attempt) (fuel : nat) (st : Store)
  : option (Store * list Effect * option error) :=
  let st1 := IncrementConnections st backend in
  match retry_loop config st1 r backend upstream fuel 0 None with
  | Some (effs, res) => Some (DecrementConnections st1 backend, effs, res)
  | None => None
  end.

(** The state the proxy stage works on. *)
Record Gateway : Type := {
  lb : LoadBalancer;
  breaker : option Breaker.CircuitBreaker;
  store : Store
}.

(** What the outside world contributes to one request. *)
Record World : Type := {
  nano : Z;
  gate_time : Z;
  record_time : Z;
  upstream : Z -> Attempt
}.

Inductive Outcome : Type :=
  | Done (g : Gateway) (effs : list Effect)
  | Panicked
  | OutOfFuel.

(** [map[string]bool] lookup: [false] for a missing key. *)
Definition whitelisted (whitelist : gmap string bool) (path : string) : bool :=
  default false (whitelist !! path).

(** The handler built by [ProxyMiddleware]. *)
Definition ProxyMiddleware (config : BackendConfig) (whitelist : gmap string bool)
    (g : Gateway) (r : Request) (w : World) (fuel : nat) : Outcome :=
  if whitelisted whitelist (URL_Path r) then Done g [ServeNext]
  else
    match NextBackend (lb g) (store g) (nano w) with
    | (Panic, _) => Panicked
    | (Nil, lb') =>
        Done {| lb := lb'; breaker := breaker g; store := store g |}
             [Log ERROR "No available backend";
              HttpError "Service Unavailable" StatusServiceUnavailable]
    | (Selected backend, lb') =>
        let fn (s : option (Store * list Effect)) :=
          match s with
          | None => (None, None)
          | Some (st, effs) =>
              match proxyRequestWithRetry config r backend (upstream w) fuel st with
              | Some (st', effs', res) => (Some (st', (effs ++ effs')%list), res)
              | None => (None, None)
              end
          end in
        match Breaker.Call (breaker g) fn (Some (store g, [])) (gate_time w) (record_time w) with
        | (_, None, _) => OutOfFuel
        | (breaker', Some (st', effs), err) =>
            let tail :=
              match err with
              | Some ErrCircuitOpen =>
                  [Log WARN "Circuit breaker open";
                   HttpError "Service Unavailable" StatusServiceUnavailable]
              | Some ErrTooManyRequests =>
                  [Log WARN "Too many requests to half-open circuit";
                   HttpError "Service Unavailable" StatusServiceUnavailable]
              | _ => []
              end in
            Done {| lb := lb'; breaker := breaker'; store := st' |} (effs ++ tail)%list
        end
    end.

Definition is_Upstream (e : Effect) : bool :=
  match e with
  | Upstream _ _ => true
  | _ => false
  end.

(** The trace of attempt [i] of the retry loop. *)
Definition attempt_trace (config : BackendConfig) (st : Store) (r : Request)
    (backend : bptr) (upstream : Z -> Attempt) (i : Z) : list Effect :=
  (before_attempt config i ++ fst (proxyRequest st r backend (upstream i)))%list.

Definition attempt_fails (a : Attempt) : bool :=
  match a with
  | Responds _ None => false
  | _ => true
  end.

(** *** Sample request: two dead backends, three retries 100 ms apart *)
Definition sample_config : BackendConfig :=
  {| URLs := ["http://localhost:8082"; "http://localhost:8083"];
     HealthCheckInterval := 10000000000; HealthCheckTimeout := 2000000000;
     HealthCheckPath := "/health"; LoadBalanceStrategy := "round-robin";
     MaxIdleConns := 100; MaxConnsPerHost := 100; IdleConnTimeout := 90000000000;
     RetryAttempts := 3; RetryDelay := 100000000 |}.

Definition sample_whitelist : gmap string bool :=
  {[ "/api/v1/resource"%string := true; "/health"%string := true;
     "/metrics"%string := true ]}.

Definition sample_request : Request :=
  {| Method := "GET"; URL_Path := "/api/v1/orders"; URL_RawQuery := "page=2";
     Host := "gateway.example"; Header := ∅; RemoteAddr := "192.0.2.7:4711" |}.

Definition refusing (i : Z) : Attempt :=
  DoFails (if i =? 3 then "connection reset by peer" else "connection refused").

Definition sample_world : World :=
  {| nano := 1761897600000000000; gate_time := 5000000000;
     record_time := 5700000000; upstream := refusing |}.

Definition dead_gateway : Gateway :=
  {| lb := RoundRobin {| rr_backends := [0; 1]%nat; current := 7 |};
     breaker := None; store := dead_store |}.

Definition live_gateway : Gateway :=
  {| lb := RoundRobin {| rr_backends := [0; 1; 2]%nat; current := 7 |};
     breaker := Some Breaker.sample_breaker; store := sample_store |}.


End Proxy.


(** * Circuit breaker: runs of outcomes

    Measures on a history of the breaker that the properties of its
    recovery cycle are stated with. *)

Module BreakerRuns.
Import Breaker.

(** The length of the run of consecutive failures a history ends with,
    [n] being the length before the history: a recorded failure
    extends the run, a recorded success ends it, a check at the gate
    leaves it as it is. *)
Definition streak_step (n : Z) (ev : Event) : Z :=
  match ev with
  | EvAfter (Some _) _ => n + 1
  | EvAfter None _ => 0
  | EvBefore _ => n
  end.

Definition streak_from (n : Z) (evs : list Event) : Z :=
  fold_left streak_step evs n.

(** The longest such run reached at any point of the history. *)
Fixpoint peak_from (n : Z) (evs : list Event) : Z :=
  match evs with
  | [] => n
  | ev :: evs' => Z.max n (peak_from (streak_step n ev) evs')
  end.

(** The moves between states that the breaker makes. *)
Definition move (s s' : CircuitState) : bool :=
  match s, s' with
  | StateClosed, StateClosed | StateClosed, StateOpen => true
  | StateOpen, StateOpen | StateOpen, StateHalfOpen => true
  | StateHalfOpen, StateHalfOpen | StateHalfOpen, StateOpen
  | StateHalfOpen, StateClosed => true
  | _, _ => false
  end.

(** Two failures, a success, two failures: never three in a row. *)
Definition interrupted_failures : list Event :=
  [EvAfter (Some (ErrOther "connection refused")) (1 * second);
   EvBefore (2 * second);
   EvAfter (Some (ErrOther "connection refused")) (2 * second);
   EvAfter None (3 * second);
   EvAfter (Some (ErrOther "connection refused")) (4 * second);
   EvAfter (Some (ErrOther "connection refused")) (5 * second)].

Definition open_breaker : CircuitBreaker :=
  {| config := sample_config; state := StateOpen; failures := 3;
     lastFailTime := 3 * second; requests := 0 |}.

Definition reset_breaker : CircuitBreaker :=
  {| config := sample_config; state := StateClosed; failures := 0;
     lastFailTime := 3 * second; requests := 0 |}.


End BreakerRuns.


(** * Token-bucket rate limiter: successive calls for one key *)

Module LimiterRuns.
Import Limiter.





(** What a bucket would hold at time [c] if it were refilled then; a
    key without a bucket has a full one coming. *)
Definition available (rl : TokenBucketLimiter) (key : string) (c : Z) : Q :=
  match buckets rl !! key with
  | Some b =>
      Qmin (inject_Z (burst rl))
           (tokens b + Seconds (c - lastCheck b) * rate rl)
  | None => inject_Z (burst rl)
  end.







(** Two limiters that no later call can tell apart: the same
    configuration and, for every key, the same balance once refilled. *)
Definition alike (rl1 rl2 : TokenBucketLimiter) (c : Z) : Prop :=
  rate rl1 = rate rl2 /\ burst rl1 = burst rl2 /\ perIP rl1 = perIP rl2 /\
  inv rl1 c /\ inv rl2 c /\
  forall k c', c <= c' -> (available rl1 k c' == available rl2 k c')%Q.



End LimiterRuns.


(** * The cache seen as a list of entries

    What a client of the cache can observe is the sequence of its
    entries from the most to the least recently used. [entries] reads
    that sequence off the linked list; the [lru_] functions are the
    operations of the cache on such a sequence. *)

Module CacheView.
Import Cache.

Definition entries (c : LRUCache) : list cacheEntry :=
  omap (fun p => elems c !! p) (evictList c).

Definition entries_of (c : option LRUCache) : list cacheEntry :=
  match c with
  | Some c => entries c
  | None => []
  end.

Definition lru_find (l : list cacheEntry) (k : string) : option cacheEntry :=
  List.find (fun e => bool_decide (key e = k)) l.

Definition lru_remove (l : list cacheEntry) (k : string) : list cacheEntry :=
  filter (fun e => key e ≠ k) l.

Definition lru_get (l : list cacheEntry) (k : string) (now : Z)
  : list cacheEntry * (list Byte.byte * bool) :=
  match lru_find l k with
  | None => (l, ([], false))
  | Some e =>
      if expireTime e <? now then (lru_remove l k, ([], false))
      else (e :: lru_remove l k, (value e, true))
  end.

Definition lru_set (maxSize ttl : Z) (l : list cacheEntry)
    (k : string) (v : list Byte.byte) (now : Z) : list cacheEntry :=
  let e := {| key := k; value := v; expireTime := now + ttl |} in
  match lru_find l k with
  | Some _ => e :: lru_remove l k
  | None =>
      if maxSize <? Z.of_nat (length (e :: l)) then removelast (e :: l)
      else e :: l
  end.

Definition lru_cleanup (l : list cacheEntry) (now : Z) : list cacheEntry :=
  filter (fun e => negb (expireTime e <? now) = true) l.

Definition lru_apply (maxSize ttl : Z) (l : list cacheEntry) (op : Op)
  : list cacheEntry :=
  match op with
  | OpGet k now => fst (lru_get l k now)
  | OpSet k v now => lru_set maxSize ttl l k v now
  | OpDelete k => lru_remove l k
  | OpClear => []
  | OpCleanup now => lru_cleanup l now
  end.

(** The sample cache after the sample history. *)
Definition warm_cache : LRUCache :=
  default sample_cache (run (Some sample_cache) sample_history).

End CacheView.



(** * Load balancers: successive selections *)

Module BalancerRuns.
Import Pool Balancer.

(** [n] successive calls of round-robin [NextBackend] on a pool that
    does not change in between. *)
Fixpoint rr_calls (n : nat) (rb : RoundRobinBalancer) (st : Store)
  : list Selection * RoundRobinBalancer :=
  match n with
  | O => ([], rb)
  | S n' =>
      let '(s, rb1) := rr_NextBackend rb st in
      let '(ss, rb2) := rr_calls n' rb1 st in
      (s :: ss, rb2)
  end.

(** Three backends, all up. *)
Definition healthy_store : Store :=
  [ {| URL := "http://localhost:8082"; Alive := true; Connections := 4 |};
    {| URL := "http://localhost:8083"; Alive := true; Connections := 1 |};
    {| URL := "http://localhost:8084"; Alive := true; Connections := 1 |} ].

Definition sample_least_connection : LeastConnectionBalancer :=
  {| lc_backends := [0; 1; 2]%nat |}.

End BalancerRuns.



(** * Proxy stage: what a request leaves behind *)

Module ProxyRuns.
Import Pool Balancer Middleware Proxy.

Definition is_Sleep (e : Effect) : bool :=
  match e with
  | Sleep _ => true
  | _ => false
  end.

(** A backend that answers the third attempt. *)
Definition recovering (i : Z) : Attempt :=
  if i <? 2 then DoFails "connection refused" else Responds 200 None.

Definition recovering_world : World :=
  {| nano := 1761897600000000000; gate_time := 5000000000;
     record_time := 5700000000; upstream := recovering |}.

(** The sample gateway with its breaker tripped at 3 s. *)
Definition tripped_gateway : Gateway :=
  {| lb := RoundRobin {| rr_backends := [0; 1; 2]%nat; current := 7 |};
     breaker := Some BreakerRuns.open_breaker; store := sample_store |}.

End ProxyRuns.



(** * Health checker: one round over all backends *)

Module HealthRuns.
Import Pool Balancer Health.

(** [checkAll] starts one goroutine per backend. Each of them touches
    only its own backend, so a round is the checks run one after the
    other in the order [order] in which they happen to get there. *)
Fixpoint checkAll (lb : LoadBalancer) (st : Store) (order : list bptr)
    (probe : bptr -> Probe) : Store * list LogRecord :=
  match order with
  | [] => (st, [])
  | backend :: rest =>
      let '(st1, logs1) := checkBackend lb st backend (probe backend) in
      let '(st2, logs2) := checkAll lb st1 rest probe in
      (st2, logs1 ++ logs2)
  end.

(** A round in which only the third backend answers 200. *)
Definition sample_probe (b : bptr) : Probe :=
  match b with
  | 0%nat => TransportError "connection refused"
  | 1%nat => Response 503
  | _ => Response 200
  end.

Definition three_balancer : LoadBalancer :=
  RoundRobin {| rr_backends := [0; 1; 2]%nat; current := 0 |}.

End HealthRuns.



(** * The stateless middlewares of middleware.go

    A handler is run with the value its request's context holds under
    [RequestIDKey] ([None] for [nil]) and the request, and does a
    sequence of things to its [http.ResponseWriter] and to the logger
    before it returns or panics. A middleware is a function from the
    next handler to a handler. A logger call stands for the call, at
    whatever level the logger is configured. *)

Module Chain.
Import GoStrings Middleware.

Record SecurityConfig : Type := {
  APIKeys : list string;
  EnableCORS : bool;
  AllowedOrigins : list string;
  AllowedMethods : list string;
  AllowedHeaders : list string;
  IPWhitelist : list string;
  IPBlacklist : list string;
  MaxRequestSize : Z
}.

Inductive Act : Type :=
  | SetHeader (name value : string)
  | WriteHeader (code : Z)
  | Write (data : list Byte.byte)
  | Error (msg : string) (code : Z)
  | Log (level : LogLevel) (msg : string).

Inductive Exit : Type := Returns | Panics.

Definition Run : Type := list Act * Exit.

Definition Handler : Type := option string -> Request -> Run.

(** Do [acts], then go on as [k]. *)
Definition and_then (acts : list Act) (k : Run) : Run := (acts ++ fst k, snd k).

(** [r.Context().Value(RequestIDKey).(string)]: the type assertion
    panics when the context holds no request ID. *)
Definition requestID_of (rid : option string) (k : string -> Run) : Run :=
  match rid with
  | Some requestID => k requestID
  | None => ([], Panics)
  end.

(** [hex.EncodeToString]. *)
Definition hex_digit (n : N) : ascii :=
  match String.get (N.to_nat n) "0123456789abcdef" with
  | Some c => c
  | None => "0"%char
  end.

Fixpoint EncodeToString (b : list Byte.byte) : string :=
  match b with
  | [] => EmptyString
  | x :: b' =>
      String (hex_digit (Byte.to_N x / 16))
        (String (hex_digit (Byte.to_N x mod 16)) (EncodeToString b'))
  end.

(** [generateRequestID]; [random] is what [rand.Read] put into the
    16-byte buffer. *)
Definition generateRequestID (random : list Byte.byte) : string :=
  EncodeToString random.

Definition RequestIDMiddleware (random : list Byte.byte) (next : Handler) : Handler :=
  fun _ r =>
    let requestID := Header_Get (Header r) "X-Request-ID" in
    let requestID :=
      if String.eqb requestID "" then generateRequestID random else requestID in
    and_then [SetHeader "X-Request-ID" requestID] (next (Some requestID) r).

(** The map built from [config.APIKeys]. *)
Definition apiKeyMap (config : SecurityConfig) : gmap string bool :=
  foldl (fun m key => <[key := true]> m) ∅ (APIKeys config).

Definition AuthenticationMiddlewareNew (config : SecurityConfig)
    (whitelist : gmap string bool) (next : Handler) : Handler :=
  fun rid r =>
    if Proxy.whitelisted whitelist (URL_Path r) then next rid r
    else
      let apiKey := Header_Get (Header r) "X-API-Key" in
      if String.eqb apiKey "" || negb (default false (apiKeyMap config !! apiKey)) then
        requestID_of rid (fun _ =>
          ([Log WARN "Authentication failed"; Error "Forbidden" 403], Returns))
      else next rid r.

(** The loops over a list of addresses: stop at the first equal one. *)
Fixpoint listed (ip : string) (l : list string) : bool :=
  match l with
  | [] => false
  | x :: l' => if String.eqb ip x then true else listed ip l'
  end.

Definition IPFilterMiddleware (config : SecurityConfig) (next : Handler) : Handler :=
  fun rid r =>
    let clientIP := getClientIP r in
    if listed clientIP (IPBlacklist config) then
      requestID_of rid (fun _ =>
        ([Log WARN "IP blocked"; Error "Forbidden" 403], Returns))
    else if (0 <? length (IPWhitelist config))%nat
            && negb (listed clientIP (IPWhitelist config)) then
      requestID_of rid (fun _ =>
        ([Log WARN "IP not in whitelist"; Error "Forbidden" 403], Returns))
    else next rid r.

(** The loop over [config.AllowedOrigins]. *)
Fixpoint origin_allowed (origin : string) (l : list string) : bool :=
  match l with
  | [] => false
  | allowedOrigin :: l' =>
      if String.eqb allowedOrigin "*" || String.eqb allowedOrigin origin then true
      else origin_allowed origin l'
  end.

(** [strings.Join]. *)
Definition Join (elems : list string) (sep : string) : string :=
  String.concat sep elems.

Definition cors_headers (config : SecurityConfig) (origin : string) : list Act :=
  [SetHeader "Access-Control-Allow-Origin" origin;
   SetHeader "Access-Control-Allow-Methods" (Join (AllowedMethods config) ", ");
   SetHeader "Access-Control-Allow-Headers" (Join (AllowedHeaders config) ", ");
   SetHeader "Access-Control-Allow-Credentials" "true";
   SetHeader "Access-Control-Max-Age" "3600"].

Definition CORSMiddleware (config : SecurityConfig) (next : Handler) : Handler :=
  fun rid r =>
    if negb (EnableCORS config) then next rid r
    else
      let origin := Header_Get (Header r) "Origin" in
      let set :=
        if negb (String.eqb origin "") then
          if origin_allowed origin (AllowedOrigins config)
          then cors_headers config origin else []
        else [] in
      if String.eqb (Method r) "OPTIONS" then (set ++ [WriteHeader 204], Returns)
      else and_then set (next rid r).

Definition SecurityHeadersMiddleware (next : Handler) : Handler :=
  fun rid r =>
    and_then
      [SetHeader "X-Content-Type-Options" "nosniff";
       SetHeader "X-Frame-Options" "DENY";
       SetHeader "X-XSS-Protection" "1; mode=block";
       SetHeader "Strict-Transport-Security" "max-age=31536000; includeSubDomains";
       SetHeader "Content-Security-Policy" "default-src 'self'";
       SetHeader "Referrer-Policy" "strict-origin-when-cross-origin";
       SetHeader "Permissions-Policy" "geolocation=(), microphone=(), camera=()"]
      (next rid r).

(** [RecoveryMiddleware]: the deferred function runs when [next]
    panics, and reads the request ID from the context of the request
    this handler was given. *)
Definition RecoveryMiddleware (next : Handler) : Handler :=
  fun rid r =>
    match next rid r with
    | (acts, Returns) => (acts, Returns)
    | (acts, Panics) =>
        and_then acts
          (requestID_of rid (fun _ =>
             ([Log ERROR "Panic recovered"; Error "Internal Server Error" 500],
              Returns)))
    end.

(** [http.Header.Set] on a request. *)
Definition with_header (r : Request) (name value : string) : Request :=
  {| Method := Method r; URL_Path := URL_Path r; URL_RawQuery := URL_RawQuery r;
     Host := Host r;
     Header := <[CanonicalMIMEHeaderKey name := [value]]> (Header r);
     RemoteAddr := RemoteAddr r |}.

(** *** Sample configuration *)
Definition sample_security : SecurityConfig :=
  {| APIKeys := ["k-7f3a"; "k-22b9"]; EnableCORS := true;
     AllowedOrigins := ["https://app.example"; "*"];
     AllowedMethods := ["GET"; "POST"; "OPTIONS"];
     AllowedHeaders := ["Content-Type"; "X-API-Key"];
     IPWhitelist := ["203.0.113.9"; "198.51.100.4"];
     IPBlacklist := ["192.0.2.66"];
     MaxRequestSize := 1048576 |}.

Definition sample_random : list Byte.byte :=
  [Byte.x00; Byte.x11; Byte.x22; Byte.x33; Byte.x44; Byte.x55; Byte.x66; Byte.x77;
   Byte.x88; Byte.x99; Byte.xaa; Byte.xbb; Byte.xcc; Byte.xdd; Byte.xee; Byte.xff].

(** A final handler that answers 200 with a short body. *)
Definition ok_handler : Handler :=
  fun _ _ => ([WriteHeader 200; Write (String.list_byte_of_string "OK")], Returns).

(** A final handler that panics half-way. *)
Definition panicking_handler : Handler :=
  fun _ _ => ([SetHeader "Content-Type" "application/json"], Panics).

End Chain.



(** * Metrics (metrics.go) and the middlewares that record into them

    The counters are [uint64]s updated with [atomic.AddUint64], which
    wraps. [StatusCodes] is keyed by the status code, a missing key
    reading 0. Durations are nanoseconds. *)

Module Metrics.

Record Metrics : Type := {
  TotalRequests : Z;
  SuccessRequests : Z;
  ErrorRequests : Z;
  StatusCodes : gmap Z Z;
  TotalLatency : Z;
  RequestLatency : list Z;
  BackendStatus : gmap string bool;
  RateLimitedRequests : Z;
  CacheHits : Z;
  CacheMisses : Z
}.

Definition InitMetrics : Metrics :=
  {| TotalRequests := 0; SuccessRequests := 0; ErrorRequests := 0;
     StatusCodes := ∅; TotalLatency := 0; RequestLatency := [];
     BackendStatus := ∅; RateLimitedRequests := 0; CacheHits := 0;
     CacheMisses := 0 |}.

Definition RecordRequest (m : Metrics) : Metrics :=
  {| TotalRequests := wrap_uint64 (TotalRequests m + 1);
     SuccessRequests := SuccessRequests m; ErrorRequests := ErrorRequests m;
     StatusCodes := StatusCodes m; TotalLatency := TotalLatency m;
     RequestLatency := RequestLatency m; BackendStatus := BackendStatus m;
     RateLimitedRequests := RateLimitedRequests m; CacheHits := CacheHits m;
     CacheMisses := CacheMisses m |}.

Definition RecordSuccess (m : Metrics) : Metrics :=
  {| TotalRequests := TotalRequests m;
     SuccessRequests := wrap_uint64 (SuccessRequests m + 1);
     ErrorRequests := ErrorRequests m;
     StatusCodes := StatusCodes m; TotalLatency := TotalLatency m;
     RequestLatency := RequestLatency m; BackendStatus := BackendStatus m;
     RateLimitedRequests := RateLimitedRequests m; CacheHits := CacheHits m;
     CacheMisses := CacheMisses m |}.

Definition RecordError (m : Metrics) : Metrics :=
  {| TotalRequests := TotalRequests m; SuccessRequests := SuccessRequests m;
     ErrorRequests := wrap_uint64 (ErrorRequests m + 1);
     StatusCodes := StatusCodes m; TotalLatency := TotalLatency m;
     RequestLatency := RequestLatency m; BackendStatus := BackendStatus m;
     RateLimitedRequests := RateLimitedRequests m; CacheHits := CacheHits m;
     CacheMisses := CacheMisses m |}.

(** [m.StatusCodes[code]++]. *)
Definition RecordStatusCode (m : Metrics) (code : Z) : Metrics :=
  {| TotalRequests := TotalRequests m; SuccessRequests := SuccessRequests m;
     ErrorRequests := ErrorRequests m;
     StatusCodes :=
       <[code := wrap_uint64 (default 0 (StatusCodes m !! code) + 1)]> (StatusCodes m);
     TotalLatency := TotalLatency m;
     RequestLatency := RequestLatency m; BackendStatus := BackendStatus m;
     RateLimitedRequests := RateLimitedRequests m; CacheHits := CacheHits m;
     CacheMisses := CacheMisses m |}.

(** [RecordLatency]: the total grows by [uint64(duration)], and the
    window keeps the latest 1000 durations. *)
Definition RecordLatency (m : Metrics) (duration : Z) : Metrics :=
  let window :=
    if (1000 <=? length (RequestLatency m))%nat then drop 1 (RequestLatency m)
    else RequestLatency m in
  {| TotalRequests := TotalRequests m; SuccessRequests := SuccessRequests m;
     ErrorRequests := ErrorRequests m; StatusCodes := StatusCodes m;
     TotalLatency := wrap_uint64 (TotalLatency m + wrap_uint64 duration);
     RequestLatency := window ++ [duration];
     BackendStatus := BackendStatus m;
     RateLimitedRequests := RateLimitedRequests m; CacheHits := CacheHits m;
     CacheMisses := CacheMisses m |}.

Definition RecordRateLimited (m : Metrics) : Metrics :=
  {| TotalRequests := TotalRequests m; SuccessRequests := SuccessRequests m;
     ErrorRequests := ErrorRequests m; StatusCodes := StatusCodes m;
     TotalLatency := TotalLatency m; RequestLatency := RequestLatency m;
     BackendStatus := BackendStatus m;
     RateLimitedRequests := wrap_uint64 (RateLimitedRequests m + 1);
     CacheHits := CacheHits m; CacheMisses := CacheMisses m |}.

Definition RecordCacheHit (m : Metrics) : Metrics :=
  {| TotalRequests := TotalRequests m; SuccessRequests := SuccessRequests m;
     ErrorRequests := ErrorRequests m; StatusCodes := StatusCodes m;
     TotalLatency := TotalLatency m; RequestLatency := RequestLatency m;
     BackendStatus := BackendStatus m;
     RateLimitedRequests := RateLimitedRequests m;
     CacheHits := wrap_uint64 (CacheHits m + 1); CacheMisses := CacheMisses m |}.

Definition RecordCacheMiss (m : Metrics) : Metrics :=
  {| TotalRequests := TotalRequests m; SuccessRequests := SuccessRequests m;
     ErrorRequests := ErrorRequests m; StatusCodes := StatusCodes m;
     TotalLatency := TotalLatency m; RequestLatency := RequestLatency m;
     BackendStatus := BackendStatus m;
     RateLimitedRequests := RateLimitedRequests m;
     CacheHits := CacheHits m; CacheMisses := wrap_uint64 (CacheMisses m + 1) |}.

Definition UpdateBackendStatus (m : Metrics) (backend : string) (alive : bool)
  : Metrics :=
  {| TotalRequests := TotalRequests m; SuccessRequests := SuccessRequests m;
     ErrorRequests := ErrorRequests m; StatusCodes := StatusCodes m;
     TotalLatency := TotalLatency m; RequestLatency := RequestLatency m;
     BackendStatus := <[backend := alive]> (BackendStatus m);
     RateLimitedRequests := RateLimitedRequests m;
     CacheHits := CacheHits m; CacheMisses := CacheMisses m |}.

End Metrics.

(** * The recording middlewares

    The wrapped [ResponseWriter] remembers the code of the last
    [WriteHeader] (200 before any) and everything written, and passes
    every call on. [http.Error] on it is a [WriteHeader] followed by a
    [Write] of the message and a line feed. A handler that records is
    run with the metrics as they are and leaves them as it made
    them. *)

Module Recording.
Import GoStrings Middleware Chain Metrics.

Record ResponseWriter : Type := {
  statusCode : Z;
  body : list Byte.byte
}.

Definition NewResponseWriter : ResponseWriter :=
  {| statusCode := 200; body := [] |}.

Definition rw_WriteHeader (rw : ResponseWriter) (code : Z) : ResponseWriter :=
  {| statusCode := code; body := body rw |}.

Definition rw_Write (rw : ResponseWriter) (b : list Byte.byte) : ResponseWriter :=
  {| statusCode := statusCode rw; body := body rw ++ b |}.

Definition StatusCode (rw : ResponseWriter) : Z := statusCode rw.

Definition Body (rw : ResponseWriter) : list Byte.byte := body rw.

(** What one thing a handler does leaves in the wrapper. *)
Definition record (rw : ResponseWriter) (a : Act) : ResponseWriter :=
  match a with
  | WriteHeader code => rw_WriteHeader rw code
  | Write data => rw_Write rw data
  | Error msg code =>
      rw_Write (rw_WriteHeader rw code)
               (String.list_byte_of_string (msg ++ String "010" EmptyString))
  | SetHeader _ _ | Log _ _ => rw
  end.

Definition captured (acts : list Act) : ResponseWriter :=
  foldl record NewResponseWriter acts.

Definition MHandler : Type := Metrics -> option string -> Request -> Metrics * Run.

Definition MetricsMiddleware (next : MHandler) : MHandler :=
  fun m rid r =>
    let m := RecordRequest m in
    let '(m, (acts, exit)) := next m rid r in
    match exit with
    | Panics => (m, (acts, Panics))
    | Returns =>
        let rw := captured acts in
        if (200 <=? StatusCode rw) && (StatusCode rw <? 400)
        then (RecordSuccess m, (acts, Returns))
        else (RecordError m, (acts, Returns))
    end.

(** [LoggingMiddlewareNew]; [start] and [finish] are the readings of
    [time.Now()] and of [time.Since]. *)
Definition LoggingMiddlewareNew (start finish : Z) (next : MHandler) : MHandler :=
  fun m rid r =>
    match rid with
    | None => (m, ([], Panics))
    | Some _ =>
        let '(m, (acts, exit)) := next m rid r in
        let acts := Log INFO "Request started" :: acts in
        match exit with
        | Panics => (m, (acts, Panics))
        | Returns =>
            let rw := captured acts in
            let duration := time_Sub finish start in
            let m := RecordLatency m duration in
            let m := RecordStatusCode m (StatusCode rw) in
            (m, (acts ++ [Log INFO "Request completed"], Returns))
        end
    end.

(** A request as it arrives, with the two clock readings of its
    logging stage. *)
Record Arrival : Type := {
  a_rid : option string;
  a_request : Request;
  a_start : Z;
  a_finish : Z
}.

(** Requests served one after the other by the logging and metrics
    stages around [next], in the order of the gateway's chain. *)
Fixpoint serve_all (next : MHandler) (m : Metrics) (arrivals : list Arrival)
  : Metrics * list Run :=
  match arrivals with
  | [] => (m, [])
  | a :: rest =>
      let '(m1, run) :=
        LoggingMiddlewareNew (a_start a) (a_finish a) (MetricsMiddleware next)
                             m (a_rid a) (a_request a) in
      let '(m2, runs) := serve_all next m1 rest in
      (m2, run :: runs)
  end.

(** The status codes the wrapper saw in a list of runs. *)
Definition codes_of (runs : list Run) : list Z :=
  (fun run : Run => StatusCode (captured (fst run))) <$> runs.

Definition is_success (code : Z) : bool := (200 <=? code) && (code <? 400).

Definition count_if (p : Z -> bool) (l : list Z) : Z :=
  Z.of_nat (length (filter (fun c => p c = true) l)).

(** The handler leaves the counters that the logging and metrics
    stages keep as they are. *)
Definition neutral (next : MHandler) : Prop :=
  forall m rid r,
    let m' := fst (next m rid r) in
    TotalRequests m' = TotalRequests m /\
    SuccessRequests m' = SuccessRequests m /\
    ErrorRequests m' = ErrorRequests m /\
    StatusCodes m' = StatusCodes m /\
    TotalLatency m' = TotalLatency m /\
    RequestLatency m' = RequestLatency m.

Definition uint64_range (x : Z) : Prop := 0 <= x < 2 ^ 64.

(** The counters hold [uint64] values. *)
Definition counters_ok (m : Metrics) : Prop :=
  uint64_range (TotalRequests m) /\ uint64_range (SuccessRequests m) /\
  uint64_range (ErrorRequests m) /\
  forall c, uint64_range (default 0 (StatusCodes m !! c)).

(** Durations recorded one after the other. *)
Definition record_latencies (m : Metrics) (durations : list Z) : Metrics :=
  foldl RecordLatency m durations.

(** A final handler that answers 404 for one path and 200 otherwise. *)
Definition plain_handler : MHandler :=
  fun m _ r =>
    if String.eqb (URL_Path r) "/missing"
    then (m, ([Error "Not Found" 404], Returns))
    else (m, ([WriteHeader 200; Write (String.list_byte_of_string "OK")], Returns)).

Definition sample_arrivals : list Arrival :=
  [ {| a_rid := Some "req-1"%string; a_request := Proxy.sample_request;
       a_start := 1000000; a_finish := 3000000 |};
    {| a_rid := Some "req-2"%string;
       a_request := {| Method := "GET"; URL_Path := "/missing"; URL_RawQuery := "";
                       Host := "gateway.example"; Header := ∅;
                       RemoteAddr := "192.0.2.7:4712" |};
       a_start := 4000000; a_finish := 4500000 |} ].

End Recording.



(** * The rate-limit and cache stages

    These two middlewares work on the limiter and on the cache the
    gateway was built with, and on the metrics; the handler behind
    them records into the metrics but has no access to the limiter or
    the cache. *)

Module Stages.
Import GoStrings Middleware Chain Metrics Recording.

(** The answer of the rate-limit stage to a request it turns away. *)
Definition too_many_requests : list Act :=
  [Log WARN "Rate limit exceeded";
   SetHeader "X-RateLimit-Limit" "100";
   SetHeader "X-RateLimit-Remaining" "0";
   SetHeader "Retry-After" "1";
   Error "Too Many Requests" 429].

(** [RateLimitMiddlewareNew]; [t0] and [now] are the two clock readings
    of [Allow]. *)
Definition RateLimitMiddlewareNew (limiter : option Limiter.TokenBucketLimiter)
    (whitelist : gmap string bool) (next : MHandler) (t0 now : Z)
    (m : Metrics) (rid : option string) (r : Request)
  : option Limiter.TokenBucketLimiter * (Metrics * Run) :=
  if Proxy.whitelisted whitelist (URL_Path r) then (limiter, next m rid r)
  else
    let clientIP := getClientIP r in
    match limiter with
    | None => (limiter, next m rid r)
    | Some _ =>
        let '(limiter, ok) := Limiter.Allow limiter clientIP t0 now in
        if negb ok then
          let m := RecordRateLimited m in
          (limiter, (m, requestID_of rid (fun _ => (too_many_requests, Returns))))
        else (limiter, next m rid r)
    end.




(** [CacheMiddlewareNew]. [URL_String] is [r.URL.String()]; [t_get] and
    [t_set] are the clock readings of [cache.Get] and [cache.Set]. *)
Definition CacheMiddlewareNew (URL_String : Request -> string)
    (cache : option Cache.LRUCache) (whitelist : gmap string bool)
    (next : MHandler) (t_get t_set : Z)
    (m : Metrics) (rid : option string) (r : Request)
  : option Cache.LRUCache * (Metrics * Run) :=
  if negb (String.eqb (Method r) "GET") then (cache, next m rid r)
  else if negb (Proxy.whitelisted whitelist (URL_Path r)) then (cache, next m rid r)
  else
    let cacheKey := (Method r ++ ":" ++ URL_String r)%string in
    let lookup :=
      match cache with
      | None => (cache, m, None)
      | Some _ =>
          let '(cache, (data, found)) := Cache.Get cache cacheKey t_get in
          if found then (cache, RecordCacheHit m, Some data)
          else (cache, RecordCacheMiss m, None)
      end in
    match lookup with
    | (cache, m, Some data) =>
        (cache, (m, requestID_of rid (fun _ =>
                      ([Log DEBUG "Cache hit"; SetHeader "X-Cache" "HIT"; Write data],
                       Returns))))
    | (cache, m, None) =>
        let '(m, (acts, exit)) := next m rid r in
        match exit with
        | Panics => (cache, (m, (acts, Panics)))
        | Returns =>
            let rw := captured acts in
            let cache :=
              match cache with
              | Some _ =>
                  if StatusCode rw =? 200
                  then Cache.Set_ cache cacheKey (Body rw) t_set
                  else cache
              | None => cache
              end in
            (cache, (m, (acts ++ [SetHeader "X-Cache" "MISS"], Returns)))
        end
    end.




(** A whitelisted resource. *)
Definition resource_request : Request :=
  {| Method := "GET"; URL_Path := "/api/v1/resource"; URL_RawQuery := "";
     Host := "gateway.example"; Header := ∅; RemoteAddr := "192.0.2.7:4711" |}.

(** A final handler that touches no metric. *)
Definition ok_handler_m : MHandler := fun m rid r => (m, ok_handler rid r).

Definition sample_URL_String (r : Request) : string :=
  if String.eqb (URL_RawQuery r) "" then URL_Path r
  else (URL_Path r ++ "?" ++ URL_RawQuery r)%string.

End Stages.



(** * Properties *)

(** ** Machine integers and the clock *)

Lemma wrap_int_id x : int_range x -> wrap_int x = x.
Proof.
  unfold int_range, wrap_int, min_int, max_int. intros H.
  rewrite Z.mod_small; lia.
Qed.

Lemma time_Sub_exact t u : clock_range t -> clock_range u -> time_Sub t u = t - u.
Proof.
  unfold clock_range, time_Sub, min_int, max_int. intros Ht Hu.
  destruct (Z.ltb_spec (t - u) (- 2 ^ 63)); [lia|].
  destruct (Z.ltb_spec (2 ^ 63 - 1) (t - u)); lia.
Qed.


(** ** Circuit breaker *)

Module BreakerFacts.
Import Breaker.

Ltac break_cb cb :=
  destruct cb as [cfg st fl lf rq]; cbn [config state failures lastFailTime requests] in *.

Ltac branch :=
  repeat match goal with
    | |- context [Z.ltb ?a ?b] => destruct (Z.ltb_spec a b)
    | |- context [Z.leb ?a ?b] => destruct (Z.leb_spec a b)
    end; cbn.

Lemma step_config cb ev : config (fst (step cb ev)) = config cb.
Proof.
  break_cb cb. unfold step, beforeRequest, afterRequest, onFailure, onSuccess.
  destruct st, ev as [now|[e|] now]; cbn; try done; by branch.
Qed.

Lemma run_config cb evs : config (run cb evs) = config cb.
Proof.
  revert cb. induction evs as [|ev evs IH]; intros cb; [done|].
  cbn. unfold run in IH. rewrite IH. apply step_config.
Qed.

Lemma run_snoc cb evs ev : run cb (evs ++ [ev]) = fst (step (run cb evs) ev).
Proof. unfold run. by rewrite fold_left_app. Qed.

(** Every critical section started from a state satisfying [inv]
    moves as the table says. *)
Lemma step_table cb ev :
  cfg_ok (config cb) -> inv cb -> clock_range (ev_time ev) ->
  table cb ev (fst (step cb ev)) (snd (step cb ev)).
Proof.
  intros (HT & HTo & HM) [Hlf Hinv] Hev.
  break_cb cb. unfold table, step, beforeRequest, afterRequest, onFailure, onSuccess.
  unfold int_range, min_int, max_int in *.
  destruct st, ev as [now|[e|] now]; cbn in *.
  - done.
  - rewrite wrap_int_id by (unfold int_range, min_int, max_int; lia).
    destruct (Z.leb_spec (Threshold cfg) (fl + 1)); cbn; intuition (try done; try lia).
  - done.
  - rewrite time_Sub_exact by done.
    destruct (Z.ltb_spec (Timeout cfg) (now - lf)); case_decide; try lia; done.
  - done.
  - done.
  - destruct (Z.leb_spec (MaxRequests cfg) rq); case_decide; try lia; [done|].
    cbn. rewrite wrap_int_id by (unfold int_range, min_int, max_int; lia). done.
  - done.
  - done.
Qed.

Lemma step_inv cb ev :
  cfg_ok (config cb) -> inv cb -> clock_range (ev_time ev) ->
  inv (fst (step cb ev)).
Proof.
  intros (HT & HTo & HM) [Hlf Hinv] Hev.
  break_cb cb. unfold inv, step, beforeRequest, afterRequest, onFailure, onSuccess.
  unfold int_range, min_int, max_int in *.
  destruct st, ev as [now|[e|] now]; cbn in *; try (split; [done|lia]); try done.
  - rewrite wrap_int_id by (unfold int_range, min_int, max_int; lia).
    destruct (Z.leb_spec (Threshold cfg) (fl + 1)); cbn; split; try done; lia.
  - destruct (Z.ltb_spec (Timeout cfg) (time_Sub now lf)); cbn; split; try done; lia.
  - destruct (Z.leb_spec (MaxRequests cfg) rq); cbn; [done|].
    rewrite wrap_int_id by (unfold int_range, min_int, max_int; lia).
    split; [done|lia].
Qed.

Lemma init_inv cfg cb : NewCircuitBreaker cfg = Some cb -> inv cb /\ config cb = cfg.
Proof.
  unfold NewCircuitBreaker. destruct (Enabled cfg); [|done].
  intros [= <-]. unfold inv, clock_range, max_int; cbn.
  repeat split; try done; lia.
Qed.

Lemma breaker_run_inv cb evs :
  cfg_ok (config cb) -> inv cb -> Forall (fun e => clock_range (ev_time e)) evs ->
  inv (run cb evs).
Proof.
  intros Hc Hi Hevs. revert cb Hc Hi.
  induction Hevs as [|ev evs Hev _ IH]; intros cb Hc Hi; [done|].
  cbn. apply IH; [by rewrite step_config | by apply step_inv].
Qed.

(** The ghost counter of half-open admissions is the breaker's own
    [requests] field whenever the breaker is half-open. *)
Lemma probes_requests cb evs n :
  cfg_ok (config cb) -> inv cb -> Forall (fun e => clock_range (ev_time e)) evs ->
  (state cb = StateHalfOpen -> n = requests cb) ->
  state (run cb evs) = StateHalfOpen ->
  probes cb evs n = requests (run cb evs).
Proof.
  intros Hc Hi Hevs. revert cb n Hc Hi.
  induction Hevs as [|ev evs Hev _ IH]; intros cb n Hc Hi Hn Hs.
  - cbn in *. auto.
  - cbn [probes]. change (run cb (ev :: evs)) with (run (fst (step cb ev)) evs) in *.
    apply IH; [by rewrite step_config | by apply step_inv | | done].
    pose proof (step_table cb ev Hc Hi Hev) as Ht.
    unfold count_probe. destruct (step cb ev) as [cb' r] eqn:E. cbn [fst snd] in *.
    unfold table in Ht. intros Hs'.
    rewrite Hs'.
    destruct (state cb) eqn:Est; destruct ev as [now|[e|] now];
      cbn in Ht |- *; repeat case_decide; destruct_and?; subst;
      try congruence; try (intuition congruence).
    cbn. rewrite Hn by done. lia.
Qed.

(** [Call] on an enabled breaker is the gate's critical section,
    followed (when the gate admits) by the recording one. *)
Lemma Call_steps {S : Type} b (fn : S -> S * option error) s t0 t1 :
  Call (Some b) fn s t0 t1 =
    let '(b', r) := step b (EvBefore t0) in
    match r with
    | Some (Some e) => (Some b', s, Some e)
    | _ => (Some (fst (step b' (EvAfter (snd (fn s)) t1))), fst (fn s), snd (fn s))
    end.
Proof.
  unfold Call. cbn [step]. destruct (beforeRequest b t0) as [b' [e|]]; [done|].
  by destruct (fn s).
Qed.

(** A whole [Call] is, for the breaker, its gate alone when the gate
    rejects, and its gate followed by the record of the outcome when
    the gate lets the call in. *)
Lemma Call_run {S : Type} b (fn : S -> S * option error) x t0 t1 :
  exists b' x' err,
    Call (Some b) fn x t0 t1 = (Some b', x', err) /\
    ((b' = run b [EvBefore t0] /\ x' = x /\
      snd (step b (EvBefore t0)) = Some err /\
      (err = Some ErrCircuitOpen \/ err = Some ErrTooManyRequests))
     \/
     (b' = run b [EvBefore t0; EvAfter err t1] /\ (x', err) = fn x /\
      snd (step b (EvBefore t0)) = Some None)).
Proof.
  rewrite Call_steps. unfold run. cbn [fold_left step].
  unfold beforeRequest.
  destruct (state b); cbn [fst snd].
  - eexists _, _, _. split; [done|]. right. split_and!; try done. by destruct (fn x).
  - destruct (_ <? _); cbn [fst snd].
    + eexists _, _, _. split; [done|]. right. split_and!; try done. by destruct (fn x).
    + eexists _, _, _. split; [done|]. left. split_and!; try done. by left.
  - destruct (_ <=? _); cbn [fst snd].
    + eexists _, _, _. split; [done|]. left. split_and!; try done. by right.
    + eexists _, _, _. split; [done|]. right. split_and!; try done. by destruct (fn x).
Qed.

(** C1. Along every interleaving of the critical sections of [Call]
    on an enabled breaker, each move is the one the state table of
    section 4.4 prescribes ([table]): in Closed a failure increments
    [failures] and opens the circuit, recording the failure time,
    exactly when [failures] reaches the threshold, and a success
    resets [failures]; in Open a call is rejected with
    [ErrCircuitOpen] unless [now - lastFailTime > Timeout], in which
    case the breaker becomes HalfOpen with the probe counter at 0 and
    the call is admitted; in HalfOpen a call is admitted (and counted)
    while the probe counter is below [MaxRequests] and fails with
    [ErrTooManyRequests] otherwise, a failure reopens the circuit and
    a success closes it, both resetting the probe counter.
    Consequently a closed breaker has fewer failures than a positive
    threshold, and the half-open gate admits at most [MaxRequests]
    calls between entering HalfOpen and leaving it. A whole [Call]
    started in any such state ends in a state of the same kind, so the
    statement covers every sequence of calls, concurrent or not. *)
Theorem circuit_follows_state_table cfg cb evs ev :
  cfg_ok cfg -> NewCircuitBreaker cfg = Some cb ->
  Forall (fun e => clock_range (ev_time e)) (evs ++ [ev]) ->
  let s := run cb evs in
  table s ev (fst (step s ev)) (snd (step s ev)) /\
  (state s = StateClosed -> 0 < Threshold cfg -> failures s < Threshold cfg) /\
  (state s = StateHalfOpen -> 0 <= MaxRequests cfg ->
     probes cb evs 0 = requests s /\ 0 <= probes cb evs 0 <= MaxRequests cfg) /\
  (forall (S : Type) (fn : S -> S * option error) x t0 t1,
     exists s' x' err,
       Call (Some s) fn x t0 t1 = (Some s', x', err) /\
       (s' = run cb (evs ++ [EvBefore t0]) \/
        s' = run cb (evs ++ [EvBefore t0; EvAfter err t1]))).
Proof.
  intros Hc Hnew Hall s.
  apply Forall_app in Hall as [Hevs Hev%Forall_inv].
  destruct (init_inv _ _ Hnew) as [Hi Hcfg]. subst cfg.
  assert (Hs : inv s) by (by apply breaker_run_inv).
  assert (Hcs : config s = config cb) by apply run_config.
  split; [|split; [|split]].
  - apply step_table; [by rewrite Hcs | done | done].
  - intros Hst Hpos. destruct Hs as [_ Hs]. rewrite Hst, Hcs in Hs. lia.
  - intros Hst Hpos.
    assert (Hp : probes cb evs 0 = requests s).
    { apply probes_requests; try done.
      intros Hcb. revert Hnew. unfold NewCircuitBreaker.
      destruct (Enabled (config cb)); [|done].
      intros [= Hnew]. rewrite <- Hnew in Hcb. done. }
    split; [done|]. rewrite Hp.
    destruct Hs as [_ Hs]. rewrite Hst, Hcs in Hs. lia.
  - intros S fn x t0 t1.
    destruct (Call_run s fn x t0 t1) as (s' & x' & err & E & Hcase).
    exists s', x', err. split; [done|]. unfold run in *. rewrite !fold_left_app.
    destruct Hcase as [(-> & _)|(-> & _)]; [by left|by right].
Qed.

Example trip_after_three_failures :
  state (run sample_breaker three_failures) = StateOpen /\
  snd (step (run sample_breaker three_failures) (EvBefore (4 * second)))
    = Some (Some ErrCircuitOpen) /\
  step (run sample_breaker three_failures) (EvBefore (64 * second))
    = ({| config := sample_config; state := StateHalfOpen; failures := 3;
          lastFailTime := 3 * second; requests := 0 |}, Some None) /\
  snd (step (run sample_breaker (three_failures ++ [EvBefore (64 * second);
                                                    EvBefore (64 * second)]))
            (EvBefore (64 * second)))
    = Some (Some ErrTooManyRequests).
Proof. by vm_compute. Qed.

Lemma circuit_follows_state_table_witness :
  let s := run sample_breaker three_failures in
  let ev := EvBefore (64 * second) in
  table s ev (fst (step s ev)) (snd (step s ev)) /\
  (state s = StateClosed -> 0 < Threshold sample_config ->
     failures s < Threshold sample_config) /\
  (state s = StateHalfOpen -> 0 <= MaxRequests sample_config ->
     probes sample_breaker three_failures 0 = requests s /\
     0 <= probes sample_breaker three_failures 0 <= MaxRequests sample_config) /\
  (forall (S : Type) (fn : S -> S * option error) x t0 t1,
     exists s' x' err,
       Call (Some s) fn x t0 t1 = (Some s', x', err) /\
       (s' = run sample_breaker (three_failures ++ [EvBefore t0]) \/
        s' = run sample_breaker (three_failures ++ [EvBefore t0; EvAfter err t1]))).
Proof.
  apply (circuit_follows_state_table sample_config sample_breaker three_failures
           (EvBefore (64 * second))).
  - unfold cfg_ok, int_range, min_int, max_int, sample_config, second. cbn. lia.
  - reflexivity.
  - unfold three_failures. cbn [app].
    repeat (apply List.Forall_cons; [unfold clock_range, max_int, second; cbn; lia|]).
    apply List.Forall_nil.
Defined.


End BreakerFacts.

(** ** Token-bucket rate limiter *)

Module LimiterFacts.
Import Limiter.







Lemma bucket_ok_mono rl c c' b : c <= c' -> bucket_ok rl c b -> bucket_ok rl c' b.
Proof. unfold bucket_ok. intros ? (? & ? & ?). repeat split; try done; lia. Qed.








Example three_requests_in_100ms :
  let r1 := Allow (Some sample_limiter) "203.0.113.9" (10 * millisecond) (10 * millisecond) in
  let r2 := Allow (fst r1) "203.0.113.9" (40 * millisecond) (40 * millisecond) in
  let r3 := Allow (fst r2) "203.0.113.9" (90 * millisecond) (90 * millisecond) in
  let r4 := Allow (fst r3) "203.0.113.9" (1100 * millisecond) (1100 * millisecond) in
  (snd r1, snd r2, snd r3, snd r4) = (true, false, false, true).
Proof. by vm_compute. Qed.



End LimiterFacts.

(** ** LRU+TTL cache *)

Module CacheFacts.
Import Cache.

(** *** [container/list] *)

Lemma Remove_length l p :
  NoDup l -> p ∈ l -> S (length (list_Remove l p)) = length l.
Proof.
  unfold list_Remove. induction l as [|q l IH]; intros Hnd Hin.
  - by apply elem_of_nil in Hin.
  - apply NoDup_cons in Hnd as [Hq Hnd].
    destruct (decide (q = p)) as [->|Hne].
    + rewrite filter_cons_False by (intros H; by apply H).
      cbn. f_equal.
      assert (Hall : Forall (fun q => q ≠ p) l).
      { apply Forall_forall. intros x Hx ->. done. }
      clear -Hall. induction Hall as [|x l Hx _ IH]; [done|].
      rewrite filter_cons_True by done. cbn. by rewrite IH.
    + rewrite filter_cons_True by done. cbn. f_equal. apply IH; [done|].
      apply elem_of_cons in Hin as [->|]; done.
Qed.

Lemma MoveToFront_elem l p q : q ∈ list_MoveToFront l p <-> q ∈ l.
Proof.
  unfold list_MoveToFront, list_Remove.
  destruct (decide (p ∈ l)); [|done].
  destruct (decide (head l = Some p)); [done|].
  rewrite elem_of_cons, list_elem_of_filter.
  destruct (decide (q = p)) as [->|]; intuition congruence.
Qed.

Lemma MoveToFront_NoDup l p : NoDup l -> NoDup (list_MoveToFront l p).
Proof.
  intros Hnd. unfold list_MoveToFront, list_Remove.
  destruct (decide (p ∈ l)); [|done].
  destruct (decide (head l = Some p)); [done|].
  apply NoDup_cons. split; [|by apply NoDup_filter].
  rewrite list_elem_of_filter. intros [Hne _]. by apply Hne.
Qed.

Lemma MoveToFront_length l p :
  NoDup l -> length (list_MoveToFront l p) = length l.
Proof.
  intros Hnd. unfold list_MoveToFront.
  destruct (decide (p ∈ l)); [|done].
  destruct (decide (head l = Some p)); [done|].
  cbn. by apply Remove_length.
Qed.

Lemma MoveToFront_head l p : p ∈ l -> head (list_MoveToFront l p) = Some p.
Proof.
  intros Hin. unfold list_MoveToFront.
  rewrite decide_True by done.
  destruct (decide (head l = Some p)); done.
Qed.

(** The other elements keep their order. *)
Lemma MoveToFront_rest l p :
  NoDup l -> list_Remove (list_MoveToFront l p) p = list_Remove l p.
Proof.
  intros Hnd. unfold list_MoveToFront.
  destruct (decide (p ∈ l)); [|done].
  destruct (decide (head l = Some p)); [done|].
  unfold list_Remove. rewrite filter_cons_False by (intros H; by apply H).
  rewrite list_filter_filter. apply list_filter_iff. intros x. tauto.
Qed.

(** *** Preservation of the invariant *)

Lemma removeElement_fields c p :
  maxSize (removeElement c p) = maxSize c /\
  ttl (removeElement c p) = ttl c /\
  elems (removeElement c p) = elems c /\
  evictList (removeElement c p) = list_Remove (evictList c) p.
Proof. unfold removeElement. cbn. by destruct (elems c !! p). Qed.

Lemma removeElement_linked c p :
  linked c -> p ∈ evictList c -> linked (removeElement c p).
Proof.
  intros [Hnd Hl Hi] Hp.
  destruct (Hl p Hp) as (e & He & Hk).
  unfold removeElement. cbn. rewrite He.
  constructor; cbn; unfold list_Remove.
  - by apply NoDup_filter.
  - intros q [Hq Hql]%list_elem_of_filter.
    destruct (Hl q Hql) as (e' & He' & Hk').
    exists e'. split; [done|]. rewrite lookup_delete_ne; [done|].
    intros Heq. rewrite Heq in Hk. congruence.
  - intros k q [Hne Hq]%lookup_delete_Some.
    destruct (Hi k q Hq) as (Hin & e' & He' & Hk').
    split; [|by exists e'].
    apply list_elem_of_filter. split; [|done].
    intros ->. congruence.
Qed.

Lemma removeElement_wf c p : wf c -> p ∈ evictList c -> wf (removeElement c p).
Proof.
  intros [Hl Hlen] Hp. split; [by apply removeElement_linked|].
  destruct (removeElement_fields c p) as (-> & _ & _ & ->).
  unfold list_Len, list_Remove in *.
  pose proof (length_filter (fun q => q ≠ p) (evictList c)). lia.
Qed.

Lemma MoveToFront_wf c p :
  wf c -> wf (set_evictList c (list_MoveToFront (evictList c) p)).
Proof.
  intros [[Hnd Hl Hi] Hlen]. split; [constructor|]; cbn.
  - by apply MoveToFront_NoDup.
  - intros q Hq%MoveToFront_elem. by apply Hl.
  - intros k q Hq. rewrite MoveToFront_elem. by apply Hi.
  - unfold list_Len in *. by rewrite MoveToFront_length.
Qed.

Lemma NewCache_wf cfg c : NewCache cfg = Some c -> 0 <= MaxSize cfg -> wf c.
Proof.
  unfold NewCache. destruct (Enabled cfg); [|done]. intros [= <-] Hm.
  split; [constructor|]; cbn; try done.
  - constructor.
  - intros p Hp. by apply elem_of_nil in Hp.
Qed.

Lemma Get_wf c k now :
  wf c -> exists c', fst (Get (Some c) k now) = Some c' /\
                wf c' /\ maxSize c' = maxSize c /\ elems c' = elems c.
Proof.
  intros Hwf. cbn.
  destruct (items c !! k) as [p|] eqn:Ek; [|by exists c].
  destruct (elems c !! p) as [e|] eqn:Ee; [|by exists c].
  destruct (expireTime e <? now); cbn.
  - eexists; split; [done|].
    destruct (removeElement_fields c p) as (-> & _ & -> & _).
    split; [|done]. apply removeElement_wf; [done|].
    destruct Hwf as [[_ _ Hi] _]. by apply (Hi k).
  - eexists; split; [done|]. split; [|done]. by apply MoveToFront_wf.
Qed.

Lemma Set_wf c k v now :
  wf c -> exists c', Set_ (Some c) k v now = Some c' /\
                wf c' /\ maxSize c' = maxSize c.
Proof.
  intros Hwf. cbn.
  destruct (items c !! k) as [p|] eqn:Ek.
  - eexists; split; [done|]. split; [|done].
    pose proof (MoveToFront_wf c p Hwf) as [[Hnd Hl Hi] Hlen].
    cbn in *. split; [constructor|]; cbn; try done.
    + intros q Hq. destruct (Hl q Hq) as (e & He & Hk).
      rewrite lookup_alter. case_decide as Hpq.
      * subst q. rewrite He. cbn. by eexists.
      * by exists e.
    + intros k' q Hq. destruct (Hi k' q Hq) as (Hin & e & He & Hk).
      split; [done|]. rewrite lookup_alter. case_decide as Hpq.
      * subst q. rewrite He. cbn. by eexists.
      * by exists e.
  - set (p := alloc c).
    assert (Hp : elems c !! p = None).
    { apply not_elem_of_dom. unfold p, alloc. apply is_fresh. }
    destruct Hwf as [[Hnd Hl Hi] Hlen].
    assert (Hpl : p ∉ evictList c).
    { intros Hin. destruct (Hl p Hin) as (e & He & _). congruence. }
    set (entry := {| key := k; value := v; expireTime := now + ttl c |}).
    set (c1 := set_items (set_evictList (set_elems c (<[p:=entry]> (elems c)))
                                        (p :: evictList c))
                         (<[k:=p]> (items c))).
    assert (Hl1 : linked c1).
    { constructor; cbn.
      - by apply NoDup_cons.
      - intros q [->|Hq]%elem_of_cons.
        + exists entry. by rewrite !lookup_insert_eq.
        + destruct (Hl q Hq) as (e & He & Hk). exists e.
          rewrite lookup_insert_ne by congruence. split; [done|].
          rewrite lookup_insert_ne by congruence. done.
      - intros k' q [[<- <-]|[Hne Hq]]%lookup_insert_Some.
        + split; [apply elem_of_cons; by left|].
          exists entry. by rewrite lookup_insert_eq.
        + destruct (Hi k' q Hq) as (Hin & e & He & Hk).
          split; [apply elem_of_cons; by right|].
          exists e. rewrite lookup_insert_ne by congruence. done. }
    change (exists c', (if maxSize c1 <? list_Len (evictList c1)
                   then Some (evictOldest c1) else Some c1) = Some c' /\
                  wf c' /\ maxSize c' = maxSize c).
    destruct (Z.ltb_spec (maxSize c1) (list_Len (evictList c1))) as [Hgt|Hle].
    + eexists; split; [done|]. unfold evictOldest.
      destruct (list_Back (evictList c1)) as [b|] eqn:Eb.
      * apply last_Some_elem_of in Eb.
        destruct (removeElement_fields c1 b) as (Hm & _ & _ & Hev).
        split; [|by rewrite Hm]. split; [by apply removeElement_linked|].
        rewrite Hm, Hev. unfold list_Len in *.
        pose proof (Remove_length (evictList c1) b (linked_nodup _ Hl1) Eb) as Hlen1.
        cbn in *. lia.
      * apply last_None in Eb. cbn in Eb. done.
    + eexists; split; [done|]. split; [|done]. split; done.
Qed.

Lemma Delete_wf c k :
  wf c -> exists c', Delete (Some c) k = Some c' /\
                wf c' /\ maxSize c' = maxSize c /\ elems c' = elems c.
Proof.
  intros Hwf. cbn. destruct (items c !! k) as [p|] eqn:Ek; [|by exists c].
  eexists; split; [done|].
  destruct (removeElement_fields c p) as (-> & _ & -> & _).
  split; [|done]. apply removeElement_wf; [done|].
  destruct Hwf as [[_ _ Hi] _]. by apply (Hi k).
Qed.

Lemma Clear_wf c :
  wf c -> exists c', Clear (Some c) = Some c' /\
                wf c' /\ maxSize c' = maxSize c /\ elems c' = elems c.
Proof.
  intros [_ Hlen]. cbn. eexists; split; [done|]. split; [|done].
  split; [constructor|]; cbn; try done.
  - constructor.
  - intros p Hp. by apply elem_of_nil in Hp.
  - unfold list_Len in *. cbn. lia.
Qed.

Lemma foldl_removeElement_wf ps c :
  wf c -> NoDup ps -> (forall p, p ∈ ps -> p ∈ evictList c) ->
  wf (foldl removeElement c ps) /\
  maxSize (foldl removeElement c ps) = maxSize c /\
  elems (foldl removeElement c ps) = elems c.
Proof.
  revert c. induction ps as [|p ps IH]; intros c Hwf Hnd Hin; [done|].
  apply NoDup_cons in Hnd as [Hp Hnd]. cbn.
  destruct (removeElement_fields c p) as (Hm & _ & He & Hev).
  destruct (IH (removeElement c p)) as (? & ? & ?); [| done | |].
  - apply removeElement_wf; [done|]. apply Hin, elem_of_cons. by left.
  - intros q Hq. rewrite Hev. apply list_elem_of_filter. split.
    + intros ->. done.
    + apply Hin, elem_of_cons. by right.
  - split; [done|]. split; congruence.
Qed.

Lemma Cleanup_wf c now :
  wf c -> exists c', Cleanup (Some c) now = Some c' /\
                wf c' /\ maxSize c' = maxSize c /\ elems c' = elems c.
Proof.
  intros Hwf. cbn. eexists; split; [done|].
  apply foldl_removeElement_wf; [done| |].
  - apply NoDup_filter. rewrite reverse_Permutation. by destruct Hwf as [[? _ _] _].
  - intros p Hp. apply list_elem_of_filter in Hp as [_ Hp].
    by apply elem_of_reverse.
Qed.

Lemma apply_op_wf c op :
  wf c -> exists c', apply_op (Some c) op = Some c' /\
                wf c' /\ maxSize c' = maxSize c /\
                (is_Set op = false -> elems c' = elems c).
Proof.
  intros Hwf. destruct op as [k now|k v now|k| |now]; cbn [apply_op is_Set].
  - destruct (Get_wf c k now Hwf) as (c' & ? & ? & ? & ?). by exists c'.
  - destruct (Set_wf c k v now Hwf) as (c' & ? & ? & ?). by exists c'.
  - destruct (Delete_wf c k Hwf) as (c' & ? & ? & ? & ?). by exists c'.
  - destruct (Clear_wf c Hwf) as (c' & ? & ? & ? & ?). by exists c'.
  - destruct (Cleanup_wf c now Hwf) as (c' & ? & ? & ? & ?). by exists c'.
Qed.

Lemma run_wf c ops :
  wf c -> exists c', run (Some c) ops = Some c' /\
                wf c' /\ maxSize c' = maxSize c /\
                (forallb (fun op => negb (is_Set op)) ops = true -> elems c' = elems c).
Proof.
  revert c. induction ops as [|op ops IH]; intros c Hwf; [by exists c|].
  destruct (apply_op_wf c op Hwf) as (c1 & E1 & Hwf1 & Hm1 & He1).
  destruct (IH c1 Hwf1) as (c' & E & Hwf' & Hm & He).
  exists c'. cbn [run foldl]. rewrite E1. split; [done|]. split; [done|].
  split; [congruence|]. cbn [forallb].
  intros [H1 H2]%andb_true_iff. rewrite He by done. apply He1.
  by apply negb_true_iff.
Qed.

(** The index and the list have the same number of entries. *)
Lemma linked_size c : linked c -> size (items c) = length (evictList c).
Proof.
  intros [Hnd Hl Hi].
  rewrite <- length_map_to_list, <- (length_fmap snd).
  apply Permutation_length, NoDup_Permutation; [|done|].
  - apply NoDup_fmap_2_strong; [|apply NoDup_map_to_list].
    intros [k p] [k' p'] Hx%elem_of_map_to_list Hy%elem_of_map_to_list. cbn.
    intros <-. f_equal.
    destruct (Hi _ _ Hx) as (_ & e & He & <-).
    destruct (Hi _ _ Hy) as (_ & e' & He' & <-). congruence.
  - intros p. rewrite list_elem_of_fmap. split.
    + intros ([k p'] & -> & Hx%elem_of_map_to_list). by apply (Hi k).
    + intros Hp. destruct (Hl p Hp) as (e & He & Hk).
      exists (key e, p). split; [done|]. by apply elem_of_map_to_list.
Qed.

Lemma Get_hit c k now c' v :
  Get (Some c) k now = (c', (v, true)) ->
  exists p e, items c !! k = Some p /\ elems c !! p = Some e /\
         v = value e /\ now <= expireTime e.
Proof.
  cbn. destruct (items c !! k) as [p|] eqn:Ek; [|done].
  destruct (elems c !! p) as [e|] eqn:Ee; [|done].
  destruct (Z.ltb_spec (expireTime e) now); [done|].
  intros [= <- <-]. by exists p, e.
Qed.

Lemma Get_expired c k now p e :
  linked c -> items c !! k = Some p -> elems c !! p = Some e ->
  expireTime e < now ->
  exists c', Get (Some c) k now = (Some c', ([], false)) /\
        items c' !! k = None /\ p ∉ evictList c'.
Proof.
  intros Hl Hk He Hexp. cbn. rewrite Hk, He.
  destruct (Z.ltb_spec (expireTime e) now); [|lia].
  eexists; split; [done|].
  destruct (linked_items _ Hl _ _ Hk) as (_ & e' & He' & Hke).
  assert (e' = e) as -> by congruence.
  unfold removeElement. cbn. rewrite He. cbn. split.
  - rewrite Hke. apply lookup_delete_eq.
  - unfold list_Remove. rewrite list_elem_of_filter. intros [Hne _]. done.
Qed.

Lemma Get_fresh c k now p e :
  linked c -> items c !! k = Some p -> elems c !! p = Some e ->
  now <= expireTime e ->
  exists c', Get (Some c) k now = (Some c', (value e, true)) /\
        head (evictList c') = Some p /\
        list_Remove (evictList c') p = list_Remove (evictList c) p /\
        elems c' = elems c /\ items c' = items c.
Proof.
  intros Hl Hk He Hexp. cbn. rewrite Hk, He.
  destruct (Z.ltb_spec (expireTime e) now); [lia|].
  eexists; split; [done|]. cbn. split_and!; try done.
  - apply MoveToFront_head. by apply (linked_items _ Hl k).
  - apply MoveToFront_rest, Hl.
Qed.

(** C3. After any history of Get/Set/Delete/Clear/Cleanup on an
    enabled cache (with a non-negative capacity), the index and the
    eviction list describe the same keys: a key is indexed at a node
    exactly when that node is in the list and carries the key, no
    node is listed twice, and the two have the same size; the list is
    never longer than [maxSize]; a hit of [Get] returns the bytes of
    an entry whose expiry time has not passed; and [Get] on an expired
    entry removes it from the index and the list and reports a miss. *)
Theorem cache_index_matches_list cfg c0 ops :
  NewCache cfg = Some c0 -> 0 <= MaxSize cfg ->
  exists c, run (Some c0) ops = Some c /\
    (forall k p, items c !! k = Some p <->
       p ∈ evictList c /\ exists e, elems c !! p = Some e /\ key e = k) /\
    NoDup (evictList c) /\
    size (items c) = length (evictList c) /\
    Size (Some c) <= MaxSize cfg /\
    (forall k now c' v, Get (Some c) k now = (c', (v, true)) ->
       exists p e, items c !! k = Some p /\ elems c !! p = Some e /\
              v = value e /\ ~ (expireTime e < now)) /\
    (forall k now p e, items c !! k = Some p -> elems c !! p = Some e ->
       expireTime e < now ->
       exists c', Get (Some c) k now = (Some c', ([], false)) /\
             items c' !! k = None /\ p ∉ evictList c').
Proof.
  intros Hnew Hmax.
  destruct (run_wf c0 ops (NewCache_wf _ _ Hnew Hmax)) as (c & Erun & [Hl Hlen] & Hm & _).
  exists c. split; [done|]. split_and!.
  - intros k p. split; [apply Hl|].
    intros (Hp & e & He & Hk). destruct (linked_list _ Hl p Hp) as (e' & He' & Hk').
    congruence.
  - apply Hl.
  - by apply linked_size.
  - cbn. rewrite Hm in Hlen. revert Hnew. unfold NewCache.
    destruct (Enabled cfg); [|done]. intros [= <-]. done.
  - intros k now c' v Hget.
    destruct (Get_hit _ _ _ _ _ Hget) as (p & e & ? & ? & ? & ?).
    exists p, e. split_and!; try done. lia.
  - intros k now p e. by apply Get_expired.
Qed.

(** C9. In every reachable state of an enabled cache, [Get] on a key
    that is present and unexpired returns its bytes and moves its
    node to the front of the eviction list, the other nodes keeping
    their order, and leaves every entry (expiry times included) and
    the index as they were; no operation other than [Set] changes any
    entry, so a later hit returns an entry stored by the last [Set]
    and happens no later than the expiry time that [Set] wrote; [Set]
    on a present key is what rewrites the entry's expiry time, to
    [now + ttl]. *)
Theorem get_does_not_refresh_expiry cfg c0 ops :
  NewCache cfg = Some c0 -> 0 <= MaxSize cfg ->
  exists c, run (Some c0) ops = Some c /\
    (forall k now p e, items c !! k = Some p -> elems c !! p = Some e ->
       now <= expireTime e ->
       exists c', Get (Some c) k now = (Some c', (value e, true)) /\
             head (evictList c') = Some p /\
             list_Remove (evictList c') p = list_Remove (evictList c) p /\
             elems c' = elems c /\ items c' = items c) /\
    (forall ops', forallb (fun op => negb (is_Set op)) ops' = true ->
       exists c', run (Some c) ops' = Some c' /\ elems c' = elems c /\
         forall k now c'' v, Get (Some c') k now = (c'', (v, true)) ->
           exists p e, elems c !! p = Some e /\ key e = k /\
                  value e = v /\ now <= expireTime e) /\
    (forall k v now p, items c !! k = Some p ->
       exists c' e', Set_ (Some c) k v now = Some c' /\
             elems c' !! p = Some e' /\ value e' = v /\
             expireTime e' = now + TTL cfg).
Proof.
  intros Hnew Hmax.
  destruct (run_wf c0 ops (NewCache_wf _ _ Hnew Hmax)) as (c & Erun & Hwf & Hm & _).
  exists c. split; [done|]. split_and!.
  - intros k now p e. apply Get_fresh, Hwf.
  - intros ops' Hns.
    destruct (run_wf c ops' Hwf) as (c' & Erun' & [Hl' _] & _ & He).
    specialize (He Hns). exists c'. split_and!; try done.
    intros k now c'' v Hget.
    destruct (Get_hit _ _ _ _ _ Hget) as (p & e & Hk & Hp & -> & Hexp).
    exists p, e. rewrite <- He. split_and!; try done.
    destruct (linked_items _ Hl' _ _ Hk) as (_ & e' & He' & Hke). congruence.
  - intros k v now p Hk.
    destruct (linked_items _ (proj1 Hwf) _ _ Hk) as (_ & e & He & _).
    cbn. rewrite Hk. eexists _, _. split; [done|]. cbn.
    rewrite lookup_alter_eq, He. cbn. split_and!; try done.
    f_equal.
    assert (Httl : forall c1 op, ttl <$> apply_op (Some c1) op = Some (ttl c1)).
    { intros c1 [k1 n1|k1 v1 n1|k1| |n1]; cbn.
      - destruct (items c1 !! k1) as [q|]; [|done].
        destruct (elems c1 !! q); [|done].
        destruct (_ <? _); cbn; [|done].
        by destruct (removeElement_fields c1 q) as (_ & -> & _).
      - destruct (items c1 !! k1) as [q|]; [done|].
        destruct (_ <? _); cbn; [|done]. unfold evictOldest.
        destruct (list_Back _) as [b|]; [|done].
        by match goal with |- context [removeElement ?x b] =>
             destruct (removeElement_fields x b) as (_ & -> & _) end.
      - destruct (items c1 !! k1) as [q|]; [|done]. cbn.
        by destruct (removeElement_fields c1 q) as (_ & -> & _).
      - done.
      - f_equal. generalize (filter (fun e0 => expired c1 n1 e0 = true) (reverse (evictList c1))).
        intros ps. revert c1. induction ps as [|q ps IH]; intros c1; [done|].
        cbn. rewrite IH. by destruct (removeElement_fields c1 q) as (_ & -> & _). }
    assert (Hrun : forall ops1 c1, ttl <$> run (Some c1) ops1 = Some (ttl c1)).
    { induction ops1 as [|op ops1 IH]; intros c1; [done|].
      cbn [run foldl]. specialize (Httl c1 op).
      destruct (apply_op (Some c1) op) as [c2|]; [|done].
      injection Httl as <-. apply IH. }
    specialize (Hrun ops c0). rewrite Erun in Hrun. injection Hrun as ->.
    revert Hnew. unfold NewCache. destruct (Enabled cfg); [|done].
    by intros [= <-].
Qed.

(** C10. Every public operation of the cache is total on a nil
    (disabled) cache: [Get] answers [(nil, false)], [Set], [Delete],
    [Clear] and [Cleanup] do nothing, and [Size] is 0; this mirrors
    the nil limiter, which admits every call, and the nil breaker,
    which passes the call through. *)
Theorem nil_cache_is_inert k v now :
  Get None k now = (None, ([], false)) /\
  Set_ None k v now = None /\
  Delete None k = None /\
  Clear None = None /\
  Cleanup None now = None /\
  Size None = 0 /\
  (forall cfg, Enabled cfg = false -> NewCache cfg = None) /\
  (forall key t0 t1, Limiter.Allow None key t0 t1 = (None, true)) /\
  (forall (fn : unit -> unit * option error) t0 t1,
     Breaker.Call None fn tt t0 t1 = (None, fst (fn tt), snd (fn tt))).
Proof.
  split_and!; try done.
  - intros cfg H. unfold NewCache. by rewrite H.
  - intros fn t0 t1. cbn. by destruct (fn tt).
Qed.


(** After the sample history the least recently used key is gone, the
    others are served, and an entry is a miss once its TTL has passed,
    however often it was read in between. *)
Example sample_history_result :
  let c := run (Some sample_cache) sample_history in
  Size c = 2 /\
  snd (Get c "GET:/b" (5 * second)) = ([], false) /\
  snd (Get c "GET:/a" (5 * second)) = (body "alpha", true) /\
  snd (Get c "GET:/c" (5 * second)) = (body "gamma", true) /\
  snd (Get (fst (Get c "GET:/a" (300 * second))) "GET:/a" (302 * second)) = ([], false) /\
  Size (fst (Get c "GET:/a" (302 * second))) = 1.
Proof. by vm_compute. Qed.

Lemma cache_index_matches_list_witness :
  exists c, run (Some sample_cache) sample_history = Some c /\
    (forall k p, items c !! k = Some p <->
       p ∈ evictList c /\ exists e, elems c !! p = Some e /\ key e = k) /\
    NoDup (evictList c) /\
    size (items c) = length (evictList c) /\
    Size (Some c) <= MaxSize sample_config /\
    (forall k now c' v, Get (Some c) k now = (c', (v, true)) ->
       exists p e, items c !! k = Some p /\ elems c !! p = Some e /\
              v = value e /\ ~ (expireTime e < now)) /\
    (forall k now p e, items c !! k = Some p -> elems c !! p = Some e ->
       expireTime e < now ->
       exists c', Get (Some c) k now = (Some c', ([], false)) /\
             items c' !! k = None /\ p ∉ evictList c').
Proof.
  apply (cache_index_matches_list sample_config sample_cache sample_history).
  - reflexivity.
  - cbn. lia.
Defined.

Lemma get_does_not_refresh_expiry_witness :
  exists c, run (Some sample_cache) sample_history = Some c /\
    (forall k now p e, items c !! k = Some p -> elems c !! p = Some e ->
       now <= expireTime e ->
       exists c', Get (Some c) k now = (Some c', (value e, true)) /\
             head (evictList c') = Some p /\
             list_Remove (evictList c') p = list_Remove (evictList c) p /\
             elems c' = elems c /\ items c' = items c) /\
    (forall ops', forallb (fun op => negb (is_Set op)) ops' = true ->
       exists c', run (Some c) ops' = Some c' /\ elems c' = elems c /\
         forall k now c'' v, Get (Some c') k now = (c'', (v, true)) ->
           exists p e, elems c !! p = Some e /\ key e = k /\
                  value e = v /\ now <= expireTime e) /\
    (forall k v now p, items c !! k = Some p ->
       exists c' e', Set_ (Some c) k v now = Some c' /\
             elems c' !! p = Some e' /\ value e' = v /\
             expireTime e' = now + TTL sample_config).
Proof.
  apply (get_does_not_refresh_expiry sample_config sample_cache sample_history).
  - reflexivity.
  - cbn. lia.
Defined.


End CacheFacts.

(** ** Load balancers *)

Module BalancerFacts.
Import Pool Balancer.

Lemma SetAlive_same st b alive : IsAlive st b = alive -> is_Some (st !! b) -> SetAlive st b alive = st.
Proof.
  unfold IsAlive, SetAlive. intros Ha [x Hx]. rewrite Hx in Ha.
  apply list_eq. intros i. rewrite list_lookup_alter.
  case_decide as Hi; [|done]. subst i. rewrite Hx. cbn. f_equal.
  destruct x; cbn in *. by subst.
Qed.

Lemma SetAlive_dangling st b alive : st !! b = None -> SetAlive st b alive = st.
Proof.
  unfold SetAlive. intros Hx. apply list_eq. intros i.
  rewrite list_lookup_alter. case_decide as Hi; [|done]. subst. by rewrite Hx.
Qed.

Lemma IsAlive_SetAlive st b alive : is_Some (st !! b) -> IsAlive (SetAlive st b alive) b = alive.
Proof.
  unfold IsAlive, SetAlive. intros [x Hx]. by rewrite list_lookup_alter_eq, Hx.
Qed.

Lemma rr_index_range (bs : list bptr) x :
  bs <> [] ->
  0 <= x mod Z.of_nat (length bs) < Z.of_nat (length bs).
Proof.
  intros Hne. apply Z.mod_pos_bound. destruct bs; [done|]. cbn. lia.
Qed.

Lemma rr_lookup (bs : list bptr) x :
  bs <> [] -> is_Some (bs !! Z.to_nat (x mod Z.of_nat (length bs))).
Proof.
  intros Hne. apply lookup_lt_is_Some.
  pose proof (rr_index_range bs x Hne). lia.
Qed.

(** The scan visits the positions [start + i], [start + i + 1], ...
    modulo the length, stops at the first alive backend, and answers
    [Nil] only after finding every visited backend dead. *)
Lemma rr_scan_spec st bs start fuel i :
  let N := Z.of_nat (length bs) in
  bs <> [] -> N <= max_int -> 0 <= start < N -> 0 <= i -> i + Z.of_nat fuel = N ->
  let at_ j := bs !! Z.to_nat ((start + j) mod N) in
  match rr_scan st bs start fuel i with
  | Selected b =>
      exists j, i <= j < N /\ at_ j = Some b /\ IsAlive st b = true /\
           forall j', i <= j' < j -> exists b', at_ j' = Some b' /\ IsAlive st b' = false
  | Nil => forall j, i <= j < N -> exists b', at_ j = Some b' /\ IsAlive st b' = false
  | Panic => False
  end.
Proof.
  intros N Hne Hmax Hstart. revert i.
  induction fuel as [|fuel IH]; intros i Hi Hfuel at_; cbn [rr_scan].
  - intros j Hj. lia.
  - fold N. unfold wrap_uint64. unfold max_int in Hmax.
    rewrite (Z.mod_small (start + i)) by lia.
    destruct (rr_lookup bs (start + i) Hne) as [b Hb]. fold N in Hb.
    rewrite Hb. destruct (IsAlive st b) eqn:Ealive.
    + exists i. split; [lia|]. split; [done|]. split; [done|]. intros j' Hj'. lia.
    + specialize (IH (i + 1)). cbn zeta in IH.
      destruct (rr_scan st bs start fuel (i + 1)) as [b'| |].
      * destruct IH as (j & Hj & Hb' & Ha & Hdead); [lia|lia|].
        exists j. split; [lia|]. split; [done|]. split; [done|].
        intros j' Hj'. destruct (decide (j' = i)) as [->|]; [by exists b|].
        apply Hdead. lia.
      * intros j Hj. destruct (decide (j = i)) as [->|]; [by exists b|].
        apply IH; lia.
      * apply IH; lia.
Qed.

Lemma rr_scan_dead st bs start fuel i :
  bs <> [] -> (forall b, b ∈ bs -> IsAlive st b = false) ->
  rr_scan st bs start fuel i = Nil.
Proof.
  intros Hne Hdead. revert i. induction fuel as [|fuel IH]; intros i; [done|].
  cbn [rr_scan]. destruct (rr_lookup bs (wrap_uint64 (start + i)) Hne) as [b Hb].
  rewrite Hb. rewrite Hdead; [apply IH|]. by apply list_elem_of_lookup_2 in Hb.
Qed.

Lemma lc_fold_dead st bs acc :
  (forall b, b ∈ bs -> IsAlive st b = false) ->
  foldl (lc_visit st) acc bs = acc.
Proof.
  revert acc. induction bs as [|b bs IH]; intros acc Hdead; [done|].
  cbn. rewrite IH.
  - unfold lc_visit. destruct acc. rewrite Hdead; [done|]. apply elem_of_cons; by left.
  - intros b' Hb'. apply Hdead, elem_of_cons. by right.
Qed.

(** No alive backend (the empty list included): every strategy answers
    [nil]. *)
Lemma NextBackend_none_alive lb st nano :
  (forall b, b ∈ backends lb -> IsAlive st b = false) ->
  fst (NextBackend lb st nano) = Nil /\
  backends (snd (NextBackend lb st nano)) = backends lb.
Proof.
  intros Hdead. destruct lb as [rb|l|rb]; cbn in *.
  - unfold rr_NextBackend. destruct (rr_backends rb) as [|b bs] eqn:E; [done|].
    cbn [fst snd backends rr_backends]. split; [|done]. by apply rr_scan_dead.
  - split; [|done]. unfold lc_NextBackend.
    destruct (lc_backends l) as [|b bs] eqn:E; [done|].
    by rewrite lc_fold_dead.
  - split; [|done]. unfold rnd_NextBackend.
    destruct (rnd_backends rb) as [|b bs] eqn:E; [done|].
    assert (Hf : filter (fun b => IsAlive st b = true) (b :: bs) = []).
    { clear E. induction (b :: bs) as [|x xs IH]; [done|].
      rewrite filter_cons_False.
      - apply IH. intros b' Hb'. apply Hdead, elem_of_cons. by right.
      - rewrite Hdead; [done|]. apply elem_of_cons. by left. }
    by rewrite Hf.
Qed.

Lemma rr_NextBackend_nonempty rb st :
  rr_backends rb <> [] ->
  rr_NextBackend rb st =
    (rr_scan st (rr_backends rb)
       (wrap_uint64 (current rb + 1) mod Z.of_nat (length (rr_backends rb)))
       (length (rr_backends rb)) 0,
     {| rr_backends := rr_backends rb; current := wrap_uint64 (current rb + 1) |}).
Proof. unfold rr_NextBackend. by destruct (rr_backends rb). Qed.

(** C6. On a non-empty backend list of length N, round-robin
    [NextBackend] advances the counter by one (modulo 2^64) whatever it
    finds, starts scanning at index [counter mod N] for the advanced
    counter, walks forward modulo N, and returns the first backend
    whose alive flag is set: every position visited before it holds a
    dead backend; it returns [nil] exactly when it has found every
    backend dead, and it never indexes out of range. *)
Theorem round_robin_scans_from_counter rb st nano :
  rr_backends rb <> [] -> Z.of_nat (length (rr_backends rb)) <= max_int ->
  let N := Z.of_nat (length (rr_backends rb)) in
  let counter := wrap_uint64 (current rb + 1) in
  let start := counter mod N in
  let at_ j := rr_backends rb !! Z.to_nat ((start + j) mod N) in
  let '(sel, rb') := rr_NextBackend rb st in
  NextBackend (RoundRobin rb) st nano = (sel, RoundRobin rb') /\
  current rb' = counter /\
  rr_backends rb' = rr_backends rb /\
  match sel with
  | Selected b =>
      exists j, 0 <= j < N /\ at_ j = Some b /\ IsAlive st b = true /\
           forall j', 0 <= j' < j -> exists b', at_ j' = Some b' /\ IsAlive st b' = false
  | Nil => forall b, b ∈ rr_backends rb -> IsAlive st b = false
  | Panic => False
  end.
Proof.
  intros Hne Hmax N counter start at_.
  cbn [NextBackend]. rewrite (rr_NextBackend_nonempty rb st Hne).
  change (wrap_uint64 (current rb + 1)) with counter.
  change (counter mod Z.of_nat (length (rr_backends rb))) with start.
  split; [done|]. cbn [current rr_backends]. split; [done|]. split; [done|].
  pose proof (rr_index_range (rr_backends rb) counter Hne) as Hstart.
  pose proof (rr_scan_spec st (rr_backends rb) start (length (rr_backends rb)) 0
                Hne Hmax Hstart) as Hscan.
  cbn zeta in Hscan. fold N start in Hscan |- *. unfold at_.
  destruct (rr_scan st (rr_backends rb) start (length (rr_backends rb)) 0) as [b| |].
  - apply Hscan; lia.
  - intros b Hb. apply list_elem_of_lookup_1 in Hb as [k Hk].
    assert (Hk' : (Z.of_nat k < N)) by (apply lookup_lt_Some in Hk; lia).
    destruct (Hscan ltac:(lia) ltac:(lia) ((Z.of_nat k - start) mod N)) as (b' & Hb' & Hdead).
    { apply Z.mod_pos_bound. lia. }
    rewrite Zplus_mod_idemp_r in Hb'.
    replace (start + (Z.of_nat k - start)) with (Z.of_nat k) in Hb' by lia.
    rewrite Z.mod_small, Nat2Z.id in Hb' by lia. congruence.
  - apply Hscan; lia.
Qed.


(** On a fresh balancer the counter is advanced before the scan: the
    first call starts at index 1, finds it dead and returns backend 2;
    the next three calls return 2, 0 and 2. *)
Example round_robin_sample :
  let r1 := rr_NextBackend sample_round_robin sample_store in
  let r2 := rr_NextBackend (snd r1) sample_store in
  let r3 := rr_NextBackend (snd r2) sample_store in
  let r4 := rr_NextBackend (snd r3) sample_store in
  (fst r1, fst r2, fst r3, fst r4, current (snd r4))
    = (Selected 2%nat, Selected 2%nat, Selected 0%nat, Selected 2%nat, 4).
Proof. by vm_compute. Qed.

Example strategies_sample :
  lc_NextBackend {| lc_backends := [0; 1; 2]%nat |} sample_store = Selected 0%nat /\
  rnd_NextBackend {| rnd_backends := [0; 1; 2]%nat |} sample_store 1761897600000000001
    = Selected 2%nat /\
  fst (NextBackend (NewLoadBalancer ["http://localhost:8082"; "http://localhost:8083"]
                                    "least-conn").1
                   dead_store 0) = Nil.
Proof. by vm_compute. Qed.

Lemma round_robin_scans_from_counter_witness :
  let rb := sample_round_robin in
  let st := sample_store in
  let N := Z.of_nat (length (rr_backends rb)) in
  let counter := wrap_uint64 (current rb + 1) in
  let start := counter mod N in
  let at_ j := rr_backends rb !! Z.to_nat ((start + j) mod N) in
  let '(sel, rb') := rr_NextBackend rb st in
  NextBackend (RoundRobin rb) st 0 = (sel, RoundRobin rb') /\
  current rb' = counter /\
  rr_backends rb' = rr_backends rb /\
  match sel with
  | Selected b =>
      exists j, 0 <= j < N /\ at_ j = Some b /\ IsAlive st b = true /\
           forall j', 0 <= j' < j -> exists b', at_ j' = Some b' /\ IsAlive st b' = false
  | Nil => forall b, b ∈ rr_backends rb -> IsAlive st b = false
  | Panic => False
  end.
Proof.
  apply (round_robin_scans_from_counter sample_round_robin sample_store 0).
  - discriminate.
  - unfold max_int. cbn. lia.
Defined.


End BalancerFacts.

(** ** Health checker *)

Module HealthFacts.
Import Pool Balancer Health BalancerFacts.

(** C4, as stated, fails: a probe answered 204 No Content (a 2xx
    status) on a backend that is down leaves it down. *)
Lemma probe_204_leaves_backend_down :
  ~ spec_checkBackend some_balancer [down_backend] 0%nat (Response 204).
Proof.
  unfold spec_checkBackend. cbn. intros (H & _). by specialize (H eq_refl eq_refl).
Qed.

(** C4, amended. For every probe of a backend in the store: a response
    with status 200 on a backend that was down marks it up and logs
    that; a failed probe or a response with any other status on a
    backend that was up marks it down and logs a warning; a probe that
    confirms the current state changes nothing, and logs nothing when
    the probe request could be built; a probe whose request cannot be
    built marks the backend down and logs a warning whatever the
    previous state. *)
Theorem health_probe_transitions lb st backend probe :
  is_Some (st !! backend) ->
  let '(st', logs) := checkBackend lb st backend probe in
  (probe_ok probe = true -> IsAlive st backend = false ->
     IsAlive st' backend = true /\
     logs = [{| log_level := INFO; log_message := "Backend marked as up" |}]) /\
  (probe_ok probe = false -> IsAlive st backend = true ->
     IsAlive st' backend = false /\
     exists msg, logs = [{| log_level := WARN; log_message := msg |}]) /\
  (probe_ok probe = IsAlive st backend ->
     st' = st /\ (probe_sent probe = true -> logs = [])) /\
  (probe_sent probe = false ->
     IsAlive st' backend = false /\
     logs = [{| log_level := WARN;
                log_message := "Health check failed to create request" |}]) /\
  (forall b, b <> backend -> st' !! b = st !! b).
Proof.
  intros Hb. unfold checkBackend, MarkBackendDown, MarkBackendUp.
  destruct probe as [e|e|code]; cbn [probe_ok probe_sent].
  - split_and!; try done.
    + intros _ Ha. split; [by apply IsAlive_SetAlive|]. by eexists.
    + intros Ha. split; [|done]. by apply SetAlive_same.
    + intros _. split; [by apply IsAlive_SetAlive|done].
    + intros b Hne. unfold SetAlive. by rewrite list_lookup_alter_ne.
  - split_and!; try done.
    + intros _ Ha. rewrite Ha. split; [by apply IsAlive_SetAlive|]. by eexists.
    + intros Ha. rewrite <- Ha. split; [|done]. by apply SetAlive_same.
    + intros b Hne. unfold SetAlive. by rewrite list_lookup_alter_ne.
  - destruct (code =? StatusOK) eqn:E.
    + split_and!; try done.
      * intros _ Ha. rewrite Ha. split; [by apply IsAlive_SetAlive|done].
      * intros Ha. rewrite <- Ha. split; [|done]. by apply SetAlive_same.
      * intros b Hne. unfold SetAlive. by rewrite list_lookup_alter_ne.
    + split_and!; try done.
      * intros _ Ha. rewrite Ha. split; [by apply IsAlive_SetAlive|]. by eexists.
      * intros Ha. rewrite <- Ha. split; [|done]. by apply SetAlive_same.
      * intros b Hne. unfold SetAlive. by rewrite list_lookup_alter_ne.
Qed.

Lemma health_probe_transitions_witness :
  let '(st', logs) := checkBackend some_balancer [down_backend] 0%nat (Response 200) in
  (probe_ok (Response 200) = true -> IsAlive [down_backend] 0%nat = false ->
     IsAlive st' 0%nat = true /\
     logs = [{| log_level := INFO; log_message := "Backend marked as up" |}]) /\
  (probe_ok (Response 200) = false -> IsAlive [down_backend] 0%nat = true ->
     IsAlive st' 0%nat = false /\
     exists msg, logs = [{| log_level := WARN; log_message := msg |}]) /\
  (probe_ok (Response 200) = IsAlive [down_backend] 0%nat ->
     st' = [down_backend] /\ (probe_sent (Response 200) = true -> logs = [])) /\
  (probe_sent (Response 200) = false ->
     IsAlive st' 0%nat = false /\
     logs = [{| log_level := WARN;
                log_message := "Health check failed to create request" |}]) /\
  (forall b, b <> 0%nat -> st' !! b = [down_backend] !! b).
Proof.
  apply (health_probe_transitions some_balancer [down_backend] 0%nat (Response 200)).
  cbn. by eexists.
Defined.

Example health_sample :
  checkBackend some_balancer [down_backend] 0%nat (Response 200)
    = ([{| URL := "http://localhost:8082"; Alive := true; Connections := 0 |}],
       [{| log_level := INFO; log_message := "Backend marked as up" |}]) /\
  checkBackend some_balancer [down_backend] 0%nat (Response 201)
    = ([down_backend], []) /\
  checkBackend some_balancer [down_backend] 0%nat (RequestError "invalid URL escape")
    = ([down_backend],
       [{| log_level := WARN; log_message := "Health check failed to create request" |}]).
Proof. by vm_compute. Qed.


End HealthFacts.

(** ** Proxy stage and retrying proxy *)

Module ProxyFacts.
Import Pool Balancer Middleware Proxy BalancerFacts.

(** C7. For every request whose path is not whitelisted: when the load
    balancer's [NextBackend] returns nil the proxy stage logs the
    incident and answers 503 Service Unavailable, touching neither the
    breaker nor the backends and sending nothing upstream; and
    [NextBackend] does return nil, under each of the three strategies,
    when the backend list is empty or every backend's alive flag is
    false. *)
Theorem no_backend_gives_503 config whitelist g r w fuel :
  whitelisted whitelist (URL_Path r) = false ->
  (fst (NextBackend (lb g) (store g) (nano w)) = Nil ->
   exists lb' effs,
     ProxyMiddleware config whitelist g r w fuel =
       Done {| lb := lb'; breaker := breaker g; store := store g |} effs /\
     lb' = snd (NextBackend (lb g) (store g) (nano w)) /\
     effs = [Log ERROR "No available backend";
             HttpError "Service Unavailable" 503] /\
     filter (fun e => is_Upstream e = true) effs = []) /\
  ((backends (lb g) = [] \/
    forall b, b ∈ backends (lb g) -> IsAlive (store g) b = false) ->
   fst (NextBackend (lb g) (store g) (nano w)) = Nil).
Proof.
  intros Hwl. split.
  - intros Hnil. unfold ProxyMiddleware. rewrite Hwl.
    destruct (NextBackend (lb g) (store g) (nano w)) as [sel lb'].
    cbn in Hnil. subst sel. by eexists _, _.
  - intros Hdead. apply NextBackend_none_alive.
    destruct Hdead as [Hempty|Hdead]; [|done].
    intros b Hb. rewrite Hempty in Hb. by apply elem_of_nil in Hb.
Qed.

Lemma attempt_fails_error st r backend a :
  attempt_fails a = true <-> is_Some (snd (proxyRequest st r backend a)).
Proof.
  destruct a as [e|e|code [e|]]; cbn; split; try done; by eexists.
Qed.

Lemma proxyRequest_upstream st r backend a :
  (length (filter (fun e => is_Upstream e = true) (fst (proxyRequest st r backend a))) <= 1)%nat.
Proof. destruct a as [e|e|code [e|]]; vm_compute; lia. Qed.

Lemma before_attempt_upstream config i :
  filter (fun e => is_Upstream e = true) (before_attempt config i) = [].
Proof. unfold before_attempt. by destruct (0 <? i). Qed.

(** The loop from attempt [a] on: it makes the attempts [a .. n-1] for
    some [n <= RetryAttempts + 1], each but the last a failure, and
    stops before the budget is spent only on a success. *)
Lemma retry_loop_spec config st r backend upstream fuel a lastErr :
  let R := RetryAttempts config in
  R < max_int -> 0 <= a <= R + 1 -> R + 2 - a <= Z.of_nat fuel ->
  exists n effs res,
    retry_loop config st r backend upstream fuel a lastErr = Some (effs, res) /\
    a <= n <= R + 1 /\
    effs = flat_map (attempt_trace config st r backend upstream)
                    (seqZ a (n - a)) /\
    (forall i, a <= i < n - 1 -> attempt_fails (upstream i) = true) /\
    (n = a -> res = lastErr) /\
    (a < n -> res = snd (proxyRequest st r backend (upstream (n - 1)))) /\
    (n < R + 1 -> res = None).
Proof.
  intros R HR. revert a lastErr.
  induction fuel as [|fuel IH]; intros a lastErr Ha Hfuel; [lia|].
  cbn [retry_loop]. fold R.
  destruct (Z.leb_spec a R) as [Hle|Hgt].
  - destruct (proxyRequest st r backend (upstream a)) as [effs [e|]] eqn:Ep.
    + cbn [isClientError].
      rewrite wrap_int_id by (unfold int_range, min_int, max_int in *; lia).
      destruct (IH (a + 1) (Some e)) as (n & effs' & res & E & Hn & Heffs & Hfail & Hlast & Hres & Hearly);
        [lia|lia|].
      rewrite E. exists n, (before_attempt config a ++ effs ++ effs')%list, res.
      split; [done|]. split; [lia|]. split_and!.
      * replace (n - a) with (Z.succ (n - (a + 1))) by lia.
        rewrite seqZ_cons by lia. cbn [flat_map].
        replace (Z.succ a) with (a + 1) by lia.
        replace (Z.pred (Z.succ (n - (a + 1)))) with (n - (a + 1)) by lia.
        rewrite <- Heffs. unfold attempt_trace at 1. rewrite Ep. cbn.
        by rewrite <- app_assoc.
      * intros i Hi. destruct (decide (i = a)) as [->|].
        -- apply (attempt_fails_error st r backend). rewrite Ep. by eexists.
        -- apply Hfail. lia.
      * lia.
      * intros _. destruct (decide (n = a + 1)) as [->|].
        -- rewrite Hlast by done. replace (a + 1 - 1) with a by lia. by rewrite Ep.
        -- apply Hres. lia.
      * done.
    + exists (a + 1), (before_attempt config a ++ effs)%list, None.
      split; [done|]. split; [lia|]. split_and!.
      * replace (a + 1 - a) with (Z.succ 0) by lia.
        rewrite seqZ_cons by lia. cbn. unfold attempt_trace. rewrite Ep. cbn.
        by rewrite app_nil_r.
      * intros i Hi. lia.
      * lia.
      * intros _. replace (a + 1 - 1) with a by lia. by rewrite Ep.
      * done.
  - exists a, [], lastErr. split; [done|]. split; [lia|]. split_and!.
    + by rewrite Z.sub_diag.
    + intros i Hi. lia.
    + done.
    + lia.
    + lia.
Qed.

Lemma upstream_count config st r backend upstream a k :
  0 <= k ->
  (Z.of_nat (length (filter (fun e => is_Upstream e = true)
     (flat_map (attempt_trace config st r backend upstream) (seqZ a k)))) <= k).
Proof.
  intros Hk. rewrite <- (Z2Nat.id k) by done. generalize (Z.to_nat k). clear k Hk.
  intros k. revert a. induction k as [|k IH]; intros a; [done|].
  rewrite Nat2Z.inj_succ, seqZ_cons by lia. cbn [flat_map].
  rewrite filter_app, length_app. unfold attempt_trace at 1.
  rewrite filter_app, before_attempt_upstream. cbn [app].
  pose proof (proxyRequest_upstream st r backend (upstream a)).
  specialize (IH (Z.succ a)). rewrite Z.pred_succ. lia.
Qed.

(** C8. With a retry budget [0 <= RetryAttempts < max_int] the retrying
    proxy returns, after some number [n] of attempts between 1 and
    [RetryAttempts + 1]: the attempts numbered [0 .. n-1], in order,
    each retry preceded by its back-off sleep; it sends upstream at most
    [n] times; every attempt but the last failed; it stops before the
    budget is exhausted only on a success; the client-error test is
    constantly false, so when every attempt fails all
    [RetryAttempts + 1] are made and the error returned is the one of
    the last attempt. *)
Theorem retry_budget_and_last_error config r backend upstream st :
  0 <= RetryAttempts config < max_int ->
  let R := RetryAttempts config in
  let st1 := IncrementConnections st backend in
  exists n effs res,
    proxyRequestWithRetry config r backend upstream (retry_fuel config) st =
      Some (DecrementConnections st1 backend, effs, res) /\
    1 <= n <= R + 1 /\
    effs = flat_map (attempt_trace config st1 r backend upstream) (seqZ 0 n) /\
    Z.of_nat (length (filter (fun e => is_Upstream e = true) effs)) <= n /\
    (forall i, 0 <= i < n - 1 -> attempt_fails (upstream i) = true) /\
    res = snd (proxyRequest st1 r backend (upstream (n - 1))) /\
    (n < R + 1 -> res = None) /\
    (forall e, isClientError e = false) /\
    ((forall i, 0 <= i <= R -> attempt_fails (upstream i) = true) ->
       n = R + 1 /\ is_Some res /\
       res = snd (proxyRequest st1 r backend (upstream R))).
Proof.
  intros HR R st1.
  destruct (retry_loop_spec config st1 r backend upstream (retry_fuel config) 0 None)
    as (n & effs & res & E & Hn & Heffs & Hfail & Hlast & Hres & Hearly).
  { lia. } { fold R. lia. } { unfold retry_fuel. lia. }
  fold R in Hn, Hearly.
  assert (Hn1 : 1 <= n).
  { destruct (decide (n = 0)) as [->|]; [|lia].
    unfold retry_fuel in E. replace (Z.to_nat (RetryAttempts config + 2))
      with (S (Z.to_nat (RetryAttempts config + 1))) in E by lia.
    cbn [retry_loop] in E.
    destruct (Z.leb_spec 0 (RetryAttempts config)); [|lia].
    assert (Hin : (before_attempt config 0 ++ fst (proxyRequest st1 r backend (upstream 0)) <> [])%list).
    { destruct (upstream 0) as [e|e|code [e|]]; cbn; done. }
    destruct (proxyRequest st1 r backend (upstream 0)) as [effs0 [e|]]; cbn [isClientError] in E.
    - destruct (retry_loop _ _ _ _ _ _ _ _) as [[effs' res']|]; [|done].
      injection E as <- <-. cbn in Heffs, Hin. by destruct effs0.
    - injection E as <- <-. cbn in Heffs, Hin. by destruct effs0. }
  exists n, effs, res. unfold proxyRequestWithRetry. fold st1. rewrite E.
  rewrite Z.sub_0_r in Heffs.
  split; [done|]. split; [lia|]. split; [done|]. split_and!.
  - rewrite Heffs. apply upstream_count. lia.
  - done.
  - apply Hres. lia.
  - done.
  - done.
  - intros Hall.
    assert (HnR : n = R + 1).
    { destruct (decide (n < R + 1)) as [Hlt|]; [|lia].
      specialize (Hearly Hlt). rewrite Hres in Hearly by lia.
      assert (Hf : attempt_fails (upstream (n - 1)) = true) by (apply Hall; lia).
      apply (attempt_fails_error st1 r backend) in Hf. rewrite Hearly in Hf.
      by destruct Hf. }
    split; [done|]. rewrite Hres by lia. subst n.
    replace (R + 1 - 1) with R by lia. split; [|done].
    apply attempt_fails_error, Hall. lia.
Qed.

Lemma no_backend_gives_503_witness :
  (fst (NextBackend (lb dead_gateway) (store dead_gateway) (nano sample_world)) = Nil ->
   exists lb' effs,
     ProxyMiddleware sample_config sample_whitelist dead_gateway sample_request
                     sample_world (retry_fuel sample_config) =
       Done {| lb := lb'; breaker := breaker dead_gateway; store := store dead_gateway |} effs /\
     lb' = snd (NextBackend (lb dead_gateway) (store dead_gateway) (nano sample_world)) /\
     effs = [Log ERROR "No available backend";
             HttpError "Service Unavailable" 503] /\
     filter (fun e => is_Upstream e = true) effs = []) /\
  ((backends (lb dead_gateway) = [] \/
    forall b, b ∈ backends (lb dead_gateway) -> IsAlive (store dead_gateway) b = false) ->
   fst (NextBackend (lb dead_gateway) (store dead_gateway) (nano sample_world)) = Nil).
Proof.
  apply (no_backend_gives_503 sample_config sample_whitelist dead_gateway
           sample_request sample_world (retry_fuel sample_config)).
  by vm_compute.
Defined.

(** With every attempt refused, the proxy stage tries four times on the
    selected backend, sleeping 100, 200 and 300 ms in between, answers
    502 each time, and records one failure in the breaker. *)
Example all_attempts_refused :
  exists g effs,
    ProxyMiddleware sample_config sample_whitelist live_gateway sample_request
                    sample_world (retry_fuel sample_config) = Done g effs /\
    filter (fun e => is_Upstream e = true) effs =
      [Upstream 2%nat "http://localhost:8084/api/v1/orders?page=2";
       Upstream 2%nat "http://localhost:8084/api/v1/orders?page=2";
       Upstream 2%nat "http://localhost:8084/api/v1/orders?page=2";
       Upstream 2%nat "http://localhost:8084/api/v1/orders?page=2"] /\
    omap (fun e => match e with Sleep d => Some d | _ => None end) effs =
      [100000000; 200000000; 300000000] /\
    store g = sample_store /\
    Breaker.failures <$> breaker g = Some 1.
Proof. eexists _, _. split; [by vm_compute|]. by vm_compute. Qed.

Lemma retry_budget_and_last_error_witness :
  let config := sample_config in
  let r := sample_request in
  let R := RetryAttempts config in
  let st1 := IncrementConnections sample_store 2%nat in
  exists n effs res,
    proxyRequestWithRetry config r 2%nat refusing (retry_fuel config) sample_store =
      Some (DecrementConnections st1 2%nat, effs, res) /\
    1 <= n <= R + 1 /\
    effs = flat_map (attempt_trace config st1 r 2%nat refusing) (seqZ 0 n) /\
    Z.of_nat (length (filter (fun e => is_Upstream e = true) effs)) <= n /\
    (forall i, 0 <= i < n - 1 -> attempt_fails (refusing i) = true) /\
    res = snd (proxyRequest st1 r 2%nat (refusing (n - 1))) /\
    (n < R + 1 -> res = None) /\
    (forall e, isClientError e = false) /\
    ((forall i, 0 <= i <= R -> attempt_fails (refusing i) = true) ->
       n = R + 1 /\ is_Some res /\
       res = snd (proxyRequest st1 r 2%nat (refusing R))).
Proof.
  apply (retry_budget_and_last_error sample_config sample_request 2%nat refusing
           sample_store).
  unfold max_int. cbn. lia.
Defined.


End ProxyFacts.

(** ** Client-IP resolution *)

Module MiddlewareFacts.
Import GoStrings Middleware.

Lemma append_cons c a b : String c a +:+ b = String c (a +:+ b).
Proof. reflexivity. Qed.

Lemma append_nil b : EmptyString +:+ b = b.
Proof. reflexivity. Qed.

Lemma Split_first s sep :
  exists entry pieces rest,
    Split s sep = entry :: pieces /\
    s = (entry +:+ rest) /\
    IndexByte entry sep = None /\
    (rest = EmptyString /\ pieces = [] \/ exists rest', rest = String sep rest').
Proof.
  induction s as [|c s IH]; cbn [Split].
  - exists EmptyString, [], EmptyString. split_and!; try done. by left.
  - destruct (Ascii.eqb_spec c sep) as [->|Hne].
    + exists EmptyString, (Split s sep), (String sep s). split_and!; try done.
      right. by eexists.
    + destruct IH as (entry & pieces & rest & -> & -> & Hidx & Hrest).
      exists (String c entry), pieces, rest. split_and!; try done.
      cbn. destruct (Ascii.eqb_spec c sep); [done|]. by rewrite Hidx.
Qed.

Lemma TrimLeftSpace_spec s :
  exists lead, s = (lead +:+ TrimLeftSpace s) /\ all_space lead = true /\
          forall c, first_byte (TrimLeftSpace s) = Some c -> is_space c = false.
Proof.
  induction s as [|c s IH]; cbn [TrimLeftSpace].
  - by exists EmptyString.
  - destruct (is_space c) eqn:E.
    + destruct IH as (lead & Hs & Hl & Hf). exists (String c lead).
      split_and!; try done.
      * rewrite append_cons. by f_equal.
      * cbn. by rewrite E, Hl.
    + exists EmptyString. split_and!; try done. cbn. by intros ? [= <-].
Qed.

Lemma TrimRightSpace_spec s :
  exists trail, s = (TrimRightSpace s +:+ trail) /\ all_space trail = true /\
           (forall c, last_byte (TrimRightSpace s) = Some c -> is_space c = false) /\
           (forall c, first_byte s = Some c -> is_space c = false ->
                 first_byte (TrimRightSpace s) = Some c).
Proof.
  induction s as [|c s IH]; cbn [TrimRightSpace].
  - exists EmptyString. by split_and!.
  - destruct IH as (trail & Hs & Ht & Hl & _).
    destruct (TrimRightSpace s) as [|d t] eqn:E.
    + destruct (is_space c) eqn:Ec.
      * exists (String c trail). cbn in Hs. subst s. split_and!; try done.
        -- cbn. by rewrite Ec, Ht.
        -- cbn. intros ? [= <-]. congruence.
      * exists trail. cbn in Hs. subst s. split_and!; try done.
        cbn. by intros ? [= <-].
    + exists trail. split_and!; try done.
      rewrite append_cons. by f_equal.
Qed.

(** [TrimSpace] removes white space, and only white space, from both
    ends. *)
Lemma TrimSpace_spec s :
  exists lead trail,
    s = (lead +:+ TrimSpace s +:+ trail) /\
    all_space lead = true /\ all_space trail = true /\ trimmed (TrimSpace s).
Proof.
  destruct (TrimLeftSpace_spec s) as (lead & Hs & Hl & Hf).
  destruct (TrimRightSpace_spec (TrimLeftSpace s)) as (trail & Hs' & Ht & Hlast & Hfirst).
  exists lead, trail. unfold TrimSpace, trimmed. split_and!; try done.
  - by rewrite <- Hs'.
  - intros c Hc. destruct (TrimLeftSpace s) as [|d t] eqn:E; [done|].
    specialize (Hf d eq_refl). specialize (Hfirst d eq_refl Hf).
    rewrite Hfirst in Hc. by injection Hc as <-.
Qed.

Lemma LastIndexByte_app host port c :
  IndexByte port c = None ->
  LastIndexByte (host +:+ String c port) c = Some (String.length host).
Proof.
  intros Hport.
  assert (Hlast : LastIndexByte port c = None).
  { induction port as [|d port IH]; [done|]. cbn in *.
    destruct (Ascii.eqb d c); [done|].
    destruct (IndexByte port c); [done|]. by rewrite IH. }
  induction host as [|d host IH].
  - rewrite append_nil. cbn. by rewrite Hlast, Ascii.eqb_refl.
  - rewrite append_cons. cbn. by rewrite IH.
Qed.

Lemma IndexByte_app_None a b c :
  IndexByte a c = None -> IndexByte b c = None -> IndexByte (a +:+ b) c = None.
Proof.
  intros Ha Hb. induction a as [|d a IH]; [done|].
  rewrite append_cons. cbn in *.
  destruct (Ascii.eqb d c); [done|].
  destruct (IndexByte a c); [done|]. by rewrite IH.
Qed.

Lemma substring_all s : substring 0 (String.length s) s = s.
Proof. induction s as [|c s IH]; [done|]. cbn. by rewrite IH. Qed.

Lemma substring_prefix a b : substring 0 (String.length a) (a +:+ b) = a.
Proof.
  induction a as [|c a IH].
  - rewrite append_nil. cbn. by destruct b.
  - rewrite append_cons. cbn. by rewrite IH.
Qed.

Lemma substring_suffix a b :
  substring (String.length a) (String.length b) (a +:+ b) = b.
Proof.
  induction a as [|c a IH].
  - rewrite append_nil. apply substring_all.
  - rewrite append_cons. cbn. done.
Qed.

Lemma length_append a b :
  String.length (a +:+ b) = (String.length a + String.length b)%nat.
Proof.
  induction a as [|c a IH]; [done|]. rewrite append_cons. cbn. by rewrite IH.
Qed.

Lemma append_assoc_one a c b :
  (a +:+ String c EmptyString) +:+ b = a +:+ String c b.
Proof.
  induction a as [|d a IH]; [done|]. rewrite !append_cons. by rewrite IH.
Qed.

(** An address of the form host:port, neither part containing a colon
    or a bracket, splits into that host and that port. *)
Lemma SplitHostPort_plain host port :
  IndexByte host ":" = None -> IndexByte host "[" = None -> IndexByte host "]" = None ->
  IndexByte port ":" = None -> IndexByte port "[" = None -> IndexByte port "]" = None ->
  SplitHostPort (host +:+ String ":" port) = Some (host, port).
Proof.
  intros Hh1 Hh2 Hh3 Hp1 Hp2 Hp3. unfold SplitHostPort.
  rewrite LastIndexByte_app by done.
  assert (Hb : match host +:+ String ":" port with
               | String "[" _ => true | _ => false end = false).
  { destruct host as [|c host]; [done|]. rewrite append_cons. cbn in Hh2.
    destruct (Ascii.eqb_spec c "[") as [->|Hne]; [done|].
    destruct c as [[] [] [] [] [] [] [] []]; done. }
  rewrite Hb. unfold slice, slice_from.
  rewrite Nat.sub_0_r, substring_prefix, Hh1, Nat.sub_0_r, substring_all.
  rewrite !IndexByte_app_None; try done.
  - f_equal. f_equal.
    rewrite <- (append_assoc_one host ":" port).
    rewrite (length_append (host +:+ String ":" EmptyString) port).
    replace (String.length host + 1)%nat
      with (String.length (host +:+ String ":" EmptyString))
      by (rewrite length_append; cbn; lia).
    replace (String.length (host +:+ String ":" EmptyString) + String.length port
             - String.length (host +:+ String ":" EmptyString))%nat
      with (String.length port) by lia.
    apply substring_suffix.
  - cbn. by rewrite Hp3.
  - cbn. by rewrite Hp2.
Qed.

(** C5, as stated, fails: when the first entry of X-Forwarded-For is
    empty the code answers the empty string, not the first non-empty
    entry. *)
Lemma xff_empty_first_entry :
  getClientIP leading_comma_request = EmptyString /\
  spec_clientIP leading_comma_request = "10.0.0.1"%string /\
  getClientIP leading_comma_request <> spec_clientIP leading_comma_request.
Proof. vm_compute. by split_and!. Qed.

(** C5, amended. When the X-Forwarded-For header is present and not
    empty, the resolved client IP is its first comma-separated entry
    with the surrounding white space removed, whether or not anything
    is left; when it is absent or empty, the client IP is the X-Real-IP
    value if that is not empty, and otherwise the peer address: the
    host part when [net.SplitHostPort] accepts the address (as it does
    for host:port), the address itself when it does not (as for an
    address with no colon). Whenever the first entry of
    X-Forwarded-For is not blank, or the header is absent, this is the
    policy the specification words. *)
Theorem client_ip_resolution r :
  let xff := Header_Get (Header r) "X-Forwarded-For" in
  let xri := Header_Get (Header r) "X-Real-IP" in
  (xff <> EmptyString ->
     exists entry rest lead trail,
       xff = (entry +:+ rest) /\ IndexByte entry "," = None /\
       (rest = EmptyString \/ exists rest', rest = String "," rest') /\
       entry = (lead +:+ getClientIP r +:+ trail) /\
       all_space lead = true /\ all_space trail = true /\
       trimmed (getClientIP r) /\
       (getClientIP r <> EmptyString -> getClientIP r = spec_clientIP r)) /\
  (xff = EmptyString -> xri <> EmptyString ->
     getClientIP r = xri /\ spec_clientIP r = xri) /\
  (xff = EmptyString -> xri = EmptyString ->
     getClientIP r = peer_host (RemoteAddr r) /\
     spec_clientIP r = peer_host (RemoteAddr r)) /\
  (forall host port,
     IndexByte host ":" = None -> IndexByte host "[" = None ->
     IndexByte host "]" = None -> IndexByte port ":" = None ->
     IndexByte port "[" = None -> IndexByte port "]" = None ->
     peer_host (host +:+ String ":" port) = host) /\
  (forall addr, IndexByte addr ":" = None -> peer_host addr = addr) /\
  (forall addr, match SplitHostPort addr with
                | Some (host, _) => peer_host addr = host
                | None => peer_host addr = addr
                end).
Proof.
  intros xff xri. split_and!.
  - intros Hxff. unfold getClientIP, spec_clientIP. fold xff xri.
    destruct (String.eqb_spec xff EmptyString) as [|_]; [done|]. cbn [negb].
    destruct (Split_first xff ",") as (entry & pieces & rest & -> & Hx & Hidx & Hrest).
    destruct (TrimSpace_spec entry) as (lead & trail & He & Hl & Ht & Htr).
    exists entry, rest, lead, trail. split_and!; try done.
    + destruct Hrest as [[-> _]|Hrest]; [by left|by right].
    + intros Hne. cbn [fmap list_fmap List.find].
      destruct (String.eqb_spec (TrimSpace entry) EmptyString); done.
  - intros Hxff Hxri. unfold getClientIP, spec_clientIP. fold xff xri.
    rewrite Hxff. cbn.
    destruct (String.eqb_spec xri EmptyString); done.
  - intros Hxff Hxri. unfold getClientIP, spec_clientIP. fold xff xri.
    rewrite Hxff, Hxri. done.
  - intros host port ? ? ? ? ? ?. unfold peer_host.
    by rewrite SplitHostPort_plain.
  - intros addr Ha. unfold peer_host, SplitHostPort.
    assert (Hlast : LastIndexByte addr ":" = None).
    { induction addr as [|d addr IH]; [done|]. cbn in *.
      destruct (Ascii.eqb d ":"); [done|].
      destruct (IndexByte addr ":"); [done|]. by rewrite IH. }
    by rewrite Hlast.
  - intros addr. unfold peer_host. by destruct (SplitHostPort addr) as [[host port]|].
Qed.

Example client_ip_samples :
  getClientIP (request_with {[ "X-Forwarded-For"%string := [" 203.0.113.9 , 10.0.0.1"%string] ]}
                            "192.0.2.7:4711") = "203.0.113.9"%string /\
  getClientIP (request_with {[ "X-Forwarded-For"%string := ["   "%string];
                               "X-Real-Ip"%string := ["198.51.100.4"%string] ]}
                            "192.0.2.7:4711") = EmptyString /\
  getClientIP (request_with {[ "X-Real-Ip"%string := ["198.51.100.4"%string] ]}
                            "192.0.2.7:4711") = "198.51.100.4"%string /\
  getClientIP (request_with ∅ "192.0.2.7:4711") = "192.0.2.7"%string /\
  getClientIP (request_with ∅ "[2001:db8::1]:4711") = "2001:db8::1"%string /\
  getClientIP (request_with ∅ "2001:db8::1") = "2001:db8::1"%string /\
  getClientIP (request_with ∅ "pipe") = "pipe"%string.
Proof. by vm_compute. Qed.


End MiddlewareFacts.

(** ** Circuit breaker: what the code shows beyond the state table *)

Module BreakerMore.
Import Breaker BreakerRuns BreakerFacts.

(** X1. Whatever the state, the counters and the clock, one critical
    section of the breaker only ever makes one of seven moves: it never
    goes from Closed to HalfOpen nor from Open straight to Closed; the
    configuration is never touched; the check at the gate never changes
    the failure count or the time of the last failure, and leaves
    Closed and HalfOpen as they are; recording an outcome, success or
    failure, always leaves the breaker out of HalfOpen, which is only
    entered from Open by a check at the gate, with the probe counter
    at 0. *)
Theorem breaker_moves cb ev :
  let cb' := fst (step cb ev) in
  move (state cb) (state cb') = true /\
  config cb' = config cb /\
  match ev with
  | EvBefore _ =>
      failures cb' = failures cb /\ lastFailTime cb' = lastFailTime cb /\
      (state cb <> StateOpen -> state cb' = state cb)
  | EvAfter err _ => state cb' <> StateHalfOpen
  end /\
  (state cb' = StateHalfOpen -> state cb <> StateHalfOpen ->
     state cb = StateOpen /\ exists now, ev = EvBefore now /\ requests cb' = 0).
Proof.
  break_cb cb. unfold step, beforeRequest, afterRequest, onFailure, onSuccess.
  destruct st, ev as [now|[e|] now]; cbn; branch; cbn;
    split_and!; try done; try (intros _ _; split; [done|by eexists]).
Qed.

Lemma streak_step_closed cb ev :
  cfg_ok (config cb) ->
  state cb = StateClosed -> 0 <= failures cb ->
  streak_step (failures cb) ev < Z.max 1 (Threshold (config cb)) ->
  state (fst (step cb ev)) = StateClosed /\
  failures (fst (step cb ev)) = streak_step (failures cb) ev.
Proof.
  intros (HT & _ & _) Hs Hf Hlt. break_cb cb. subst st.
  unfold int_range, min_int, max_int in HT.
  unfold step, beforeRequest, afterRequest, onFailure, onSuccess.
  destruct ev as [now|[e|] now]; cbn in *; try done.
  rewrite wrap_int_id by (unfold int_range, min_int, max_int; lia).
  destruct (Z.leb_spec (Threshold cfg) (fl + 1)); cbn; [lia|done].
Qed.

Lemma streak_step_nonneg n ev : 0 <= n -> 0 <= streak_step n ev.
Proof. destruct ev as [now|[e|] now]; cbn; lia. Qed.

Lemma peak_from_ge n evs : n <= peak_from n evs.
Proof. destruct evs; cbn; lia. Qed.

Lemma closed_while_streak_short cb evs :
  cfg_ok (config cb) ->
  state cb = StateClosed -> 0 <= failures cb ->
  peak_from (failures cb) evs < Z.max 1 (Threshold (config cb)) ->
  state (run cb evs) = StateClosed /\
  failures (run cb evs) = streak_from (failures cb) evs /\
  config (run cb evs) = config cb.
Proof.
  revert cb. induction evs as [|ev evs IH]; intros cb Hc Hs Hf Hpeak; [done|].
  cbn [peak_from] in Hpeak.
  pose proof (peak_from_ge (streak_step (failures cb) ev) evs) as Hge.
  destruct (streak_step_closed cb ev Hc Hs Hf) as [Hs1 Hf1]; [lia|].
  change (run cb (ev :: evs)) with (run (fst (step cb ev)) evs).
  change (streak_from (failures cb) (ev :: evs))
    with (streak_from (streak_step (failures cb) ev) evs).
  rewrite <- Hf1. rewrite <- (step_config cb ev).
  apply IH.
  - by rewrite step_config.
  - done.
  - rewrite Hf1. by apply streak_step_nonneg.
  - rewrite Hf1, step_config. lia.
Qed.

Lemma streak_from_nonneg n evs : 0 <= n -> 0 <= streak_from n evs.
Proof.
  unfold streak_from. revert n. induction evs as [|ev evs IH]; intros n Hn; [done|].
  cbn. apply IH. by apply streak_step_nonneg.
Qed.

Lemma streak_le_peak n evs : streak_from n evs <= peak_from n evs.
Proof.
  unfold streak_from. revert n. induction evs as [|ev evs IH]; intros n; cbn; [lia|].
  specialize (IH (streak_step n ev)). lia.
Qed.

Lemma failure_in_closed cb e now :
  cfg_ok (config cb) -> state cb = StateClosed ->
  0 <= failures cb < Z.max 1 (Threshold (config cb)) ->
  let cb' := fst (step cb (EvAfter (Some e) now)) in
  (failures cb = Z.max 1 (Threshold (config cb)) - 1 ->
     state cb' = StateOpen /\ lastFailTime cb' = now) /\
  (failures cb < Z.max 1 (Threshold (config cb)) - 1 ->
     state cb' = StateClosed /\ failures cb' = failures cb + 1).
Proof.
  intros (HT & _ & _) Hs Hf. break_cb cb. subst st.
  unfold int_range, min_int, max_int in HT.
  unfold step, beforeRequest, afterRequest, onFailure, onSuccess. cbn.
  rewrite wrap_int_id by (unfold int_range, min_int, max_int; lia).
  destruct (Z.leb_spec (Threshold cfg) (fl + 1)); cbn; split; intros; try done; lia.
Qed.

(** X2. After [Reset], whatever the breaker went through before, the
    circuit opens at the first moment that [max(1, Threshold)] failures
    have been recorded in a row, and not before: as long as every run
    of consecutive failures is shorter, the breaker stays Closed, its
    failure count being the length of the current run (a success sets
    it back to 0) and every call being let in; the failure that
    completes such a run opens the circuit and stamps its time. A
    threshold of zero or less therefore opens at the first failure. *)
Theorem opens_after_consecutive_failures cb0 cb evs e now :
  int_range (Threshold (config cb0)) -> int_range (Timeout (config cb0)) ->
  int_range (MaxRequests (config cb0)) ->
  Reset (Some cb0) = Some cb ->
  let T := Z.max 1 (Threshold (config cb0)) in
  peak_from 0 evs < T ->
  let s := run cb evs in
  state s = StateClosed /\
  failures s = streak_from 0 evs /\
  (forall t, beforeRequest s t = (s, None)) /\
  let s' := fst (step s (EvAfter (Some e) now)) in
  (streak_from 0 evs = T - 1 -> state s' = StateOpen /\ lastFailTime s' = now) /\
  (streak_from 0 evs < T - 1 ->
     state s' = StateClosed /\ failures s' = streak_from 0 evs + 1).
Proof.
  intros HT HTo HM Hreset T Hpeak s. injection Hreset as Hcb.
  assert (Hc : cfg_ok (config cb)) by (by subst cb).
  assert (Hcfg0 : config cb = config cb0) by (by subst cb).
  assert (Hst0 : state cb = StateClosed) by (by subst cb).
  assert (Hf0 : failures cb = 0) by (by subst cb).
  destruct (closed_while_streak_short cb evs Hc Hst0) as (Hs & Hf & Hcfg).
  { lia. } { rewrite Hf0, Hcfg0. done. }
  fold s in Hs, Hf, Hcfg. rewrite Hf0 in Hf.
  split; [done|]. split; [done|]. split.
  { intros t. unfold beforeRequest. by rewrite Hs. }
  pose proof (streak_from_nonneg 0 evs ltac:(lia)) as Hnn.
  pose proof (streak_le_peak 0 evs) as Hle.
  destruct (failure_in_closed s e now) as [H1 H2].
  - by rewrite Hcfg.
  - done.
  - rewrite Hf, Hcfg, Hcfg0. fold T. lia.
  - rewrite Hf, Hcfg, Hcfg0 in H1, H2. fold T in H1, H2. by split.
Qed.

(** X3. A call on an open breaker: within the cool-down
    ([t0 - lastFailTime <= Timeout]) it is refused with
    [ErrCircuitOpen], the wrapped function is not run and the breaker
    is left as it was; once the cool-down has passed the function is
    run as a probe and its result returned; a probe that succeeds
    closes the circuit with both counters at 0, a probe that fails
    reopens it and restarts the cool-down from the time of that
    failure, so that calls are refused again until [Timeout] after
    it. *)
Theorem call_on_open_breaker {S : Type} b (fn : S -> S * option error) x t0 t1 :
  state b = StateOpen ->
  clock_range t0 -> clock_range t1 -> clock_range (lastFailTime b) ->
  let '(b', x', err) := Call (Some b) fn x t0 t1 in
  (t0 - lastFailTime b <= Timeout (config b) ->
     b' = Some b /\ x' = x /\ err = Some ErrCircuitOpen) /\
  (t0 - lastFailTime b > Timeout (config b) ->
     (x', err) = fn x /\
     exists c, b' = Some c /\ requests c = 0 /\ config c = config b /\
       match err with
       | None => state c = StateClosed /\ failures c = 0
       | Some _ =>
           state c = StateOpen /\ lastFailTime c = t1 /\
           forall t, clock_range t -> t - t1 <= Timeout (config b) ->
             beforeRequest c t = (c, Some ErrCircuitOpen)
       end).
Proof.
  intros Hs Ht0 Ht1 Hlf. unfold Call, beforeRequest. rewrite Hs.
  rewrite time_Sub_exact by done.
  destruct (Z.ltb_spec (Timeout (config b)) (t0 - lastFailTime b)) as [Hgt|Hle].
  - destruct (fn x) as [x' [e|]] eqn:Efn.
    + split; [lia|]. intros _. split; [done|].
      eexists. split; [done|]. break_cb b. subst st.
      unfold afterRequest, onFailure. cbn. split_and!; try done.
      intros t Ht Hle. unfold beforeRequest. cbn.
      rewrite time_Sub_exact by done.
      destruct (Z.ltb_spec (Timeout cfg) (t - t1)); [lia|done].
    + split; [lia|]. intros _. split; [done|].
      eexists. split; [done|]. break_cb b. subst st. by cbn.
  - split; [done|]. lia.
Qed.

Lemma call_on_open_breaker_witness :
  let fn := fun u : unit => (u, @None error) in
  let '(b', x', err) := Call (Some open_breaker) fn tt (64 * second) (65 * second) in
  (64 * second - lastFailTime open_breaker <= Timeout (config open_breaker) ->
     b' = Some open_breaker /\ x' = tt /\ err = Some ErrCircuitOpen) /\
  (64 * second - lastFailTime open_breaker > Timeout (config open_breaker) ->
     (x', err) = fn tt /\
     exists c, b' = Some c /\ requests c = 0 /\ config c = config open_breaker /\
       match err with
       | None => state c = StateClosed /\ failures c = 0
       | Some _ =>
           state c = StateOpen /\ lastFailTime c = 65 * second /\
           forall t, clock_range t -> t - 65 * second <= Timeout (config open_breaker) ->
             beforeRequest c t = (c, Some ErrCircuitOpen)
       end).
Proof.
  apply (call_on_open_breaker open_breaker (fun u : unit => (u, @None error)) tt
           (64 * second) (65 * second)).
  - reflexivity.
  - unfold clock_range, max_int, second. lia.
  - unfold clock_range, max_int, second. lia.
  - unfold clock_range, max_int. cbn. unfold second. lia.
Defined.

Lemma opens_after_consecutive_failures_witness :
  let cb := reset_breaker in
  let evs := interrupted_failures in
  let e := ErrOther "connection refused" in
  let now := 6 * second in
  let T := Z.max 1 (Threshold (config open_breaker)) in
  let s := run cb evs in
  state s = StateClosed /\
  failures s = streak_from 0 evs /\
  (forall t, beforeRequest s t = (s, None)) /\
  let s' := fst (step s (EvAfter (Some e) now)) in
  (streak_from 0 evs = T - 1 -> state s' = StateOpen /\ lastFailTime s' = now) /\
  (streak_from 0 evs < T - 1 ->
     state s' = StateClosed /\ failures s' = streak_from 0 evs + 1).
Proof.
  apply (opens_after_consecutive_failures open_breaker reset_breaker
           interrupted_failures (ErrOther "connection refused") (6 * second)).
  - unfold int_range, min_int, max_int. cbn. lia.
  - unfold int_range, min_int, max_int. cbn. unfold second. lia.
  - unfold int_range, min_int, max_int. cbn. lia.
  - reflexivity.
  - by vm_compute.
Defined.


End BreakerMore.

(** ** Token-bucket rate limiter: bursts, rate and garbage collection *)

Module LimiterMore.
Import Limiter LimiterRuns LimiterFacts.
















Lemma alike_mono rl1 rl2 c c' : c <= c' -> alike rl1 rl2 c -> alike rl1 rl2 c'.
Proof.
  intros Hc (Hr & Hb & Hp & Hi1 & Hi2 & Ha). split_and!; try done.
  - intros k b E. eapply bucket_ok_mono; [done|]. by apply Hi1 with k.
  - intros k b E. eapply bucket_ok_mono; [done|]. by apply Hi2 with k.
  - intros k c'' Hc''. apply Ha. lia.
Qed.

















End LimiterMore.

(** ** LRU+TTL cache: the list of entries a client observes *)

Module CacheMore.
Import Cache CacheView CacheFacts.

Lemma omap_ext_in {A B} (f g : A -> option B) (l : list A) :
  (forall x, x ∈ l -> f x = g x) -> omap f l = omap g l.
Proof.
  induction l as [|x l IH]; intros H; [done|]. cbn.
  rewrite (H x) by apply list_elem_of_here.
  rewrite IH; [done|]. intros y Hy. apply H. by apply list_elem_of_further.
Qed.

Lemma filter_ext_in {A} (P Q : A -> Prop)
    `{!forall x, Decision (P x)} `{!forall x, Decision (Q x)} (l : list A) :
  (forall x, x ∈ l -> P x <-> Q x) -> filter P l = filter Q l.
Proof.
  induction l as [|x l IH]; intros Hpq; [done|].
  assert (Hl : filter P l = filter Q l).
  { apply IH. intros y Hy. apply Hpq. by apply list_elem_of_further. }
  pose proof (Hpq x (list_elem_of_here x l)) as Hx.
  destruct (decide (P x)) as [HP|HP].
  - rewrite !filter_cons_True by tauto. by rewrite Hl.
  - rewrite !filter_cons_False by tauto. done.
Qed.

Lemma filter_all {A} (P : A -> Prop) `{!forall x, Decision (P x)} (l : list A) :
  (forall x, x ∈ l -> P x) -> filter P l = l.
Proof.
  induction l as [|x l IH]; intros Hp; [done|].
  rewrite filter_cons_True by (apply Hp, list_elem_of_here).
  rewrite IH; [done|]. intros y Hy. apply Hp. by apply list_elem_of_further.
Qed.

Lemma MoveToFront_eq l p :
  NoDup l -> p ∈ l -> list_MoveToFront l p = p :: list_Remove l p.
Proof.
  intros Hnd Hp. unfold list_MoveToFront. rewrite decide_True by done.
  destruct (decide (head l = Some p)) as [Hh|]; [|done].
  destruct l as [|q l]; [done|]. cbn in Hh. injection Hh as ->.
  apply NoDup_cons in Hnd as [Hq _]. unfold list_Remove.
  rewrite filter_cons_False by (intros H; by apply H).
  rewrite filter_all; [done|]. intros x Hx ->. done.
Qed.

Lemma Remove_last l p :
  NoDup l -> last l = Some p -> list_Remove l p = removelast l.
Proof.
  intros Hnd Hl. apply last_Some in Hl as [l0 ->].
  apply NoDup_app in Hnd as (_ & Hd & _).
  unfold list_Remove. rewrite filter_app, removelast_last.
  rewrite filter_cons_False by (intros H; by apply H).
  rewrite filter_nil, app_nil_r. apply filter_all.
  intros x Hx ->. apply (Hd p Hx). apply list_elem_of_here.
Qed.

(** Unlinking an element takes its entry, and no other, out of the
    sequence. *)
Lemma entries_Remove c p e :
  linked c -> p ∈ evictList c -> elems c !! p = Some e ->
  omap (fun q => elems c !! q) (list_Remove (evictList c) p)
  = lru_remove (entries c) (key e).
Proof.
  intros [Hnd Hl Hi] Hp He. unfold entries, lru_remove, list_Remove.
  destruct (Hl p Hp) as (e' & He' & Hkp). rewrite He in He'. injection He' as <-.
  assert (H : forall q, q ∈ evictList c ->
            exists eq, elems c !! q = Some eq /\ (key eq = key e <-> q = p)).
  { intros q Hq. destruct (Hl q Hq) as (eq & Heq & Hkq). exists eq. split; [done|].
    split.
    - intros Hk. rewrite Hk in Hkq. congruence.
    - intros ->. congruence. }
  clear Hnd Hl Hi Hp Hkp.
  induction (evictList c) as [|q l IH]; [done|].
  destruct (H q (list_elem_of_here q l)) as (eq & Heq & Hiff).
  assert (IH' := IH (fun x Hx => H x (list_elem_of_further _ _ _ Hx))).
  cbn [omap list_omap]. rewrite Heq.
  destruct (decide (q = p)) as [->|Hne].
  - rewrite filter_cons_False by (intros Hx; by apply Hx).
    rewrite filter_cons_False by (intros Hx; apply Hx; by apply Hiff).
    exact IH'.
  - rewrite filter_cons_True by done.
    rewrite filter_cons_True by (intros Hx; by apply Hne, Hiff).
    cbn [omap list_omap]. rewrite Heq. by rewrite IH'.
Qed.

(** Looking a key up in the index is looking it up in the sequence. *)
Lemma lru_find_entries c k :
  linked c -> lru_find (entries c) k = items c !! k ≫= (fun p => elems c !! p).
Proof.
  intros [Hnd Hl Hi]. unfold lru_find.
  destruct (List.find _ (entries c)) as [x|] eqn:Ef.
  - apply find_some in Ef as [Hin Hk]. apply bool_decide_eq_true in Hk.
    apply list_elem_of_In, list_elem_of_omap in Hin as (q & Hq & Hx).
    destruct (Hl q Hq) as (e & He & Hke). rewrite Hx in He. injection He as <-.
    rewrite Hk in Hke. rewrite Hke. cbn. by rewrite Hx.
  - destruct (items c !! k) as [p|] eqn:Ek; [|done]. cbn.
    destruct (Hi k p Ek) as (Hp & e & He & Hke).
    assert (Hin : In e (entries c)).
    { apply list_elem_of_In, list_elem_of_omap. by exists p. }
    pose proof (find_none _ _ Ef e Hin) as Hf. cbn in Hf.
    apply bool_decide_eq_false in Hf. done.
Qed.

Lemma Get_result c k now :
  linked c -> snd (Get (Some c) k now) = snd (lru_get (entries c) k now).
Proof.
  intros Hl. unfold lru_get. rewrite lru_find_entries by done. cbn.
  destruct (items c !! k) as [p|]; [|done]. cbn.
  destruct (elems c !! p) as [e|]; [|done].
  by destruct (expireTime e <? now).
Qed.

Lemma Get_entries c k now :
  linked c -> entries_of (fst (Get (Some c) k now)) = fst (lru_get (entries c) k now).
Proof.
  intros Hl. unfold lru_get. rewrite lru_find_entries by done. cbn.
  destruct (items c !! k) as [p|] eqn:Ek; [|done]. cbn.
  destruct (elems c !! p) as [e|] eqn:Ee; [|done].
  destruct Hl as [Hnd Hll Hi]. destruct (Hi k p Ek) as (Hp & e' & He' & Hk).
  rewrite Ee in He'. injection He' as <-.
  destruct (expireTime e <? now); cbn.
  - unfold entries at 1.
    destruct (removeElement_fields c p) as (_ & _ & -> & ->).
    rewrite <- Hk. by apply entries_Remove.
  - unfold entries at 1. cbn. rewrite MoveToFront_eq by done. cbn. rewrite Ee.
    rewrite <- Hk. f_equal. by apply entries_Remove.
Qed.

Lemma Delete_entries c k :
  linked c -> entries_of (Delete (Some c) k) = lru_remove (entries c) k.
Proof.
  intros Hl. cbn. destruct (items c !! k) as [p|] eqn:Ek; cbn.
  - destruct Hl as [Hnd Hll Hi]. destruct (Hi k p Ek) as (Hp & e & He & Hk).
    unfold entries at 1.
    destruct (removeElement_fields c p) as (_ & _ & -> & ->).
    rewrite <- Hk. by apply entries_Remove.
  - unfold lru_remove. symmetry. apply filter_all.
    intros e He Hke. apply list_elem_of_omap in He as (q & Hq & He).
    destruct Hl as [Hnd Hll Hi]. destruct (Hll q Hq) as (e' & He' & Hk).
    rewrite He in He'. injection He' as <-. rewrite Hke in Hk. congruence.
Qed.

Lemma entries_length c : linked c -> length (entries c) = length (evictList c).
Proof.
  intros [_ Hll _]. unfold entries. induction (evictList c) as [|q l IH]; [done|].
  cbn. destruct (Hll q (list_elem_of_here q l)) as (e' & -> & _). cbn.
  f_equal. apply IH. intros x Hx. apply Hll. by apply list_elem_of_further.
Qed.

Lemma Set_entries c k v now :
  linked c ->
  entries_of (Set_ (Some c) k v now)
  = lru_set (maxSize c) (ttl c) (entries c) k v now.
Proof.
  intros Hl. unfold lru_set. rewrite lru_find_entries by done.
  pose proof Hl as [Hnd Hll Hi]. unfold Set_.
  destruct (items c !! k) as [p|] eqn:Ek.
  - destruct (Hi k p Ek) as (Hp & e & He & Hk). cbn. rewrite He.
    unfold entries at 1. cbn. rewrite MoveToFront_eq by done. cbn.
    rewrite lookup_alter_eq, He. cbn. rewrite Hk. f_equal.
    rewrite <- Hk. fold (entries c). rewrite <- (entries_Remove c p e) by done.
    apply omap_ext_in. intros q Hq. unfold list_Remove in Hq.
    apply list_elem_of_filter in Hq as [Hne _]. by rewrite lookup_alter_ne.
  - cbn zeta. cbn [mbind option_bind].
    set (e := {| key := k; value := v; expireTime := now + ttl c |}).
    set (p := alloc c).
    set (c2 := set_items (set_evictList (set_elems c (<[p := e]> (elems c)))
                            (p :: evictList c)) (<[k := p]> (items c))).
    assert (Hfresh : elems c !! p = None).
    { apply not_elem_of_dom. unfold p, alloc. apply is_fresh. }
    assert (Hp : p ∉ evictList c).
    { intros Hp. destruct (Hll p Hp) as (e' & He' & _). congruence. }
    assert (Hent : omap (fun q => <[p := e]> (elems c) !! q) (evictList c) = entries c).
    { apply omap_ext_in. intros q Hq. rewrite lookup_insert_ne; [done|].
      intros <-. done. }
    assert (Hent2 : entries c2 = e :: entries c).
    { unfold entries at 1. cbn. rewrite lookup_insert_eq. by rewrite Hent. }
    change (entries_of (if maxSize c2 <? list_Len (evictList c2)
                        then Some (evictOldest c2) else Some c2) =
            if maxSize c <? Z.of_nat (length (e :: entries c))
            then removelast (e :: entries c) else e :: entries c).
    change (maxSize c2) with (maxSize c).
    replace (list_Len (evictList c2)) with (Z.of_nat (length (e :: entries c))).
    2:{ unfold list_Len. cbn [length evictList c2 set_items set_evictList].
        by rewrite entries_length. }
    destruct (maxSize c <? Z.of_nat (length (e :: entries c))); [|exact Hent2].
    cbn [entries_of]. rewrite <- Hent2.
    unfold evictOldest, list_Back.
    destruct (last (evictList c2)) as [q|] eqn:Elast;
      [|by apply last_None in Elast].
    unfold entries.
    destruct (removeElement_fields c2 q) as (_ & _ & -> & ->).
    rewrite Remove_last; [| |done].
    2:{ cbn. apply NoDup_cons. by split. }
    pose proof Elast as [l0 El0]%last_Some. rewrite El0.
    rewrite removelast_last, omap_app.
    assert (Hq : exists eq, elems c2 !! q = Some eq).
    { cbn. destruct (decide (q = p)) as [->|Hne].
      - exists e. by rewrite lookup_insert_eq.
      - rewrite lookup_insert_ne by done.
        assert (Hin : q ∈ evictList c2).
        { rewrite El0. apply elem_of_app. right. apply list_elem_of_here. }
        cbn in Hin. apply elem_of_cons in Hin as [->|Hin]; [done|].
        destruct (Hll q Hin) as (eq & Heq & _). by exists eq. }
    destruct Hq as (eq & Heq). cbn [omap list_omap]. rewrite Heq.
    by rewrite removelast_last.
Qed.

Lemma foldl_removeElement_list ps : forall c,
  evictList (foldl removeElement c ps) = filter (fun q => q ∉ ps) (evictList c) /\
  elems (foldl removeElement c ps) = elems c.
Proof.
  induction ps as [|p ps IH]; intros c.
  - cbn. split; [|done]. symmetry. apply filter_all. intros x _ Hx.
    by apply elem_of_nil in Hx.
  - cbn. destruct (IH (removeElement c p)) as [-> ->].
    destruct (removeElement_fields c p) as (_ & _ & -> & ->). split; [|done].
    unfold list_Remove. rewrite list_filter_filter. apply list_filter_iff.
    intros x. rewrite not_elem_of_cons. tauto.
Qed.

Lemma Cleanup_entries c now :
  entries_of (Cleanup (Some c) now) = lru_cleanup (entries c) now.
Proof.
  cbn. unfold entries at 1.
  destruct (foldl_removeElement_list
              (filter (fun e => expired c now e = true) (reverse (evictList c))) c)
    as [-> ->].
  rewrite (filter_ext_in _ (fun q => expired c now q <> true)).
  2:{ intros q Hq. rewrite list_elem_of_filter, elem_of_reverse. tauto. }
  unfold entries, lru_cleanup. induction (evictList c) as [|q l IH]; [done|].
  cbn [omap list_omap].
  destruct (elems c !! q) as [e|] eqn:Ee.
  - assert (Hexp : expired c now q = (expireTime e <? now)).
    { unfold expired. by rewrite Ee. }
    destruct (expireTime e <? now) eqn:Ex.
    + rewrite filter_cons_False by (rewrite Hexp; tauto).
      rewrite filter_cons_False by (cbn; rewrite Ex; cbn; congruence). exact IH.
    + rewrite filter_cons_True by (rewrite Hexp; congruence).
      rewrite filter_cons_True by (cbn; by rewrite Ex).
      cbn [omap list_omap]. rewrite Ee. by rewrite IH.
  - assert (Hexp : expired c now q = false).
    { unfold expired. by rewrite Ee. }
    rewrite filter_cons_True by (rewrite Hexp; congruence).
    cbn [omap list_omap]. rewrite Ee. exact IH.
Qed.

Lemma apply_op_entries c op :
  linked c ->
  entries_of (apply_op (Some c) op) = lru_apply (maxSize c) (ttl c) (entries c) op.
Proof.
  intros Hl. destruct op as [k now|k v now|k| |now]; cbn [apply_op lru_apply].
  - by apply Get_entries.
  - by apply Set_entries.
  - by apply Delete_entries.
  - reflexivity.
  - apply Cleanup_entries.
Qed.

Lemma apply_op_ttl c op c' : apply_op (Some c) op = Some c' -> ttl c' = ttl c.
Proof.
  destruct op as [k now|k v now|k| |now]; cbn.
  - destruct (items c !! k) as [p|]; [|by intros [= <-]].
    destruct (elems c !! p) as [e|]; [|by intros [= <-]].
    destruct (expireTime e <? now); intros [= <-]; [|done].
    by destruct (removeElement_fields c p) as (_ & -> & _).
  - destruct (items c !! k) as [p|]; [by intros [= <-]|].
    destruct (_ <? _); intros [= <-]; [|done].
    unfold evictOldest. destruct (list_Back _); [|done].
    match goal with |- context [removeElement ?c' ?q] =>
      by destruct (removeElement_fields c' q) as (_ & -> & _) end.
  - destruct (items c !! k) as [p|]; intros [= <-]; [|done].
    by destruct (removeElement_fields c p) as (_ & -> & _).
  - by intros [= <-].
  - intros [= <-].
    generalize (filter (fun e => expired c now e = true) (reverse (evictList c))).
    intros ps. revert c. induction ps as [|p ps IH]; intros c; [done|].
    cbn. rewrite IH. by destruct (removeElement_fields c p) as (_ & -> & _).
Qed.

(** X8. The cache is an LRU list. Along any history from a
    well-formed cache (in particular a new one), the sequence of
    entries from the most to the least recently used is the one the
    list operations compute: a hit moves the entry to the front, a hit
    on an expired entry drops it, [Set] puts the entry at the front
    (replacing the one of the same key, or else dropping the last
    entry when the capacity is exceeded), [Delete] drops the key's
    entry, [Cleanup] drops exactly the expired entries and keeps the
    order; and in the state reached [Get] answers from that sequence
    and [Size] is its length. *)
Theorem cache_is_lru_list c ops :
  wf c ->
  exists c',
    run (Some c) ops = Some c' /\
    entries c' = foldl (lru_apply (maxSize c) (ttl c)) (entries c) ops /\
    (forall k now,
       snd (Get (Some c') k now) = snd (lru_get (entries c') k now)) /\
    Size (Some c') = Z.of_nat (length (entries c')).
Proof.
  revert c. induction ops as [|op ops IH]; intros c Hwf.
  - exists c. split_and!; try done.
    + intros k now. apply Get_result. by destruct Hwf.
    + cbn. unfold list_Len. rewrite entries_length; [done|]. by destruct Hwf.
  - destruct (apply_op_wf c op Hwf) as (c1 & E1 & Hwf1 & Hm1 & _).
    destruct (IH c1 Hwf1) as (c' & E & Hent & Hget & Hsize).
    exists c'. split_and!; try done.
    + unfold run in *. cbn [foldl]. by rewrite E1.
    + cbn [foldl]. rewrite Hent, Hm1, (apply_op_ttl c op c1 E1).
      f_equal. pose proof (apply_op_entries c op (proj1 Hwf)) as H.
      rewrite E1 in H. exact H.
Qed.

Lemma cache_is_lru_list_witness :
  exists c',
    run (Some sample_cache) sample_history = Some c' /\
    entries c'
    = foldl (lru_apply (maxSize sample_cache) (ttl sample_cache))
            (entries sample_cache) sample_history /\
    (forall k now,
       snd (Get (Some c') k now) = snd (lru_get (entries c') k now)) /\
    Size (Some c') = Z.of_nat (length (entries c')).
Proof.
  apply (cache_is_lru_list sample_cache sample_history).
  apply (NewCache_wf sample_config); [reflexivity | cbn; lia].
Defined.


Lemma lru_find_head e l k : key e = k -> lru_find (e :: l) k = Some e.
Proof. intros Hk. unfold lru_find. cbn. by rewrite bool_decide_eq_true_2. Qed.

Lemma lru_find_skip e l k : key e <> k -> lru_find (e :: l) k = lru_find l k.
Proof. intros Hk. unfold lru_find. cbn. by rewrite bool_decide_eq_false_2. Qed.

Lemma lru_find_None l k :
  lru_find l k = None <-> forall e, e ∈ l -> key e <> k.
Proof.
  induction l as [|e l IH].
  - split; [|done]. intros _ x Hx. by apply elem_of_nil in Hx.
  - destruct (decide (key e = k)) as [Hk|Hk].
    + rewrite lru_find_head by done. split; [done|].
      intros H. destruct (H e (list_elem_of_here e l) Hk).
    + rewrite lru_find_skip by done. rewrite IH. split.
      * intros H x [->|Hx]%elem_of_cons; [done|]. by apply H.
      * intros H x Hx. apply H. by apply list_elem_of_further.
Qed.

Lemma lru_find_remove_same l k : lru_find (lru_remove l k) k = None.
Proof.
  apply lru_find_None. intros e He. unfold lru_remove in He.
  by apply list_elem_of_filter in He as [? _].
Qed.

Lemma lru_find_remove_other l k k' :
  k' <> k -> lru_find (lru_remove l k) k' = lru_find l k'.
Proof.
  intros Hk. unfold lru_remove. induction l as [|e l IH]; [done|].
  destruct (decide (key e = k)) as [He|He].
  - rewrite filter_cons_False by (intros H; by apply H).
    rewrite lru_find_skip by congruence. exact IH.
  - rewrite filter_cons_True by done.
    destruct (decide (key e = k')) as [He'|He'].
    + by rewrite !lru_find_head.
    + by rewrite !lru_find_skip.
Qed.

(** No two entries of the cache carry the same key. *)
Lemma entries_keys_NoDup c : linked c -> NoDup (key <$> entries c).
Proof.
  intros [Hnd Hll _]. unfold entries.
  induction (evictList c) as [|q l IH]; [constructor|].
  apply NoDup_cons in Hnd as [Hq Hnd].
  destruct (Hll q (list_elem_of_here q l)) as (e & He & Hk).
  cbn. rewrite He. cbn. apply NoDup_cons. split.
  - intros Hin. apply list_elem_of_fmap in Hin as (e' & Hke & He').
    apply list_elem_of_omap in He' as (q' & Hq' & He').
    destruct (Hll q' (list_elem_of_further _ _ _ Hq')) as (e'' & He'' & Hk').
    rewrite He' in He''. injection He'' as <-.
    rewrite <- Hke, Hk in Hk'. injection Hk' as ->. done.
  - apply IH; [done|]. intros x Hx. apply Hll. by apply list_elem_of_further.
Qed.

Lemma lru_find_cleanup l k now :
  NoDup (key <$> l) ->
  lru_find (lru_cleanup l now) k =
    match lru_find l k with
    | Some e => if expireTime e <? now then None else Some e
    | None => None
    end.
Proof.
  unfold lru_cleanup. induction l as [|e l IH]; intros Hnd; [done|].
  cbn in Hnd. apply NoDup_cons in Hnd as [He Hnd].
  destruct (decide (key e = k)) as [Hk|Hk].
  - rewrite (lru_find_head e l k Hk).
    destruct (expireTime e <? now) eqn:Ex.
    + rewrite filter_cons_False by (rewrite Ex; cbn; congruence).
      apply lru_find_None. intros x Hx Hkx.
      apply list_elem_of_filter in Hx as [_ Hx]. apply He.
      apply list_elem_of_fmap. exists x. split; [congruence|done].
    + rewrite filter_cons_True by (by rewrite Ex). by apply lru_find_head.
  - rewrite (lru_find_skip e l k Hk).
    destruct (expireTime e <? now) eqn:Ex.
    + rewrite filter_cons_False by (rewrite Ex; cbn; congruence). by apply IH.
    + rewrite filter_cons_True by (by rewrite Ex).
      rewrite lru_find_skip by done. by apply IH.
Qed.

(** Looking up the key just set in the sequence: it is found, at the
    front, unless the capacity is less than one. *)
Lemma lru_set_find maxSize ttl l k v now :
  Z.of_nat (length l) <= maxSize ->
  lru_find (lru_set maxSize ttl l k v now) k =
    if 1 <=? maxSize
    then Some {| key := k; value := v; expireTime := now + ttl |}
    else None.
Proof.
  intros Hlen. unfold lru_set.
  set (e := {| key := k; value := v; expireTime := now + ttl |}).
  destruct (lru_find l k) as [e0|] eqn:Ef.
  - rewrite lru_find_head by done.
    assert (1 <= maxSize).
    { destruct l; [done|]. cbn in Hlen. lia. }
    by rewrite (proj2 (Z.leb_le 1 maxSize)).
  - destruct (Z.ltb_spec maxSize (Z.of_nat (length (e :: l)))) as [Hfull|Hroom].
    + destruct l as [|x l].
      * cbn in Hfull. cbn. destruct (Z.leb_spec 1 maxSize); [lia|done].
      * change (removelast (e :: x :: l)) with (e :: removelast (x :: l)).
        rewrite lru_find_head by done.
        cbn [length] in Hlen. by rewrite (proj2 (Z.leb_le 1 maxSize)) by lia.
    + rewrite lru_find_head by done.
      cbn [length] in Hroom. by rewrite (proj2 (Z.leb_le 1 maxSize)) by lia.
Qed.

(** X9. Insert then look up. After [Set k v] at time [now] on a
    well-formed cache, [Get k] at time [now'] answers [v] exactly when
    the capacity is at least one and [now'] is not after
    [now + ttl]; otherwise it misses. In particular a cache of
    capacity 0 stores nothing, and the eviction that follows an insert
    into a full cache never evicts the entry just inserted. *)
Theorem set_then_get c k v now now' :
  wf c ->
  exists c1,
    Set_ (Some c) k v now = Some c1 /\
    snd (Get (Some c1) k now') =
      if (1 <=? maxSize c) && negb (now + ttl c <? now') then (v, true)
      else ([], false).
Proof.
  intros Hwf. destruct (Set_wf c k v now Hwf) as (c1 & E & Hwf1 & _).
  exists c1. split; [done|].
  rewrite Get_result by (by destruct Hwf1).
  pose proof (Set_entries c k v now (proj1 Hwf)) as Hent.
  rewrite E in Hent. cbn [entries_of] in Hent.
  destruct Hwf as [Hl Hlen]. unfold list_Len in Hlen.
  rewrite <- (entries_length c Hl) in Hlen.
  unfold lru_get. rewrite Hent, lru_set_find by done.
  destruct (1 <=? maxSize c); [|done]. cbn [expireTime value andb].
  by destruct (now + ttl c <? now').
Qed.

Lemma warm_cache_wf : wf warm_cache.
Proof.
  assert (Hwf : wf sample_cache).
  { apply (NewCache_wf sample_config); [reflexivity | cbn; lia]. }
  destruct (run_wf sample_cache sample_history Hwf) as (c' & E & Hwf' & _).
  unfold warm_cache. by rewrite E.
Qed.

Lemma set_then_get_witness :
  exists c1,
    Set_ (Some warm_cache) "GET:/d" (body "delta") (5 * second) = Some c1 /\
    snd (Get (Some c1) "GET:/d" (6 * second)) =
      if (1 <=? maxSize warm_cache)
         && negb (5 * second + ttl warm_cache <? 6 * second)
      then (body "delta", true) else ([], false).
Proof.
  apply (set_then_get warm_cache "GET:/d" (body "delta") (5 * second) (6 * second)).
  apply warm_cache_wf.
Defined.

(** X10. [Delete k] removes the key and nothing else: afterwards
    [Get k] misses at any time, [Get] of every other key answers as it
    did before, and [Size] has dropped by one if the key was present
    and is unchanged if it was not. *)
Theorem delete_removes_only_its_key c k :
  wf c ->
  exists c1,
    Delete (Some c) k = Some c1 /\
    (forall now, snd (Get (Some c1) k now) = ([], false)) /\
    (forall k' now, k' <> k ->
       snd (Get (Some c1) k' now) = snd (Get (Some c) k' now)) /\
    Size (Some c1) = Size (Some c) - (match items c !! k with Some _ => 1 | None => 0 end).
Proof.
  intros Hwf. destruct (Delete_wf c k Hwf) as (c1 & E & Hwf1 & _).
  exists c1. split; [done|].
  pose proof (Delete_entries c k (proj1 Hwf)) as Hent.
  rewrite E in Hent. cbn [entries_of] in Hent.
  split_and!.
  - intros now. rewrite Get_result by (by destruct Hwf1).
    unfold lru_get. by rewrite Hent, lru_find_remove_same.
  - intros k' now Hk.
    rewrite (Get_result c1 k' now (proj1 Hwf1)), (Get_result c k' now (proj1 Hwf)).
    unfold lru_get. rewrite Hent, lru_find_remove_other by done.
    destruct (lru_find (entries c) k') as [e|]; [|done].
    by destruct (expireTime e <? now).
  - cbn in E. cbn [Size]. destruct Hwf as [[Hnd Hll Hi] _].
    destruct (items c !! k) as [p|] eqn:Ek; injection E as <-; [|lia].
    destruct (removeElement_fields c p) as (_ & _ & _ & ->).
    destruct (Hi k p Ek) as (Hp & _).
    pose proof (Remove_length (evictList c) p Hnd Hp). unfold list_Len. lia.
Qed.

Lemma delete_removes_only_its_key_witness :
  exists c1,
    Delete (Some warm_cache) "GET:/a" = Some c1 /\
    (forall now, snd (Get (Some c1) "GET:/a" now) = ([], false)) /\
    (forall k' now, k' <> "GET:/a"%string ->
       snd (Get (Some c1) k' now) = snd (Get (Some warm_cache) k' now)) /\
    Size (Some c1) = Size (Some warm_cache)
                     - (match items warm_cache !! "GET:/a"%string with
                        | Some _ => 1 | None => 0 end).
Proof.
  apply (delete_removes_only_its_key warm_cache "GET:/a").
  apply warm_cache_wf.
Defined.

(** X11. [Cleanup] at time [now] leaves no expired entry behind,
    keeps the unexpired ones in their order, and cannot be seen through
    [Get]: a later [Get] (at [now' >= now]) of any key answers as it
    would have without the clean-up. *)
Theorem cleanup_keeps_answers c now :
  wf c ->
  exists c1,
    Cleanup (Some c) now = Some c1 /\
    entries c1 = filter (fun e => ~ expireTime e < now) (entries c) /\
    (forall e, e ∈ entries c1 -> now <= expireTime e) /\
    (forall k now', now <= now' ->
       snd (Get (Some c1) k now') = snd (Get (Some c) k now')).
Proof.
  intros Hwf. destruct (Cleanup_wf c now Hwf) as (c1 & E & Hwf1 & _).
  exists c1. split; [done|].
  pose proof (Cleanup_entries c now) as Hent.
  rewrite E in Hent. cbn [entries_of] in Hent.
  split_and!.
  - rewrite Hent. unfold lru_cleanup. apply list_filter_iff. intros e.
    destruct (Z.ltb_spec (expireTime e) now); cbn; split; (done || lia).
  - intros e He. rewrite Hent in He. unfold lru_cleanup in He.
    apply list_elem_of_filter in He as [He _].
    destruct (Z.ltb_spec (expireTime e) now); [done|lia].
  - intros k now' Hn.
    rewrite (Get_result c1 k now' (proj1 Hwf1)), (Get_result c k now' (proj1 Hwf)).
    unfold lru_get. rewrite Hent, lru_find_cleanup
      by (apply entries_keys_NoDup; by destruct Hwf).
    destruct (lru_find (entries c) k) as [e|]; [|done].
    destruct (Z.ltb_spec (expireTime e) now);
      destruct (Z.ltb_spec (expireTime e) now'); (done || lia).
Qed.

Lemma cleanup_keeps_answers_witness :
  exists c1,
    Cleanup (Some warm_cache) (302 * second) = Some c1 /\
    entries c1 = filter (fun e => ~ expireTime e < 302 * second) (entries warm_cache) /\
    (forall e, e ∈ entries c1 -> 302 * second <= expireTime e) /\
    (forall k now', 302 * second <= now' ->
       snd (Get (Some c1) k now') = snd (Get (Some warm_cache) k now')).
Proof.
  apply (cleanup_keeps_answers warm_cache (302 * second)).
  apply warm_cache_wf.
Defined.

End CacheMore.

(** ** Load balancers: what a selection guarantees *)

Module BalancerMore.
Import Pool Balancer BalancerRuns BalancerFacts.

Lemma rr_scan_selected st bs start fuel i b :
  rr_scan st bs start fuel i = Selected b -> b ∈ bs /\ IsAlive st b = true.
Proof.
  revert i. induction fuel as [|fuel IH]; intros i; [done|]. cbn [rr_scan].
  destruct (bs !! _) as [x|] eqn:Ex; [|done].
  destruct (IsAlive st x) eqn:Ea; [|apply IH].
  intros [= <-]. split; [|done]. by apply list_elem_of_lookup_2 in Ex.
Qed.

Lemma rr_scan_no_panic st bs start fuel i :
  bs <> [] -> rr_scan st bs start fuel i <> Panic.
Proof.
  intros Hne. revert i. induction fuel as [|fuel IH]; intros i; [done|]. cbn [rr_scan].
  destruct (rr_lookup bs (wrap_uint64 (start + i)) Hne) as [x ->].
  destruct (IsAlive st x); [done|apply IH].
Qed.

(** A full scan that finds nothing has seen every backend. *)
Lemma rr_scan_Nil st bs start :
  bs <> [] -> Z.of_nat (length bs) <= max_int ->
  0 <= start < Z.of_nat (length bs) ->
  rr_scan st bs start (length bs) 0 = Nil ->
  forall b, b ∈ bs -> IsAlive st b = false.
Proof.
  intros Hne Hmax Hstart Hnil b Hb.
  pose proof (rr_scan_spec st bs start (length bs) 0 Hne Hmax Hstart) as Hspec.
  cbn zeta in Hspec. rewrite Hnil in Hspec.
  apply list_elem_of_lookup_1 in Hb as [k Hk].
  pose proof (lookup_lt_Some _ _ _ Hk) as Hlt.
  set (N := Z.of_nat (length bs)) in *.
  destruct (Hspec ltac:(lia) ltac:(lia) ((Z.of_nat k - start) mod N)) as (b' & Hb' & Hd).
  { pose proof (Z.mod_pos_bound (Z.of_nat k - start) N). lia. }
  rewrite Zplus_mod_idemp_r in Hb'.
  replace (start + (Z.of_nat k - start)) with (Z.of_nat k) in Hb' by lia.
  rewrite Z.mod_small, Nat2Z.id in Hb' by lia. congruence.
Qed.

Lemma lc_fold_spec st bs :
  (forall b, b ∈ bs -> IsAlive st b = true -> GetConnections st b <> -1) ->
  match foldl (lc_visit st) (None, -1) bs with
  | (None, m) => m = -1 /\ forall b, b ∈ bs -> IsAlive st b = false
  | (Some b, m) =>
      m = GetConnections st b /\ IsAlive st b = true /\
      exists l1 l2, bs = l1 ++ b :: l2 /\
        (forall b', b' ∈ l1 -> IsAlive st b' = true ->
                    GetConnections st b < GetConnections st b') /\
        (forall b', b' ∈ l2 -> IsAlive st b' = true ->
                    GetConnections st b <= GetConnections st b')
  end.
Proof.
  induction bs as [|x l IH] using rev_ind; intros Hs.
  - cbn. split; [done|]. intros b Hb. by apply elem_of_nil in Hb.
  - rewrite foldl_app. cbn [foldl].
    assert (Hs' : forall b, b ∈ l -> IsAlive st b = true -> GetConnections st b <> -1).
    { intros b Hb. apply Hs, elem_of_app. by left. }
    specialize (IH Hs').
    destruct (foldl (lc_visit st) (None, -1) l) as [[b|] m].
    + destruct IH as (-> & Hab & l1 & l2 & -> & H1 & H2).
      unfold lc_visit. destruct (IsAlive st x) eqn:Ex; cbn [negb].
      * assert (Hb1 : GetConnections st b <> -1).
        { apply Hs'; [|done]. apply elem_of_app. right. apply list_elem_of_here. }
        destruct (Z.eqb_spec (GetConnections st b) (-1)) as [|_]; [done|]. cbn [orb].
        destruct (Z.ltb_spec (GetConnections st x) (GetConnections st b)) as [Hlt|Hge].
        -- split_and!; try done. exists (l1 ++ b :: l2), []. split_and!; [done| |].
           ++ intros b' [Hb'|[->|Hb']%elem_of_cons]%elem_of_app Ha.
              ** specialize (H1 b' Hb' Ha). lia.
              ** lia.
              ** specialize (H2 b' Hb' Ha). lia.
           ++ intros b' Hb'. by apply elem_of_nil in Hb'.
        -- split_and!; try done. exists l1, (l2 ++ [x]). split_and!.
           ++ by rewrite <- app_assoc.
           ++ done.
           ++ intros b' [Hb'|Hb']%elem_of_app Ha; [by apply H2|].
              apply list_elem_of_singleton in Hb' as ->. lia.
      * split_and!; try done. exists l1, (l2 ++ [x]). split_and!.
        -- by rewrite <- app_assoc.
        -- done.
        -- intros b' [Hb'|Hb']%elem_of_app Ha; [by apply H2|].
           apply list_elem_of_singleton in Hb' as ->. congruence.
    + destruct IH as (-> & Hdead).
      unfold lc_visit. destruct (IsAlive st x) eqn:Ex; cbn [negb].
      * cbn. split_and!; try done. exists l, []. split_and!; [done| |].
        -- intros b' Hb' Ha. rewrite Hdead in Ha; done.
        -- intros b' Hb'. by apply elem_of_nil in Hb'.
      * split; [done|]. intros b [Hb|Hb]%elem_of_app; [by apply Hdead|].
        by apply list_elem_of_singleton in Hb as ->.
Qed.

Lemma lc_fold_sel st bs :
  match foldl (lc_visit st) (None, -1) bs with
  | (Some b, _) => b ∈ bs /\ IsAlive st b = true
  | (None, m) => m = -1 /\ forall b, b ∈ bs -> IsAlive st b = false
  end.
Proof.
  induction bs as [|x l IH] using rev_ind.
  - cbn. split; [done|]. intros b Hb. by apply elem_of_nil in Hb.
  - rewrite foldl_app. cbn [foldl].
    destruct (foldl (lc_visit st) (None, -1) l) as [[b|] m]; unfold lc_visit.
    + destruct IH as [Hb Ha]. destruct (IsAlive st x) eqn:Ex; cbn [negb].
      * destruct ((m =? -1) || (GetConnections st x <? m)).
        -- split; [|done]. apply elem_of_app. right. apply list_elem_of_here.
        -- split; [|done]. apply elem_of_app. by left.
      * split; [|done]. apply elem_of_app. by left.
    + destruct IH as [-> Hd]. destruct (IsAlive st x) eqn:Ex; cbn [negb].
      * cbn. split; [|done]. apply elem_of_app. right. apply list_elem_of_here.
      * split; [done|]. intros b [Hb|Hb]%elem_of_app; [by apply Hd|].
        by apply list_elem_of_singleton in Hb as ->.
Qed.

Lemma rr_outcome rb st :
  Z.of_nat (length (rr_backends rb)) <= max_int ->
  rr_backends (snd (rr_NextBackend rb st)) = rr_backends rb /\
  match fst (rr_NextBackend rb st) with
  | Selected b => b ∈ rr_backends rb /\ IsAlive st b = true
  | Nil => forall b, b ∈ rr_backends rb -> IsAlive st b = false
  | Panic => False
  end.
Proof.
  intros Hmax. destruct (rr_backends rb) as [|x bs] eqn:Ebs.
  - unfold rr_NextBackend. rewrite Ebs. cbn. rewrite Ebs. split; [done|].
    intros b Hb. by apply elem_of_nil in Hb.
  - assert (Hne : rr_backends rb <> []) by (by rewrite Ebs).
    rewrite rr_NextBackend_nonempty by done. cbn [fst snd rr_backends].
    rewrite <- Ebs. split; [done|].
    destruct (rr_scan _ _ _ _ _) as [b| |] eqn:Es.
    + by apply rr_scan_selected in Es.
    + refine (rr_scan_Nil st _ _ Hne _ _ Es);
        [by rewrite Ebs | by apply rr_index_range].
    + by apply rr_scan_no_panic in Es.
Qed.

Lemma lc_outcome l st :
  match lc_NextBackend l st with
  | Selected b => b ∈ lc_backends l /\ IsAlive st b = true
  | Nil => forall b, b ∈ lc_backends l -> IsAlive st b = false
  | Panic => False
  end.
Proof.
  unfold lc_NextBackend. destruct (lc_backends l) as [|x bs] eqn:Ebs.
  - intros b Hb. by apply elem_of_nil in Hb.
  - rewrite <- Ebs. pose proof (lc_fold_sel st (lc_backends l)) as Hsel.
    destruct (foldl (lc_visit st) (None, -1) (lc_backends l)) as [[b|] m]; cbn [fst].
    + done.
    + by destruct Hsel.
Qed.

Lemma rnd_outcome rb st nano :
  match rnd_NextBackend rb st nano with
  | Selected b => b ∈ rnd_backends rb /\ IsAlive st b = true
  | Nil => forall b, b ∈ rnd_backends rb -> IsAlive st b = false
  | Panic => nano < 0
  end.
Proof.
  unfold rnd_NextBackend. destruct (rnd_backends rb) as [|x bs] eqn:Ebs.
  - intros b Hb. by apply elem_of_nil in Hb.
  - rewrite <- Ebs.
    destruct (filter (fun b => IsAlive st b = true) (rnd_backends rb)) as [|y al] eqn:Eal.
    + intros b Hb. destruct (IsAlive st b) eqn:Ea; [|done].
      assert (Hin : b ∈ filter (fun b => IsAlive st b = true) (rnd_backends rb)).
      { by apply list_elem_of_filter. }
      rewrite Eal in Hin. by apply elem_of_nil in Hin.
    + rewrite <- Eal.
      set (al' := filter (fun b => IsAlive st b = true) (rnd_backends rb)) in *.
      destruct (Z.ltb_spec (Z.rem nano (Z.of_nat (length al'))) 0) as [Hneg|Hpos].
      * destruct (Z.lt_ge_cases nano 0) as [|Hn]; [done|].
        pose proof (Z.rem_nonneg nano (Z.of_nat (length al'))) as Hr.
        rewrite Eal in Hr, Hneg. cbn [length] in Hr, Hneg. lia.
      * destruct (al' !! _) as [b|] eqn:Eb.
        -- apply list_elem_of_lookup_2 in Eb. unfold al' in Eb.
           by apply list_elem_of_filter in Eb as [? ?].
        -- exfalso. apply lookup_ge_None in Eb.
           pose proof (Z.rem_bound_abs nano (Z.of_nat (length al'))) as Hb.
           rewrite Eal in Hb, Eb, Hpos. cbn [length] in Hb, Eb, Hpos. lia.
Qed.

(** X12. Whatever the strategy, [NextBackend] hands out only backends
    of its own list that are alive, it answers [nil] only when every
    backend of the list is down, it never changes the list, and the
    only way it can panic is the random strategy reading a negative
    clock. *)
Theorem selection_is_alive_member lb st nano :
  Z.of_nat (length (backends lb)) <= max_int ->
  backends (snd (NextBackend lb st nano)) = backends lb /\
  match fst (NextBackend lb st nano) with
  | Selected b => b ∈ backends lb /\ IsAlive st b = true
  | Nil => forall b, b ∈ backends lb -> IsAlive st b = false
  | Panic => (exists rb, lb = Random rb) /\ nano < 0
  end.
Proof.
  intros Hmax. destruct lb as [rb|l|rb]; cbn [NextBackend backends] in *.
  - destruct (rr_outcome rb st Hmax) as [Hbs Hout].
    destruct (rr_NextBackend rb st) as [sel rb']. cbn [fst snd backends] in *.
    split; [done|]. by destruct sel.
  - cbn [fst snd backends]. split; [done|].
    pose proof (lc_outcome l st) as Hout. by destruct (lc_NextBackend l st).
  - cbn [fst snd backends]. split; [done|].
    pose proof (rnd_outcome rb st nano) as Hout.
    destruct (rnd_NextBackend rb st nano); [done|done|].
    split; [by exists rb|done].
Qed.

Lemma selection_is_alive_member_witness :
  backends (snd (NextBackend (RoundRobin sample_round_robin) sample_store 0))
  = backends (RoundRobin sample_round_robin) /\
  match fst (NextBackend (RoundRobin sample_round_robin) sample_store 0) with
  | Selected b =>
      b ∈ backends (RoundRobin sample_round_robin) /\ IsAlive sample_store b = true
  | Nil => forall b, b ∈ backends (RoundRobin sample_round_robin) ->
                     IsAlive sample_store b = false
  | Panic => (exists rb, RoundRobin sample_round_robin = Random rb) /\ 0 < 0
  end.
Proof.
  apply (selection_is_alive_member (RoundRobin sample_round_robin) sample_store 0).
  cbn. unfold max_int. lia.
Defined.

(** X13. Least-connection selection. Provided no alive backend shows
    the connection count -1 (the value the loop uses for "nothing
    selected yet"), the backend returned is alive, has the smallest
    connection count among the alive backends of the list, and is the
    first of the list with that count; [nil] is returned only when
    every backend is down. *)
Theorem least_connection_picks_minimum lb st :
  (forall b, b ∈ lc_backends lb -> IsAlive st b = true -> GetConnections st b <> -1) ->
  match lc_NextBackend lb st with
  | Selected b =>
      IsAlive st b = true /\
      exists l1 l2, lc_backends lb = l1 ++ b :: l2 /\
        (forall b', b' ∈ l1 -> IsAlive st b' = true ->
                    GetConnections st b < GetConnections st b') /\
        (forall b', b' ∈ l2 -> IsAlive st b' = true ->
                    GetConnections st b <= GetConnections st b')
  | Nil => forall b, b ∈ lc_backends lb -> IsAlive st b = false
  | Panic => False
  end.
Proof.
  intros Hs. unfold lc_NextBackend.
  destruct (lc_backends lb) as [|x bs] eqn:Ebs.
  - intros b Hb. by apply elem_of_nil in Hb.
  - rewrite <- Ebs in *. pose proof (lc_fold_spec st (lc_backends lb) Hs) as Hspec.
    destruct (foldl (lc_visit st) (None, -1) (lc_backends lb)) as [[b|] m]; cbn [fst].
    + by destruct Hspec as (_ & Ha & Hex).
    + by destruct Hspec.
Qed.

Lemma least_connection_picks_minimum_witness :
  match lc_NextBackend sample_least_connection healthy_store with
  | Selected b =>
      IsAlive healthy_store b = true /\
      exists l1 l2, lc_backends sample_least_connection = l1 ++ b :: l2 /\
        (forall b', b' ∈ l1 -> IsAlive healthy_store b' = true ->
                    GetConnections healthy_store b < GetConnections healthy_store b') /\
        (forall b', b' ∈ l2 -> IsAlive healthy_store b' = true ->
                    GetConnections healthy_store b <= GetConnections healthy_store b')
  | Nil => forall b, b ∈ lc_backends sample_least_connection ->
                     IsAlive healthy_store b = false
  | Panic => False
  end.
Proof.
  apply (least_connection_picks_minimum sample_least_connection healthy_store).
  intros b Hb _. cbn in Hb.
  repeat (apply elem_of_cons in Hb as [->|Hb]; [cbn; lia|]).
  by apply elem_of_nil in Hb.
Defined.

Lemma rr_all_alive rb st :
  rr_backends rb <> [] -> Z.of_nat (length (rr_backends rb)) <= max_int ->
  (forall b, b ∈ rr_backends rb -> IsAlive st b = true) ->
  rr_NextBackend rb st =
    (match rr_backends rb !! Z.to_nat (wrap_uint64 (current rb + 1)
                                         mod Z.of_nat (length (rr_backends rb))) with
     | Some b => Selected b
     | None => Nil
     end,
     {| rr_backends := rr_backends rb; current := wrap_uint64 (current rb + 1) |}).
Proof.
  intros Hne Hmax Halive. rewrite rr_NextBackend_nonempty by done. f_equal.
  set (bs := rr_backends rb) in *. set (c := wrap_uint64 (current rb + 1)).
  pose proof (rr_index_range bs c Hne) as Hr.
  destruct (rr_lookup bs c Hne) as [b Hb]. rewrite Hb.
  destruct (length bs) as [|n] eqn:El; [by destruct bs|]. rewrite <- El in *.
  rewrite El at 2. cbn [rr_scan].
  assert (Hidx : wrap_uint64 (c mod Z.of_nat (length bs) + 0) mod Z.of_nat (length bs)
                 = c mod Z.of_nat (length bs)).
  { rewrite Z.add_0_r. unfold wrap_uint64 at 1.
    rewrite (Z.mod_small (c mod _) (2 ^ 64)) by (unfold max_int in Hmax; lia).
    apply Z.mod_mod. lia. }
  rewrite Hidx, Hb. rewrite Halive; [done|]. by apply list_elem_of_lookup_2 in Hb.
Qed.

Lemma rr_calls_spec st n : forall rb,
  rr_backends rb <> [] -> Z.of_nat (length (rr_backends rb)) <= max_int ->
  (forall b, b ∈ rr_backends rb -> IsAlive st b = true) ->
  0 <= current rb -> current rb + Z.of_nat n < 2 ^ 64 ->
  fst (rr_calls n rb st) =
    (fun i : nat =>
       match rr_backends rb !! Z.to_nat ((current rb + 1 + Z.of_nat i)
                                           mod Z.of_nat (length (rr_backends rb))) with
       | Some b => Selected b
       | None => Nil
       end) <$> seq 0 n /\
  rr_backends (snd (rr_calls n rb st)) = rr_backends rb /\
  current (snd (rr_calls n rb st)) = current rb + Z.of_nat n.
Proof.
  induction n as [|n IH]; intros rb Hne Hmax Halive Hc Hn.
  - cbn. split_and!; try done. lia.
  - cbn [rr_calls]. rewrite rr_all_alive by done.
    set (rb1 := {| rr_backends := rr_backends rb;
                   current := wrap_uint64 (current rb + 1) |}).
    assert (Hw : wrap_uint64 (current rb + 1) = current rb + 1).
    { unfold wrap_uint64. apply Z.mod_small. lia. }
    destruct (IH rb1) as (Hres & Hbs & Hcur); try done.
    { cbn. rewrite Hw. lia. }
    { cbn. rewrite Hw. lia. }
    destruct (rr_calls n rb1 st) as [ss rb2]. cbn [fst snd] in *.
    split_and!.
    + cbn [seq fmap list_fmap]. rewrite Hw, Z.add_0_r. f_equal.
      rewrite Hres, <- fmap_S_seq, <- list_fmap_compose. apply list_fmap_ext.
      intros i x _. unfold compose, rb1. cbn [rr_backends current]. rewrite Hw.
      by replace (current rb + 1 + 1 + Z.of_nat x)
        with (current rb + 1 + Z.of_nat (S x)) by lia.
    + by rewrite Hbs.
    + rewrite Hcur. cbn. rewrite Hw. lia.
Qed.

(** X14. Round robin is fair on a healthy pool. When every backend of
    the list is alive (and the 64-bit counter does not wrap during the
    cycle), one cycle of N successive calls returns every backend
    exactly once, in list order starting after the counter: the
    selections are the list rotated by [(counter + 1) mod N]; and the
    counter has advanced by N. *)
Theorem round_robin_cycles rb st :
  rr_backends rb <> [] -> Z.of_nat (length (rr_backends rb)) <= max_int ->
  (forall b, b ∈ rr_backends rb -> IsAlive st b = true) ->
  0 <= current rb -> current rb + Z.of_nat (length (rr_backends rb)) < 2 ^ 64 ->
  let N := length (rr_backends rb) in
  fst (rr_calls N rb st) =
    Selected <$> rotate (Z.to_nat ((current rb + 1) mod Z.of_nat N)) (rr_backends rb) /\
  current (snd (rr_calls N rb st)) = current rb + Z.of_nat N.
Proof.
  intros Hne Hmax Halive Hc Hn N.
  destruct (rr_calls_spec st N rb Hne Hmax Halive Hc Hn) as (Hres & _ & Hcur).
  split; [|done]. rewrite Hres. apply list_eq. intros i.
  rewrite !list_lookup_fmap.
  pose proof (rr_index_range (rr_backends rb) (current rb + 1) Hne) as Hr. fold N in Hr.
  destruct (decide (i < N)%nat) as [Hi|Hi].
  - rewrite lookup_seq_lt by done. rewrite lookup_rotate_r by done. cbn.
    unfold rotate_nat_add. fold N. rewrite Z2Nat.id by lia.
    rewrite Zplus_mod_idemp_l.
    destruct (rr_lookup (rr_backends rb) (current rb + 1 + Z.of_nat i) Hne) as [b Hb].
    fold N in Hb. by rewrite Hb.
  - rewrite lookup_seq_ge by lia. symmetry.
    rewrite (proj2 (lookup_ge_None _ _)); [done|]. rewrite length_rotate. fold N. lia.
Qed.

Lemma round_robin_cycles_witness :
  let rb := sample_round_robin in
  let N := length (rr_backends rb) in
  fst (rr_calls N rb healthy_store) =
    Selected <$> rotate (Z.to_nat ((current rb + 1) mod Z.of_nat N)) (rr_backends rb) /\
  current (snd (rr_calls N rb healthy_store)) = current rb + Z.of_nat N.
Proof.
  apply (round_robin_cycles sample_round_robin healthy_store).
  - done.
  - cbn. unfold max_int. lia.
  - intros b Hb. cbn in Hb.
    repeat (apply elem_of_cons in Hb as [->|Hb]; [reflexivity|]).
    by apply elem_of_nil in Hb.
  - cbn. lia.
  - cbn. lia.
Defined.

Lemma IsAlive_SetAlive_false st b : IsAlive (SetAlive st b false) b = false.
Proof.
  unfold IsAlive, SetAlive. rewrite list_lookup_alter_eq.
  by destruct (st !! b).
Qed.

Lemma IsAlive_SetAlive_ne st b b' alive :
  b' <> b -> IsAlive (SetAlive st b alive) b' = IsAlive st b'.
Proof.
  intros Hne. unfold IsAlive, SetAlive. by rewrite list_lookup_alter_ne.
Qed.

Lemma GetConnections_SetAlive st b b' alive :
  GetConnections (SetAlive st b alive) b' = GetConnections st b'.
Proof.
  unfold GetConnections, SetAlive.
  destruct (decide (b' = b)) as [->|Hne].
  - rewrite list_lookup_alter_eq. by destruct (st !! b).
  - by rewrite list_lookup_alter_ne.
Qed.

(** X15. Marking and selecting. Once a backend is marked down no
    strategy selects it, whatever the clock; marking touches no other
    backend's alive flag and no connection count; and once a backend
    of the list is marked up, every strategy selects some backend
    (the random one given a non-negative clock reading). *)
Theorem marked_down_is_never_selected lb st b nano :
  Z.of_nat (length (backends lb)) <= max_int -> 0 <= nano ->
  fst (NextBackend lb (MarkBackendDown lb st b) nano) <> Selected b /\
  (forall b', b' <> b ->
     IsAlive (MarkBackendDown lb st b) b' = IsAlive st b' /\
     IsAlive (MarkBackendUp lb st b) b' = IsAlive st b') /\
  (forall b',
     GetConnections (MarkBackendDown lb st b) b' = GetConnections st b' /\
     GetConnections (MarkBackendUp lb st b) b' = GetConnections st b') /\
  (b ∈ backends lb -> is_Some (st !! b) ->
   exists b', fst (NextBackend lb (MarkBackendUp lb st b) nano) = Selected b').
Proof.
  intros Hmax Hnano. unfold MarkBackendDown, MarkBackendUp.
  assert (Hout : forall st',
    match fst (NextBackend lb st' nano) with
    | Selected b' => IsAlive st' b' = true
    | Nil => forall b', b' ∈ backends lb -> IsAlive st' b' = false
    | Panic => False
    end).
  { intros st'. destruct lb as [rb|l|rb]; cbn [NextBackend backends] in *.
    - destruct (rr_outcome rb st' Hmax) as [_ Hrr].
      destruct (rr_NextBackend rb st') as [sel rb']. cbn [fst] in *.
      destruct sel; [by destruct Hrr|done|done].
    - cbn [fst]. pose proof (lc_outcome l st') as Hlc.
      destruct (lc_NextBackend l st'); [by destruct Hlc|done|done].
    - cbn [fst]. pose proof (rnd_outcome rb st' nano) as Hrnd.
      destruct (rnd_NextBackend rb st' nano); [by destruct Hrnd|done|lia]. }
  split_and!.
  - intros Hsel. specialize (Hout (SetAlive st b false)). rewrite Hsel in Hout.
    by rewrite IsAlive_SetAlive_false in Hout.
  - intros b' Hne. by rewrite !IsAlive_SetAlive_ne.
  - intros b'. by rewrite !GetConnections_SetAlive.
  - intros Hb Hsome. specialize (Hout (SetAlive st b true)).
    destruct (fst (NextBackend lb (SetAlive st b true) nano)) as [b'| |].
    + by exists b'.
    + specialize (Hout b Hb). by rewrite IsAlive_SetAlive in Hout.
    + done.
Qed.

Lemma marked_down_is_never_selected_witness :
  let lb := RoundRobin sample_round_robin in
  let st := healthy_store in
  let b := 1%nat in
  fst (NextBackend lb (MarkBackendDown lb st b) 0) <> Selected b /\
  (forall b', b' <> b ->
     IsAlive (MarkBackendDown lb st b) b' = IsAlive st b' /\
     IsAlive (MarkBackendUp lb st b) b' = IsAlive st b') /\
  (forall b',
     GetConnections (MarkBackendDown lb st b) b' = GetConnections st b' /\
     GetConnections (MarkBackendUp lb st b) b' = GetConnections st b') /\
  (b ∈ backends lb -> is_Some (st !! b) ->
   exists b', fst (NextBackend lb (MarkBackendUp lb st b) 0) = Selected b').
Proof.
  apply (marked_down_is_never_selected (RoundRobin sample_round_robin) healthy_store 1 0).
  - cbn. unfold max_int. lia.
  - lia.
Defined.

End BalancerMore.

(** ** Proxy stage: connection accounting, back-off and the breaker *)

Module ProxyMore.
Import Pool Balancer Middleware Proxy ProxyRuns ProxyFacts.

Lemma wrap_int_succ_pred c : int_range c -> wrap_int (wrap_int (c + 1) + -1) = c.
Proof.
  intros Hc. destruct (decide (c = max_int)) as [->|Hne]; [by vm_compute|].
  unfold int_range, min_int, max_int in *.
  rewrite (wrap_int_id (c + 1)) by (unfold int_range, min_int, max_int; lia).
  replace (c + 1 + -1) with c by lia.
  apply wrap_int_id. unfold int_range, min_int, max_int. lia.
Qed.

Lemma Decrement_Increment st b :
  (forall x, st !! b = Some x -> int_range (Connections x)) ->
  DecrementConnections (IncrementConnections st b) b = st.
Proof.
  intros Hr. unfold DecrementConnections, IncrementConnections.
  apply list_eq. intros i. destruct (decide (i = b)) as [->|Hne].
  - rewrite !list_lookup_alter_eq. destruct (st !! b) as [x|] eqn:Ex; [|done]. cbn.
    f_equal. destruct x as [u a c]. unfold add_connections. cbn. f_equal.
    apply wrap_int_succ_pred. apply (Hr _ eq_refl).
  - by rewrite !list_lookup_alter_ne.
Qed.

Lemma retry_terminates config st r backend upstream :
  0 <= RetryAttempts config < max_int ->
  let R := RetryAttempts config in
  exists n effs res,
    retry_loop config st r backend upstream (retry_fuel config) 0 None = Some (effs, res) /\
    1 <= n <= R + 1 /\
    effs = flat_map (attempt_trace config st r backend upstream) (seqZ 0 n) /\
    (forall i, 0 <= i < n - 1 -> attempt_fails (upstream i) = true) /\
    res = snd (proxyRequest st r backend (upstream (n - 1))) /\
    (n < R + 1 -> res = None).
Proof.
  intros HR R.
  destruct (retry_loop_spec config st r backend upstream (retry_fuel config) 0 None)
    as (n & effs & res & E & Hn & Heffs & Hfail & Hlast & Hres & Hearly).
  { lia. } { fold R. lia. } { unfold retry_fuel. lia. }
  fold R in Hn, Hearly.
  assert (Hn1 : 1 <= n).
  { destruct (decide (n = 0)) as [->|]; [|lia].
    unfold retry_fuel in E. replace (Z.to_nat (RetryAttempts config + 2))
      with (S (Z.to_nat (RetryAttempts config + 1))) in E by lia.
    cbn [retry_loop] in E.
    destruct (Z.leb_spec 0 (RetryAttempts config)); [|lia].
    assert (Hin : (before_attempt config 0 ++ fst (proxyRequest st r backend (upstream 0)) <> [])%list).
    { destruct (upstream 0) as [e|e|code [e|]]; cbn; done. }
    destruct (proxyRequest st r backend (upstream 0)) as [effs0 [e|]]; cbn [isClientError] in E.
    - destruct (retry_loop _ _ _ _ _ _ _ _) as [[effs' res']|]; [|done].
      injection E as <- <-. cbn in Heffs, Hin. by destruct effs0.
    - injection E as <- <-. cbn in Heffs, Hin. by destruct effs0. }
  exists n, effs, res. rewrite Z.sub_0_r in Heffs.
  split_and!; try done; try lia.
  apply Hres. lia.
Qed.



Lemma proxyRequest_no_sleep st r backend a :
  filter (fun e => is_Sleep e = true) (fst (proxyRequest st r backend a)) = [].
Proof. by destruct a as [e|e|code [e|]]. Qed.

Lemma sleeps_from config st r backend upstream k : forall a,
  1 <= a ->
  filter (fun e => is_Sleep e = true)
         (flat_map (attempt_trace config st r backend upstream) (seqZ a (Z.of_nat k)))
  = (fun i => Sleep (wrap_int (RetryDelay config * i))) <$> seqZ a (Z.of_nat k).
Proof.
  induction k as [|k IH]; intros a Ha; [done|].
  rewrite Nat2Z.inj_succ, seqZ_cons by lia. rewrite Z.pred_succ.
  cbn [flat_map fmap list_fmap]. rewrite filter_app. unfold attempt_trace at 1.
  rewrite filter_app, proxyRequest_no_sleep, app_nil_r.
  unfold before_attempt. destruct (Z.ltb_spec 0 a); [|lia].
  rewrite filter_cons_True by done. rewrite filter_cons_False by (cbn; congruence).
  rewrite filter_nil. cbn [app]. f_equal. apply IH. lia.
Qed.

(** X17. Linear back-off. The retry loop sleeps before every attempt
    but the first, and before attempt [i] it sleeps [RetryDelay * i]:
    a call that makes [n] attempts sleeps [RetryDelay * 1], ...,
    [RetryDelay * (n - 1)] in that order and nothing else; when every
    attempt fails [n] is [RetryAttempts + 1] and an error is returned,
    and when the first attempt succeeds there is no sleep at all. *)
Theorem retry_backoff_is_linear config r backend upstream st :
  0 <= RetryAttempts config < max_int ->
  exists n st' effs res,
    proxyRequestWithRetry config r backend upstream (retry_fuel config) st
    = Some (st', effs, res) /\
    1 <= n <= RetryAttempts config + 1 /\
    filter (fun e => is_Sleep e = true) effs
    = (fun i => Sleep (wrap_int (RetryDelay config * i))) <$> seqZ 1 (n - 1) /\
    ((forall i, 0 <= i <= RetryAttempts config -> attempt_fails (upstream i) = true) ->
     n = RetryAttempts config + 1 /\ is_Some res) /\
    (attempt_fails (upstream 0) = false -> n = 1 /\ res = None).
Proof.
  intros HR. unfold proxyRequestWithRetry.
  set (st1 := IncrementConnections st backend).
  destruct (retry_terminates config st1 r backend upstream HR)
    as (n & effs & res & E & Hn & Heffs & Hfail & Hres & Hearly).
  exists n, (DecrementConnections st1 backend), effs, res. rewrite E.
  split_and!; try done; try lia.
  - rewrite Heffs, seqZ_cons by lia. cbn [flat_map]. rewrite filter_app.
    unfold attempt_trace at 1. unfold before_attempt at 1. cbn [Z.ltb Z.compare app].
    rewrite proxyRequest_no_sleep. cbn [app].
    change (Z.succ 0) with 1.
    rewrite <- (Z2Nat.id (Z.pred n)) by lia.
    rewrite sleeps_from by lia. do 2 f_equal. lia.
  - intros Hall.
    assert (Hsome : is_Some res).
    { rewrite Hres. apply attempt_fails_error. apply Hall. lia. }
    split; [|done]. destruct (decide (n < RetryAttempts config + 1)) as [Hlt|]; [|lia].
    rewrite (Hearly Hlt) in Hsome. by destruct Hsome.
  - intros Hok. assert (n = 1) as ->.
    { destruct (decide (n = 1)); [done|]. specialize (Hfail 0 ltac:(lia)). congruence. }
    split; [done|]. rewrite Hres. change (1 - 1) with 0.
    by destruct (upstream 0) as [x|x|c [x|]].
Qed.

Lemma retry_backoff_is_linear_witness :
  exists n st' effs res,
    proxyRequestWithRetry sample_config sample_request 2%nat refusing
                          (retry_fuel sample_config) sample_store
    = Some (st', effs, res) /\
    1 <= n <= RetryAttempts sample_config + 1 /\
    filter (fun e => is_Sleep e = true) effs
    = (fun i => Sleep (wrap_int (RetryDelay sample_config * i))) <$> seqZ 1 (n - 1) /\
    ((forall i, 0 <= i <= RetryAttempts sample_config ->
                attempt_fails (refusing i) = true) ->
     n = RetryAttempts sample_config + 1 /\ is_Some res) /\
    (attempt_fails (refusing 0) = false -> n = 1 /\ res = None).
Proof.
  apply (retry_backoff_is_linear sample_config sample_request 2%nat refusing sample_store).
  cbn. unfold max_int. lia.
Defined.


(** X18. A request the breaker refuses never reaches a backend. For a
    path that is not whitelisted and a backend selected by the
    balancer, when the circuit is open inside its cool-down, or
    half-open with its probe quota used up, the handler logs a warning
    and answers 503; nothing is sent upstream, no connection count
    moves and the breaker is left as it was. The balancer has been
    consulted all the same, so its state is the one after the
    selection. *)
Theorem refused_request_gives_503 config whitelist g r w fuel cb backend lb' :
  whitelisted whitelist (URL_Path r) = false ->
  NextBackend (lb g) (store g) (nano w) = (Selected backend, lb') ->
  breaker g = Some cb ->
  clock_range (gate_time w) -> clock_range (Breaker.lastFailTime cb) ->
  match Breaker.state cb with
  | Breaker.StateClosed => False
  | Breaker.StateOpen =>
      gate_time w - Breaker.lastFailTime cb <= Breaker.Timeout (Breaker.config cb)
  | Breaker.StateHalfOpen =>
      Breaker.MaxRequests (Breaker.config cb) <= Breaker.requests cb
  end ->
  ProxyMiddleware config whitelist g r w fuel =
    Done {| lb := lb'; breaker := Some cb; store := store g |}
         [Log WARN (match Breaker.state cb with
                    | Breaker.StateHalfOpen => "Too many requests to half-open circuit"
                    | _ => "Circuit breaker open"
                    end);
          HttpError "Service Unavailable" 503].
Proof.
  intros Hwl Hsel Hcb Ht0 Hlf Hst. unfold ProxyMiddleware.
  rewrite Hwl, Hsel, Hcb. unfold Breaker.Call, Breaker.beforeRequest.
  destruct (Breaker.state cb); [done| |].
  - rewrite time_Sub_exact by done.
    destruct (Z.ltb_spec (Breaker.Timeout (Breaker.config cb))
                (gate_time w - Breaker.lastFailTime cb)); [lia|]. reflexivity.
  - destruct (Z.leb_spec (Breaker.MaxRequests (Breaker.config cb))
                (Breaker.requests cb)); [|lia]. reflexivity.
Qed.

Lemma refused_request_gives_503_witness :
  ProxyMiddleware sample_config sample_whitelist tripped_gateway sample_request
                  sample_world (retry_fuel sample_config) =
    Done {| lb := RoundRobin {| rr_backends := [0; 1; 2]%nat; current := 8 |};
            breaker := Some BreakerRuns.open_breaker; store := store tripped_gateway |}
         [Log WARN (match Breaker.state BreakerRuns.open_breaker with
                    | Breaker.StateHalfOpen => "Too many requests to half-open circuit"
                    | _ => "Circuit breaker open"
                    end);
          HttpError "Service Unavailable" 503].
Proof.
  apply (refused_request_gives_503 sample_config sample_whitelist tripped_gateway
           sample_request sample_world (retry_fuel sample_config)
           BreakerRuns.open_breaker 2%nat).
  - by vm_compute.
  - by vm_compute.
  - reflexivity.
  - unfold clock_range, max_int. cbn. lia.
  - unfold clock_range, max_int. cbn. unfold Breaker.second. lia.
  - cbn. unfold Breaker.second. lia.
Defined.

Lemma proxyRequest_error st r backend a e :
  snd (proxyRequest st r backend a) = Some e -> exists msg, e = ErrOther msg.
Proof. destruct a as [x|x|c [x|]]; cbn; intros [= <-]; by eexists. Qed.

Lemma proxyRequest_upstream_target st r backend a e :
  e ∈ fst (proxyRequest st r backend a) -> is_Upstream e = true ->
  e = Upstream backend (targetURL st r backend).
Proof.
  destruct a as [x|x|c [x|]]; cbn; intros Hin Hup;
    repeat (apply elem_of_cons in Hin as [->|Hin]; [done|]);
    by apply elem_of_nil in Hin.
Qed.

(** X19. One request, one verdict. Through a closed breaker, a
    non-whitelisted request for which the balancer selects a backend
    is tried at most [RetryAttempts + 1] times, every attempt going to
    that one backend; the pool is left as it was and the breaker
    records a single outcome for the whole request: a success (failure
    count back to 0) as soon as one attempt succeeds, and exactly one
    failure when all attempts fail, however many there were. *)
Theorem request_counts_once config whitelist g r w cb backend lb' :
  whitelisted whitelist (URL_Path r) = false ->
  NextBackend (lb g) (store g) (nano w) = (Selected backend, lb') ->
  breaker g = Some cb -> Breaker.state cb = Breaker.StateClosed ->
  0 <= RetryAttempts config < max_int ->
  (forall x, store g !! backend = Some x -> int_range (Connections x)) ->
  exists effs res,
    ProxyMiddleware config whitelist g r w (retry_fuel config) =
      Done {| lb := lb';
              breaker := Some (Breaker.afterRequest cb res (record_time w));
              store := store g |} effs /\
    Z.of_nat (length (filter (fun e => is_Upstream e = true) effs))
      <= RetryAttempts config + 1 /\
    (forall e, e ∈ effs -> is_Upstream e = true ->
       e = Upstream backend
             (targetURL (IncrementConnections (store g) backend) r backend)) /\
    ((forall i, 0 <= i <= RetryAttempts config ->
                attempt_fails (upstream w i) = true) ->
     is_Some res /\
     Breaker.failures (Breaker.afterRequest cb res (record_time w))
     = wrap_int (Breaker.failures cb + 1)) /\
    ((exists i, 0 <= i <= RetryAttempts config /\
                attempt_fails (upstream w i) = false) ->
     res = None /\
     Breaker.state (Breaker.afterRequest cb res (record_time w)) = Breaker.StateClosed /\
     Breaker.failures (Breaker.afterRequest cb res (record_time w)) = 0).
Proof.
  intros Hwl Hsel Hcb Hst HR Hc. unfold ProxyMiddleware.
  rewrite Hwl, Hsel, Hcb. unfold Breaker.Call, Breaker.beforeRequest. rewrite Hst.
  unfold proxyRequestWithRetry.
  set (st1 := IncrementConnections (store g) backend).
  destruct (retry_terminates config st1 r backend (upstream w) HR)
    as (n & effs & res & E & Hn & Heffs & Hfail & Hres & Hearly).
  rewrite E. unfold st1 at 1. rewrite Decrement_Increment by done.
  assert (Htail : match res with
                  | Some ErrCircuitOpen | Some ErrTooManyRequests => False
                  | _ => True
                  end).
  { destruct res as [e|]; [|done]. symmetry in Hres.
    by apply proxyRequest_error in Hres as [msg ->]. }
  exists effs, res. split_and!.
  - cbn [app]. destruct res as [[| |msg]|]; try done; by rewrite app_nil_r.
  - rewrite Heffs. etrans; [apply upstream_count; lia|]. lia.
  - intros e He Hup. rewrite Heffs in He.
    apply list_elem_of_In, in_flat_map in He as (i & _ & He).
    apply list_elem_of_In in He. unfold attempt_trace in He.
    apply elem_of_app in He as [He|He].
    + pose proof (before_attempt_upstream config i) as Hb.
      assert (Hin : e ∈ filter (fun e => is_Upstream e = true) (before_attempt config i)).
      { by apply list_elem_of_filter. }
      rewrite Hb in Hin. by apply elem_of_nil in Hin.
    + by apply proxyRequest_upstream_target in He.
  - intros Hall.
    assert (Hsome : is_Some res).
    { rewrite Hres. apply attempt_fails_error. apply Hall. lia. }
    split; [done|]. destruct Hsome as [e ->].
    unfold Breaker.afterRequest, Breaker.onFailure. cbn. rewrite Hst.
    by destruct (_ <=? _).
  - intros (i & Hi & Hok).
    assert (res = None) as ->.
    { destruct (decide (n < RetryAttempts config + 1)) as [Hlt|Hge]; [by apply Hearly|].
      assert (n = RetryAttempts config + 1) as -> by lia.
      destruct (decide (i = RetryAttempts config)) as [->|Hne].
      - rewrite Hres. replace (RetryAttempts config + 1 - 1) with (RetryAttempts config) by lia.
        by destruct (upstream w (RetryAttempts config)) as [x|x|c [x|]].
      - specialize (Hfail i ltac:(lia)). congruence. }
    split; [done|]. unfold Breaker.afterRequest, Breaker.onSuccess. by rewrite Hst.
Qed.

Lemma request_counts_once_witness :
  exists effs res,
    ProxyMiddleware sample_config sample_whitelist live_gateway sample_request
                    recovering_world (retry_fuel sample_config) =
      Done {| lb := RoundRobin {| rr_backends := [0; 1; 2]%nat; current := 8 |};
              breaker := Some (Breaker.afterRequest Breaker.sample_breaker res
                                 (record_time recovering_world));
              store := store live_gateway |} effs /\
    Z.of_nat (length (filter (fun e => is_Upstream e = true) effs))
      <= RetryAttempts sample_config + 1 /\
    (forall e, e ∈ effs -> is_Upstream e = true ->
       e = Upstream 2%nat
             (targetURL (IncrementConnections (store live_gateway) 2%nat)
                        sample_request 2%nat)) /\
    ((forall i, 0 <= i <= RetryAttempts sample_config ->
                attempt_fails (upstream recovering_world i) = true) ->
     is_Some res /\
     Breaker.failures (Breaker.afterRequest Breaker.sample_breaker res
                         (record_time recovering_world))
     = wrap_int (Breaker.failures Breaker.sample_breaker + 1)) /\
    ((exists i, 0 <= i <= RetryAttempts sample_config /\
                attempt_fails (upstream recovering_world i) = false) ->
     res = None /\
     Breaker.state (Breaker.afterRequest Breaker.sample_breaker res
                      (record_time recovering_world)) = Breaker.StateClosed /\
     Breaker.failures (Breaker.afterRequest Breaker.sample_breaker res
                         (record_time recovering_world)) = 0).
Proof.
  apply (request_counts_once sample_config sample_whitelist live_gateway sample_request
           recovering_world Breaker.sample_breaker 2%nat).
  - by vm_compute.
  - by vm_compute.
  - reflexivity.
  - reflexivity.
  - cbn. unfold max_int. lia.
  - intros x Hx. cbn in Hx. injection Hx as <-. cbn.
    unfold int_range, min_int, max_int. lia.
Defined.


End ProxyMore.

(** ** Health checker: a round of probes *)

Module HealthMore.
Import Pool Balancer Health HealthRuns BalancerFacts.

Lemma checkBackend_store lb st b p :
  fst (checkBackend lb st b p) = SetAlive st b (probe_ok p).
Proof.
  destruct p as [e|e|code]; cbn; try done.
  unfold MarkBackendUp, MarkBackendDown. by destruct (code =? StatusOK).
Qed.

Lemma checkBackend_logs lb st1 st2 b p :
  IsAlive st1 b = IsAlive st2 b ->
  snd (checkBackend lb st1 b p) = snd (checkBackend lb st2 b p).
Proof.
  intros Ha. destruct p as [e|e|code]; cbn; try done.
  - by rewrite Ha.
  - destruct (code =? StatusOK); cbn; by rewrite Ha.
Qed.

Lemma checkAll_cons lb st b rest probe :
  checkAll lb st (b :: rest) probe =
    (fst (checkAll lb (fst (checkBackend lb st b (probe b))) rest probe),
     snd (checkBackend lb st b (probe b))
     ++ snd (checkAll lb (fst (checkBackend lb st b (probe b))) rest probe)).
Proof.
  cbn [checkAll]. destruct (checkBackend lb st b (probe b)) as [st1 l1]. cbn [fst snd].
  by destruct (checkAll lb st1 rest probe).
Qed.

Lemma checkAll_lookup lb probe order : forall st i,
  fst (checkAll lb st order probe) !! i =
    if decide (i ∈ order)
    then (fun x => {| URL := URL x; Alive := probe_ok (probe i);
                      Connections := Connections x |}) <$> st !! i
    else st !! i.
Proof.
  induction order as [|b rest IH]; intros st i.
  - cbn. rewrite decide_False; [done|]. apply not_elem_of_nil.
  - rewrite checkAll_cons. cbn [fst]. rewrite IH, checkBackend_store.
    unfold SetAlive. destruct (decide (i = b)) as [->|Hne].
    + rewrite list_lookup_alter_eq. rewrite (decide_True (P := b ∈ b :: rest))
        by apply list_elem_of_here.
      destruct (decide (b ∈ rest)); [|done].
      by destruct (st !! b).
    + rewrite list_lookup_alter_ne by done.
      destruct (decide (i ∈ rest)) as [Hi|Hi].
      * rewrite decide_True; [done|]. by apply list_elem_of_further.
      * rewrite decide_False; [done|]. rewrite not_elem_of_cons. by split.
Qed.

Lemma flat_map_ext_elem {A B} (f g : A -> list B) (l : list A) :
  (forall x, x ∈ l -> f x = g x) -> flat_map f l = flat_map g l.
Proof.
  induction l as [|x l IH]; intros Hfg; [done|]. cbn.
  rewrite (Hfg x) by apply list_elem_of_here.
  rewrite IH; [done|]. intros y Hy. apply Hfg. by apply list_elem_of_further.
Qed.

Lemma checkAll_logs lb probe order : forall st,
  NoDup order ->
  snd (checkAll lb st order probe) =
    flat_map (fun b => snd (checkBackend lb st b (probe b))) order.
Proof.
  induction order as [|b rest IH]; intros st Hnd; [done|].
  apply NoDup_cons in Hnd as [Hb Hnd].
  rewrite checkAll_cons. cbn [snd flat_map]. f_equal.
  rewrite IH by done. apply flat_map_ext_elem. intros b' Hb'.
  apply checkBackend_logs. rewrite checkBackend_store.
  unfold IsAlive, SetAlive. rewrite list_lookup_alter_ne; [done|].
  intros <-. done.
Qed.

(** X20. A round of health checks does not depend on the order in
    which the per-backend goroutines get to run. For a list of
    distinct backends, every order of the checks ends in the same pool
    and logs the same lines (up to their order); in that pool every
    checked backend is alive exactly when its probe came back with
    status 200, unchecked backends are untouched, and no connection
    count or URL has changed. *)
Theorem health_round_is_order_free lb st order order' probe :
  NoDup order -> order ≡ₚ order' ->
  let st' := fst (checkAll lb st order probe) in
  fst (checkAll lb st order' probe) = st' /\
  snd (checkAll lb st order' probe) ≡ₚ snd (checkAll lb st order probe) /\
  (forall b, b ∈ order -> is_Some (st !! b) -> IsAlive st' b = probe_ok (probe b)) /\
  (forall b, b ∉ order -> st' !! b = st !! b) /\
  (forall b, GetConnections st' b = GetConnections st b /\
             backend_URL st' b = backend_URL st b).
Proof.
  intros Hnd Hperm st'. split_and!.
  - apply list_eq. intros i. unfold st'. rewrite !checkAll_lookup.
    destruct (decide (i ∈ order)) as [Hi|Hi].
    + rewrite decide_True; [done|]. by rewrite <- Hperm.
    + rewrite decide_False; [done|]. by rewrite <- Hperm.
  - rewrite !checkAll_logs; [|done|by rewrite <- Hperm].
    symmetry. by apply Permutation_flat_map.
  - intros b Hb [x Hx]. unfold IsAlive, st'. rewrite checkAll_lookup.
    rewrite decide_True by done. by rewrite Hx.
  - intros b Hb. unfold st'. rewrite checkAll_lookup. by rewrite decide_False.
  - intros b. unfold GetConnections, backend_URL, st'. rewrite checkAll_lookup.
    destruct (decide (b ∈ order)); [|done]. by destruct (st !! b).
Qed.

Lemma health_round_is_order_free_witness :
  let lb := three_balancer in
  let st := Balancer.sample_store in
  let order := [0; 1; 2]%nat in
  let order' := [2; 0; 1]%nat in
  let st' := fst (checkAll lb st order sample_probe) in
  fst (checkAll lb st order' sample_probe) = st' /\
  snd (checkAll lb st order' sample_probe) ≡ₚ snd (checkAll lb st order sample_probe) /\
  (forall b, b ∈ order -> is_Some (st !! b) -> IsAlive st' b = probe_ok (sample_probe b)) /\
  (forall b, b ∉ order -> st' !! b = st !! b) /\
  (forall b, GetConnections st' b = GetConnections st b /\
             backend_URL st' b = backend_URL st b).
Proof.
  apply (health_round_is_order_free three_balancer Balancer.sample_store
           [0; 1; 2]%nat [2; 0; 1]%nat sample_probe).
  - by apply (bool_decide_unpack _).
  - symmetry. apply (Permutation_cons_append [0; 1]%nat 2%nat).
Defined.

End HealthMore.

(** ** Stateless middlewares: request IDs, recovery, access guards, CORS *)

Module ChainFacts.
Import GoStrings Middleware Chain MiddlewareFacts.

Lemma listed_elem ip l : listed ip l = true <-> ip ∈ l.
Proof.
  induction l as [|x l IH]; cbn.
  - split; [done|]. by intros ?%elem_of_nil.
  - destruct (String.eqb_spec ip x) as [->|Hne].
    + split; [|done]. intros _. apply list_elem_of_here.
    + rewrite IH, elem_of_cons. intuition congruence.
Qed.

Lemma apiKeyMap_fold l : forall (m : gmap string bool) k,
  default false (foldl (fun m key => <[key := true]> m) m l !! k) = true
  <-> k ∈ l \/ default false (m !! k) = true.
Proof.
  induction l as [|x l IH]; intros m k; cbn [foldl].
  - split; [by right|]. intros [H%elem_of_nil|H]; done.
  - rewrite IH, elem_of_cons. destruct (decide (k = x)) as [->|Hne].
    + rewrite lookup_insert_eq. cbn. split; [intros _; left; by left|].
      intros _. by right.
    + rewrite lookup_insert_ne by done. intuition congruence.
Qed.

Lemma apiKeyMap_elem config k :
  default false (apiKeyMap config !! k) = true <-> k ∈ APIKeys config.
Proof.
  unfold apiKeyMap. rewrite apiKeyMap_fold, lookup_empty. cbn. intuition congruence.
Qed.

Lemma origin_allowed_spec origin l :
  origin_allowed origin l = true <-> "*"%string ∈ l \/ origin ∈ l.
Proof.
  induction l as [|x l IH]; cbn.
  - split; [done|]. intros [H|H]; by apply elem_of_nil in H.
  - destruct (String.eqb_spec x "*") as [->|Hs]; cbn.
    + split; [|done]. intros _. left. apply list_elem_of_here.
    + destruct (String.eqb_spec x origin) as [->|Ho].
      * split; [|done]. intros _. right. apply list_elem_of_here.
      * rewrite IH, !elem_of_cons. intuition congruence.
Qed.

Lemma EncodeToString_length b :
  String.length (EncodeToString b) = (2 * length b)%nat.
Proof. induction b as [|x b IH]; [done|]. cbn. rewrite IH. lia. Qed.

(** X21. Request IDs. [RequestIDMiddleware] runs the next handler with
    a request ID in its context that is never empty: the incoming
    X-Request-ID header when that is not empty, otherwise 32
    hexadecimal characters made from the 16 random bytes; the same ID
    is set on the response before the next handler runs. Below it the
    authentication and IP-filter stages never panic on their own, so
    the whole answers exactly as the access rules say or as the final
    handler does. *)
Theorem request_id_is_always_set random config whitelist next rid r :
  length random = 16%nat ->
  exists requestID,
    requestID <> EmptyString /\
    (Header_Get (Header r) "X-Request-ID" <> EmptyString ->
       requestID = Header_Get (Header r) "X-Request-ID") /\
    (Header_Get (Header r) "X-Request-ID" = EmptyString ->
       requestID = generateRequestID random /\ String.length requestID = 32%nat) /\
    RequestIDMiddleware random next rid r
    = and_then [SetHeader "X-Request-ID" requestID] (next (Some requestID) r) /\
    (snd (RequestIDMiddleware random
            (IPFilterMiddleware config
               (AuthenticationMiddlewareNew config whitelist next)) rid r) = Panics ->
     snd (next (Some requestID) r) = Panics).
Proof.
  intros Hlen. unfold RequestIDMiddleware.
  set (h := Header_Get (Header r) "X-Request-ID").
  assert (Hgen : String.length (generateRequestID random) = 32%nat).
  { unfold generateRequestID. rewrite EncodeToString_length, Hlen. done. }
  exists (if String.eqb h "" then generateRequestID random else h).
  destruct (String.eqb_spec h "") as [Hh|Hh].
  - split_and!; try done.
    + intros E. rewrite E in Hgen. done.
    + cbn [and_then snd]. unfold IPFilterMiddleware, AuthenticationMiddlewareNew.
      destruct (listed _ _); cbn [requestID_of snd]; [done|].
      destruct (andb _ _); cbn [requestID_of snd]; [done|].
      destruct (Proxy.whitelisted _ _); [done|].
      destruct (orb _ _); cbn [requestID_of snd]; done.
  - split_and!; try done.
    cbn [and_then snd]. unfold IPFilterMiddleware, AuthenticationMiddlewareNew.
    destruct (listed _ _); cbn [requestID_of snd]; [done|].
    destruct (andb _ _); cbn [requestID_of snd]; [done|].
    destruct (Proxy.whitelisted _ _); [done|].
    destruct (orb _ _); cbn [requestID_of snd]; done.
Qed.

Lemma request_id_is_always_set_witness :
  exists requestID,
    requestID <> EmptyString /\
    (Header_Get (Header Proxy.sample_request) "X-Request-ID" <> EmptyString ->
       requestID = Header_Get (Header Proxy.sample_request) "X-Request-ID") /\
    (Header_Get (Header Proxy.sample_request) "X-Request-ID" = EmptyString ->
       requestID = generateRequestID sample_random /\
       String.length requestID = 32%nat) /\
    RequestIDMiddleware sample_random ok_handler None Proxy.sample_request
    = and_then [SetHeader "X-Request-ID" requestID]
               (ok_handler (Some requestID) Proxy.sample_request) /\
    (snd (RequestIDMiddleware sample_random
            (IPFilterMiddleware sample_security
               (AuthenticationMiddlewareNew sample_security Proxy.sample_whitelist
                  ok_handler)) None Proxy.sample_request) = Panics ->
     snd (ok_handler (Some requestID) Proxy.sample_request) = Panics).
Proof.
  apply (request_id_is_always_set sample_random sample_security Proxy.sample_whitelist
           ok_handler None Proxy.sample_request).
  reflexivity.
Defined.

(** X22. Recovery. [RecoveryMiddleware] leaves a handler that returns
    alone; when the handler panics it answers 500 after what the
    handler had already done, but only if the context of its own
    request holds a request ID: without one the deferred function
    panics in its turn and the panic goes on. Placed outside
    [RequestIDMiddleware], as the gateway's chain places it, it is
    handed a request without an ID, so a panic of any inner handler is
    not recovered; placed inside, it always returns. *)
Theorem recovery_needs_request_id random next r :
  (forall rid, snd (next rid r) = Returns ->
     RecoveryMiddleware next rid r = next rid r) /\
  (forall requestID, snd (next (Some requestID) r) = Panics ->
     RecoveryMiddleware next (Some requestID) r
     = (fst (next (Some requestID) r)
        ++ [Log ERROR "Panic recovered"; Error "Internal Server Error" 500],
        Returns)) /\
  (snd (next None r) = Panics ->
     RecoveryMiddleware next None r = next None r) /\
  (snd (RequestIDMiddleware random next None r) = Panics ->
     snd (RecoveryMiddleware (RequestIDMiddleware random next) None r) = Panics) /\
  (forall rid,
     snd (RequestIDMiddleware random (RecoveryMiddleware next) rid r) = Returns).
Proof.
  unfold RecoveryMiddleware. split_and!.
  - intros rid H. destruct (next rid r) as [acts e]. cbn in H. by subst.
  - intros id H. destruct (next (Some id) r) as [acts e]. cbn in H. by subst.
  - intros H. destruct (next None r) as [acts e]. cbn in H. subst.
    unfold and_then. cbn [requestID_of fst snd]. by rewrite app_nil_r.
  - intros H. destruct (RequestIDMiddleware random next None r) as [acts e].
    cbn in H. by subst.
  - intros rid. unfold RequestIDMiddleware. cbn [and_then snd].
    by destruct (next _ r) as [acts [|]].
Qed.

(** X23. Access guards. The IP filter hands a request on exactly when
    the resolved client IP is not on the blacklist and the whitelist
    is empty or contains it (the blacklist wins over the whitelist);
    the authentication stage hands a request on exactly when its path
    is whitelisted or its X-API-Key is a non-empty member of the
    configured keys. A request that is not handed on is answered 403
    Forbidden with one warning, and the next handler is not run. *)
Theorem access_guards config whitelist next requestID r :
  let clientIP := getClientIP r in
  let apiKey := Header_Get (Header r) "X-API-Key" in
  let ip_ok := (clientIP ∉ IPBlacklist config) /\
               (IPWhitelist config = [] \/ clientIP ∈ IPWhitelist config) in
  let key_ok := Proxy.whitelisted whitelist (URL_Path r) = true \/
                (apiKey <> EmptyString /\ apiKey ∈ APIKeys config) in
  (ip_ok -> IPFilterMiddleware config next (Some requestID) r = next (Some requestID) r) /\
  (~ ip_ok ->
     exists msg, IPFilterMiddleware config next (Some requestID) r
                 = ([Log WARN msg; Error "Forbidden" 403], Returns)) /\
  (key_ok -> AuthenticationMiddlewareNew config whitelist next (Some requestID) r
             = next (Some requestID) r) /\
  (~ key_ok ->
     AuthenticationMiddlewareNew config whitelist next (Some requestID) r
     = ([Log WARN "Authentication failed"; Error "Forbidden" 403], Returns)).
Proof.
  intros clientIP apiKey ip_ok key_ok. split_and!.
  - intros [Hb Hw]. unfold IPFilterMiddleware. fold clientIP.
    destruct (listed clientIP (IPBlacklist config)) eqn:Eb.
    { by apply listed_elem in Eb. }
    destruct Hw as [Hw|Hw].
    + by rewrite Hw.
    + apply listed_elem in Hw. rewrite Hw. by rewrite andb_false_r.
  - intros Hno. unfold IPFilterMiddleware. fold clientIP.
    destruct (listed clientIP (IPBlacklist config)) eqn:Eb; [by eexists|].
    destruct (IPWhitelist config) as [|w ws] eqn:Ew.
    { exfalso. apply Hno. split; [|by left].
      intros Hin%listed_elem. congruence. }
    destruct (listed clientIP (w :: ws)) eqn:Ewl; [|by eexists].
    exfalso. apply Hno. split.
    + intros Hin%listed_elem. congruence.
    + right. by apply listed_elem.
  - intros Hok. unfold AuthenticationMiddlewareNew. fold apiKey.
    destruct (Proxy.whitelisted whitelist (URL_Path r)); [done|].
    destruct Hok as [|[Hne Hin]]; [done|].
    apply apiKeyMap_elem in Hin. rewrite Hin.
    destruct (String.eqb_spec apiKey ""); done.
  - intros Hno. unfold AuthenticationMiddlewareNew. fold apiKey.
    destruct (Proxy.whitelisted whitelist (URL_Path r)) eqn:Ewl.
    { exfalso. apply Hno. by left. }
    destruct (String.eqb_spec apiKey "") as [|Hne]; [done|]. cbn [orb].
    destruct (default false (apiKeyMap config !! apiKey)) eqn:Ek; [|done].
    exfalso. apply Hno. right. split; [done|]. by apply apiKeyMap_elem.
Qed.

(** X24. Cross-origin requests. With CORS enabled, a preflight
    (OPTIONS) request is answered 204 and never reaches the next
    handler. The CORS headers are set exactly when the request carries
    a non-empty Origin and the allowed origins contain it or ["*"];
    the allowed origin sent back is then the request's own Origin, with
    credentials allowed, also when it was admitted by ["*"]. With CORS
    disabled the middleware is the next handler. *)
Theorem cors_preflight_and_echo config next rid r :
  let origin := Header_Get (Header r) "Origin" in
  let admitted := origin <> EmptyString /\
                  ("*"%string ∈ AllowedOrigins config \/ origin ∈ AllowedOrigins config) in
  (EnableCORS config = false -> CORSMiddleware config next rid r = next rid r) /\
  (EnableCORS config = true ->
   exists set,
     (admitted -> set = cors_headers config origin) /\
     (~ admitted -> set = []) /\
     (Method r = "OPTIONS"%string ->
        CORSMiddleware config next rid r = (set ++ [WriteHeader 204], Returns)) /\
     (Method r <> "OPTIONS"%string ->
        CORSMiddleware config next rid r = and_then set (next rid r))).
Proof.
  intros origin admitted. unfold CORSMiddleware. fold origin. split.
  - by intros ->.
  - intros ->. cbn [negb].
    eexists. split_and!; last first.
    + intros Hm. destruct (String.eqb_spec (Method r) "OPTIONS"); [done|]. reflexivity.
    + intros Hm. destruct (String.eqb_spec (Method r) "OPTIONS"); [|done]. reflexivity.
    + intros Hno. destruct (String.eqb_spec origin "") as [|Hne]; [done|]. cbn [negb].
      destruct (origin_allowed origin (AllowedOrigins config)) eqn:Eo; [|done].
      exfalso. apply Hno. split; [done|]. by apply origin_allowed_spec.
    + intros [Hne Hin]. destruct (String.eqb_spec origin ""); [done|]. cbn [negb].
      apply origin_allowed_spec in Hin. by rewrite Hin.
Qed.

Lemma Split_no_sep s sep : IndexByte s sep = None -> Split s sep = [s].
Proof.
  induction s as [|c s IH]; [done|]. cbn.
  destruct (Ascii.eqb c sep); [done|].
  destruct (IndexByte s sep); [done|]. intros _. by rewrite IH.
Qed.

Lemma TrimRightSpace_last s :
  (forall c, last_byte s = Some c -> is_space c = false) -> TrimRightSpace s = s.
Proof.
  induction s as [|c s IH]; [done|]. intros Hl. cbn [TrimRightSpace].
  destruct s as [|d s].
  - cbn. by rewrite (Hl c eq_refl).
  - rewrite IH; [done|]. intros x Hx. apply Hl. exact Hx.
Qed.

Lemma TrimSpace_trimmed s : trimmed s -> TrimSpace s = s.
Proof.
  intros [Hf Hl]. unfold TrimSpace.
  assert (TrimLeftSpace s = s) as ->.
  { destruct s as [|c s]; [done|]. cbn. by rewrite (Hf c eq_refl). }
  by apply TrimRightSpace_last.
Qed.

(** X25. The IP filter believes X-Forwarded-For. Whatever address a
    request really comes from, once it carries an X-Forwarded-For
    header naming a single address (no comma, no surrounding white
    space, not empty), that address is the resolved client IP; so the
    filter decides on the header alone: it hands the request on when
    the named address passes the lists and answers 403 when it is
    blacklisted, and the peer address plays no part. *)
Theorem ip_filter_trusts_forwarded_for config next requestID r ip :
  ip <> EmptyString -> IndexByte ip "," = None -> trimmed ip ->
  let r' := with_header r "X-Forwarded-For" ip in
  getClientIP r' = ip /\
  (ip ∉ IPBlacklist config ->
   IPWhitelist config = [] \/ ip ∈ IPWhitelist config ->
   IPFilterMiddleware config next (Some requestID) r' = next (Some requestID) r') /\
  (ip ∈ IPBlacklist config ->
   IPFilterMiddleware config next (Some requestID) r'
   = ([Log WARN "IP blocked"; Error "Forbidden" 403], Returns)).
Proof.
  intros Hne Hcomma Htrim r'.
  assert (Hip : getClientIP r' = ip).
  { unfold getClientIP, r', with_header, Header_Get. cbn [Header].
    rewrite lookup_insert_eq.
    destruct (String.eqb_spec ip "") as [|_]; [done|]. cbn [negb].
    rewrite Split_no_sep by done. by apply TrimSpace_trimmed. }
  split; [done|]. unfold IPFilterMiddleware. rewrite Hip. split.
  - intros Hb Hw.
    destruct (listed ip (IPBlacklist config)) eqn:Eb; [by apply listed_elem in Eb|].
    destruct Hw as [->|Hw]; [done|].
    apply listed_elem in Hw. rewrite Hw. by rewrite andb_false_r.
  - intros Hb%listed_elem. by rewrite Hb.
Qed.

Lemma ip_filter_trusts_forwarded_for_witness :
  let r' := with_header Proxy.sample_request "X-Forwarded-For" "203.0.113.9" in
  getClientIP r' = "203.0.113.9"%string /\
  ("203.0.113.9"%string ∉ IPBlacklist sample_security ->
   IPWhitelist sample_security = [] \/ "203.0.113.9"%string ∈ IPWhitelist sample_security ->
   IPFilterMiddleware sample_security ok_handler (Some "req-1"%string) r'
   = ok_handler (Some "req-1"%string) r') /\
  ("203.0.113.9"%string ∈ IPBlacklist sample_security ->
   IPFilterMiddleware sample_security ok_handler (Some "req-1"%string) r'
   = ([Log WARN "IP blocked"; Error "Forbidden" 403], Returns)).
Proof.
  apply (ip_filter_trusts_forwarded_for sample_security ok_handler "req-1"
           Proxy.sample_request "203.0.113.9").
  - done.
  - reflexivity.
  - split; intros c [= <-]; reflexivity.
Defined.

End ChainFacts.

(** ** Metrics: what the counters count *)

Module RecordingFacts.
Import GoStrings Middleware Chain Metrics Recording.

Lemma wrap_uint64_range x : uint64_range (wrap_uint64 x).
Proof. unfold uint64_range, wrap_uint64. apply Z.mod_pos_bound. lia. Qed.

Lemma wrap_uint64_small x : uint64_range x -> wrap_uint64 x = x.
Proof. unfold uint64_range, wrap_uint64. intros H. by apply Z.mod_small. Qed.

Lemma wrap_uint64_add_l a b : wrap_uint64 (wrap_uint64 a + b) = wrap_uint64 (a + b).
Proof. unfold wrap_uint64. by rewrite Zplus_mod_idemp_l. Qed.

Lemma wrap_uint64_add_r a b : wrap_uint64 (a + wrap_uint64 b) = wrap_uint64 (a + b).
Proof. unfold wrap_uint64. by rewrite Zplus_mod_idemp_r. Qed.

Lemma captured_app acts acts' :
  captured (acts ++ acts') = foldl record (captured acts) acts'.
Proof. unfold captured. by rewrite foldl_app. Qed.

Lemma count_if_cons p c l :
  count_if p (c :: l) = (if p c then 1 else 0) + count_if p l.
Proof.
  unfold count_if. destruct (p c) eqn:E.
  - rewrite filter_cons_True by done. cbn [length]. lia.
  - rewrite filter_cons_False by congruence. lia.
Qed.

Lemma serve_all_cons next m a rest :
  serve_all next m (a :: rest) =
    let one := LoggingMiddlewareNew (a_start a) (a_finish a) (MetricsMiddleware next)
                                    m (a_rid a) (a_request a) in
    (fst (serve_all next (fst one) rest), snd one :: snd (serve_all next (fst one) rest)).
Proof.
  cbn [serve_all]. destruct (LoggingMiddlewareNew _ _ _ _ _ _) as [m1 run]. cbn.
  by destruct (serve_all next m1 rest).
Qed.

(** One request that comes back. *)
Lemma serve_one next m requestID r start finish :
  neutral next -> snd (snd (next (RecordRequest m) (Some requestID) r)) = Returns ->
  let one := LoggingMiddlewareNew start finish (MetricsMiddleware next)
                                  m (Some requestID) r in
  let code := StatusCode (captured (fst (snd one))) in
  TotalRequests (fst one) = wrap_uint64 (TotalRequests m + 1) /\
  SuccessRequests (fst one) =
    (if is_success code then wrap_uint64 (SuccessRequests m + 1) else SuccessRequests m) /\
  ErrorRequests (fst one) =
    (if is_success code then ErrorRequests m else wrap_uint64 (ErrorRequests m + 1)) /\
  StatusCodes (fst one) =
    <[code := wrap_uint64 (default 0 (StatusCodes m !! code) + 1)]> (StatusCodes m) /\
  TotalLatency (fst one) =
    wrap_uint64 (TotalLatency m + wrap_uint64 (time_Sub finish start)) /\
  snd (snd one) = Returns.
Proof.
  intros Hneutral Hret. unfold LoggingMiddlewareNew, MetricsMiddleware.
  pose proof (Hneutral (RecordRequest m) (Some requestID) r) as Hn. cbn zeta in Hn.
  destruct (next (RecordRequest m) (Some requestID) r) as [m2 [acts0 e]].
  cbn [fst snd] in Hn, Hret. subst e.
  destruct Hn as (Ht & Hs & He & Hc & Hl & Hw). cbn zeta.
  assert (Hcap : StatusCode (captured ((Log INFO "Request started" :: acts0)
                                        ++ [Log INFO "Request completed"]))
                 = StatusCode (captured acts0)).
  { by rewrite captured_app. }
  unfold is_success.
  destruct ((200 <=? StatusCode (captured acts0))
            && (StatusCode (captured acts0) <? 400)) eqn:Eok;
    cbn [fst snd]; rewrite Hcap;
    change (captured (Log INFO "Request started" :: acts0)) with (captured acts0);
    rewrite Eok; cbn; rewrite ?Ht, ?Hs, ?He, ?Hc, ?Hl; by split_and!.
Qed.

(** X26. The request counters count requests. When the requests that
    arrive are served one after the other through the logging and the
    metrics stage, by a handler that returns and leaves these counters
    alone, then afterwards (all modulo 2^64, the counters being
    [uint64]): the total has grown by the number of requests, the
    success count by the number of responses whose recorded status is
    in [200, 400), the error count by the number of all others, and
    every status-code count by the number of responses with that
    status; each request is in exactly one of success and error, so a
    balance [total = success + error] that held before holds after. *)
Theorem metrics_count_every_request next arrivals : forall m,
  neutral next -> counters_ok m ->
  (forall a, a ∈ arrivals -> is_Some (a_rid a)) ->
  (forall m rid r, snd (snd (next m rid r)) = Returns) ->
  let m' := fst (serve_all next m arrivals) in
  let codes := codes_of (snd (serve_all next m arrivals)) in
  length codes = length arrivals /\
  count_if is_success codes + count_if (fun c => negb (is_success c)) codes
    = Z.of_nat (length arrivals) /\
  TotalRequests m' = wrap_uint64 (TotalRequests m + Z.of_nat (length arrivals)) /\
  SuccessRequests m' = wrap_uint64 (SuccessRequests m + count_if is_success codes) /\
  ErrorRequests m' =
    wrap_uint64 (ErrorRequests m + count_if (fun c => negb (is_success c)) codes) /\
  (forall c, default 0 (StatusCodes m' !! c)
             = wrap_uint64 (default 0 (StatusCodes m !! c) + count_if (Z.eqb c) codes)) /\
  (TotalRequests m = wrap_uint64 (SuccessRequests m + ErrorRequests m) ->
   TotalRequests m' = wrap_uint64 (SuccessRequests m' + ErrorRequests m')).
Proof.
  induction arrivals as [|a rest IH]; intros m Hneutral Hok Hrid Hret.
  - destruct Hok as (Ht & Hs & He & Hc). cbn.
    rewrite !Z.add_0_r, !wrap_uint64_small by done.
    split_and!; try done. intros c. change (count_if (Z.eqb c) []) with 0.
    rewrite Z.add_0_r. symmetry. by apply wrap_uint64_small.
  - intros m' codes. unfold m', codes. rewrite serve_all_cons. cbn zeta. cbn [fst snd].
    destruct (Hrid a (list_elem_of_here a rest)) as [id Hid]. rewrite Hid.
    pose proof (serve_one next m id (a_request a) (a_start a) (a_finish a)
                  Hneutral (Hret _ _ _)) as Hone. cbn zeta in Hone.
    set (one := LoggingMiddlewareNew (a_start a) (a_finish a) (MetricsMiddleware next)
                                     m (Some id) (a_request a)) in *.
    destruct Hone as (H1t & H1s & H1e & H1c & _ & _).
    set (code := StatusCode (captured (fst (snd one)))) in *.
    assert (Hok1 : counters_ok (fst one)).
    { destruct Hok as (Ht & Hs & He & Hc). unfold counters_ok.
      rewrite H1t, H1s, H1e, H1c. split_and!.
      - apply wrap_uint64_range.
      - destruct (is_success code); [apply wrap_uint64_range|done].
      - destruct (is_success code); [done|apply wrap_uint64_range].
      - intros c. destruct (decide (c = code)) as [->|Hne].
        + rewrite lookup_insert_eq. apply wrap_uint64_range.
        + rewrite lookup_insert_ne by done. apply Hc. }
    specialize (IH (fst one) Hneutral Hok1
                   (fun x Hx => Hrid x (list_elem_of_further _ _ _ Hx)) Hret).
    cbn zeta in IH. destruct IH as (IHl & IHsum & IHt & IHs & IHe & IHc & _).
    unfold codes_of in *. cbn [fmap list_fmap length]. fold code.
    rewrite !count_if_cons, IHt, IHs, IHe, H1t, H1s, H1e.
    assert (Hsplit : forall x y, wrap_uint64 (wrap_uint64 (x + 1) + y) =
                            wrap_uint64 (x + (1 + y))).
    { intros x y. rewrite wrap_uint64_add_l. f_equal. lia. }
    assert (Hgoal_t : wrap_uint64 (wrap_uint64 (TotalRequests m + 1)
                                   + Z.of_nat (length rest))
                      = wrap_uint64 (TotalRequests m + Z.of_nat (S (length rest)))).
    { rewrite wrap_uint64_add_l. f_equal. lia. }
    split_and!.
    + by rewrite IHl.
    + destruct (is_success code); cbn [negb]; lia.
    + exact Hgoal_t.
    + destruct (is_success code); [by apply Hsplit|]. by rewrite Z.add_0_l.
    + destruct (is_success code); cbn [negb]; [by rewrite Z.add_0_l|by apply Hsplit].
    + intros c. rewrite IHc, H1c, count_if_cons.
      destruct (Z.eqb_spec c code) as [->|Hne].
      * rewrite lookup_insert_eq. apply Hsplit.
      * rewrite lookup_insert_ne by done. by rewrite Z.add_0_l.
    + intros Hbal. clear Hgoal_t Hsplit IHt IHs IHe IHc H1t H1s H1e H1c.
      set (cs := count_if is_success _) in *.
      set (ce := count_if (fun c => negb (is_success c)) _) in *.
      rewrite !wrap_uint64_add_l, wrap_uint64_add_r, Hbal.
      replace (wrap_uint64 (SuccessRequests m + ErrorRequests m) + 1
               + Z.of_nat (length rest))
        with (wrap_uint64 (SuccessRequests m + ErrorRequests m)
              + (1 + Z.of_nat (length rest))) by lia.
      rewrite wrap_uint64_add_l.
      destruct (is_success code).
      * replace (wrap_uint64 (SuccessRequests m + 1) + cs + (ErrorRequests m + ce))
          with (wrap_uint64 (SuccessRequests m + 1) + (cs + (ErrorRequests m + ce)))
          by lia.
        rewrite wrap_uint64_add_l. f_equal. lia.
      * replace (SuccessRequests m + cs + (wrap_uint64 (ErrorRequests m + 1) + ce))
          with (wrap_uint64 (ErrorRequests m + 1) + (SuccessRequests m + cs + ce))
          by lia.
        rewrite wrap_uint64_add_l. f_equal. lia.
Qed.

Lemma metrics_count_every_request_witness :
  let m' := fst (serve_all plain_handler InitMetrics sample_arrivals) in
  let codes := codes_of (snd (serve_all plain_handler InitMetrics sample_arrivals)) in
  length codes = length sample_arrivals /\
  count_if is_success codes + count_if (fun c => negb (is_success c)) codes
    = Z.of_nat (length sample_arrivals) /\
  TotalRequests m'
    = wrap_uint64 (TotalRequests InitMetrics + Z.of_nat (length sample_arrivals)) /\
  SuccessRequests m'
    = wrap_uint64 (SuccessRequests InitMetrics + count_if is_success codes) /\
  ErrorRequests m' =
    wrap_uint64 (ErrorRequests InitMetrics
                 + count_if (fun c => negb (is_success c)) codes) /\
  (forall c, default 0 (StatusCodes m' !! c)
             = wrap_uint64 (default 0 (StatusCodes InitMetrics !! c)
                            + count_if (Z.eqb c) codes)) /\
  (TotalRequests InitMetrics
   = wrap_uint64 (SuccessRequests InitMetrics + ErrorRequests InitMetrics) ->
   TotalRequests m' = wrap_uint64 (SuccessRequests m' + ErrorRequests m')).
Proof.
  apply (metrics_count_every_request plain_handler sample_arrivals InitMetrics).
  - intros m rid r. cbn. unfold plain_handler. by destruct (String.eqb _ _).
  - unfold counters_ok, uint64_range. cbn. split_and!; try lia.
    intros c. rewrite lookup_empty. cbn. lia.
  - intros a Ha. cbn in Ha.
    repeat (apply elem_of_cons in Ha as [->|Ha]; [by eexists|]).
    by apply elem_of_nil in Ha.
  - intros m rid r. unfold plain_handler. by destruct (String.eqb _ _).
Defined.

Lemma record_latencies_window ds : forall m,
  (length (RequestLatency m) <= 1000)%nat ->
  RequestLatency (record_latencies m ds)
  = drop (length (RequestLatency m ++ ds) - 1000) (RequestLatency m ++ ds).
Proof.
  unfold record_latencies.
  induction ds as [|d ds IH]; intros m Hlen.
  - cbn. rewrite app_nil_r. replace (length (RequestLatency m) - 1000)%nat with 0%nat by lia.
    done.
  - cbn [foldl]. rewrite IH.
    + unfold RecordLatency. cbn [RequestLatency].
      destruct (Nat.leb_spec 1000 (length (RequestLatency m))) as [Hfull|Hroom].
      * destruct (RequestLatency m) as [|w W] eqn:EW; [cbn in Hfull; lia|].
        cbn [drop]. rewrite drop_0, <- app_assoc. cbn [app length] in *.
        rewrite !length_app in *. cbn [length] in *.
        replace (S (length W + S (length ds)) - 1000)%nat
          with (S (length W + S (length ds) - 1000))%nat by lia.
        cbn [drop]. done.
      * rewrite <- app_assoc. done.
    + unfold RecordLatency. cbn [RequestLatency].
      destruct (Nat.leb_spec 1000 (length (RequestLatency m))) as [Hfull|Hroom];
        rewrite length_app, ?length_drop; cbn [length]; lia.
Qed.

Lemma record_latencies_total ds : forall m,
  uint64_range (TotalLatency m) ->
  TotalLatency (record_latencies m ds)
  = wrap_uint64 (TotalLatency m + foldr Z.add 0 ds).
Proof.
  unfold record_latencies.
  induction ds as [|d ds IH]; intros m Hr.
  - cbn. rewrite Z.add_0_r. symmetry. by apply wrap_uint64_small.
  - cbn [foldl foldr]. rewrite IH by apply wrap_uint64_range.
    unfold RecordLatency. cbn [TotalLatency].
    rewrite wrap_uint64_add_l.
    replace (TotalLatency m + wrap_uint64 d + foldr Z.add 0 ds)
      with (TotalLatency m + foldr Z.add 0 ds + wrap_uint64 d) by lia.
    rewrite wrap_uint64_add_r. f_equal. lia.
Qed.

(** X27. The latency window. After any number of recorded durations
    the window holds the latest 1000 of them (all of them while there
    are fewer), oldest first, and never more; the running total is the
    sum of everything recorded, modulo 2^64. *)
Theorem latency_window_keeps_latest m durations :
  (length (RequestLatency m) <= 1000)%nat -> uint64_range (TotalLatency m) ->
  let all := RequestLatency m ++ durations in
  let m' := record_latencies m durations in
  RequestLatency m' = drop (length all - 1000) all /\
  length (RequestLatency m') = Nat.min 1000 (length all) /\
  TotalLatency m' = wrap_uint64 (TotalLatency m + foldr Z.add 0 durations).
Proof.
  intros Hlen Hr all m'. unfold m'. split_and!.
  - by apply record_latencies_window.
  - rewrite record_latencies_window by done. fold all. rewrite length_drop. lia.
  - by apply record_latencies_total.
Qed.

Lemma latency_window_keeps_latest_witness :
  let durations := [2000000; 500000] in
  let all := RequestLatency InitMetrics ++ durations in
  let m' := record_latencies InitMetrics durations in
  RequestLatency m' = drop (length all - 1000) all /\
  length (RequestLatency m') = Nat.min 1000 (length all) /\
  TotalLatency m' = wrap_uint64 (TotalLatency InitMetrics + foldr Z.add 0 durations).
Proof.
  apply (latency_window_keeps_latest InitMetrics [2000000; 500000]).
  - cbn. lia.
  - unfold uint64_range. cbn. lia.
Defined.

End RecordingFacts.

(** ** The rate-limit and cache stages *)

Module StagesFacts.
Import GoStrings Middleware Chain Metrics Recording Stages.
Import Limiter LimiterRuns LimiterFacts LimiterMore RecordingFacts.







(** X29. The cache stage replays what it stored. For a GET of a
    whitelisted path on a well-formed cache of capacity at least one:
    when the look-up misses and the next handler returns with status
    200, the bytes it wrote are stored under the key
    [Method:URL]; a later request for the same URL, looked up no later
    than the TTL after the store, is answered from the cache with
    exactly those bytes and an [X-Cache: HIT] header, is counted as a
    cache hit, and the next handler is not run for it. Nothing but the
    body is replayed: neither the status line nor the headers of the
    stored response. *)
Theorem cache_stage_round_trip URL_String whitelist next next' c m m'
    requestID requestID' r t1 t2 t3 t4 :
  Cache.wf c -> 1 <= Cache.maxSize c ->
  Method r = "GET"%string -> Proxy.whitelisted whitelist (URL_Path r) = true ->
  let cacheKey := (Method r ++ ":" ++ URL_String r)%string in
  let first := next (RecordCacheMiss m) (Some requestID) r in
  snd (snd (Cache.Get (Some c) cacheKey t1)) = false ->
  snd (snd first) = Returns ->
  StatusCode (captured (fst (snd first))) = 200 ->
  t3 <= t2 + Cache.ttl c ->
  exists c2 c3,
    CacheMiddlewareNew URL_String (Some c) whitelist next t1 t2 m (Some requestID) r
    = (Some c2, (fst first, (fst (snd first) ++ [SetHeader "X-Cache" "MISS"], Returns))) /\
    CacheMiddlewareNew URL_String (Some c2) whitelist next' t3 t4 m' (Some requestID') r
    = (Some c3,
       (RecordCacheHit m',
        ([Log DEBUG "Cache hit"; SetHeader "X-Cache" "HIT";
          Write (Body (captured (fst (snd first))))], Returns))).
Proof.
  intros Hwf Hmax Hget Hwl cacheKey first Hmiss Hret Hstatus Httl.
  destruct (CacheFacts.Get_wf c cacheKey t1 Hwf) as (c1 & E1 & Hwf1 & Hm1 & _).
  assert (Httl1 : Cache.ttl c1 = Cache.ttl c).
  { apply (CacheMore.apply_op_ttl c (Cache.OpGet cacheKey t1)). exact E1. }
  destruct (CacheFacts.Set_wf c1 cacheKey (Body (captured (fst (snd first)))) t2 Hwf1)
    as (c2 & E2 & Hwf2 & _).
  assert (Hhit : snd (Cache.Get (Some c2) cacheKey t3)
                 = (Body (captured (fst (snd first))), true)).
  { rewrite CacheMore.Get_result by (by destruct Hwf2).
    pose proof (CacheMore.Set_entries c1 cacheKey (Body (captured (fst (snd first)))) t2
                  (proj1 Hwf1)) as Hent.
    rewrite E2 in Hent. cbn [CacheView.entries_of] in Hent.
    unfold CacheView.lru_get. rewrite Hent, CacheMore.lru_set_find.
    - rewrite Hm1, Httl1. destruct (Z.leb_spec 1 (Cache.maxSize c)) as [_|]; [|lia].
      cbn [Cache.expireTime Cache.value].
      by destruct (Z.ltb_spec (t2 + Cache.ttl c) t3) as [|_]; [lia|].
    - destruct Hwf1 as [Hl1 Hlen1]. unfold Cache.list_Len in Hlen1.
      by rewrite (CacheMore.entries_length c1 Hl1). }
  exists c2.
  destruct (Cache.Get (Some c2) cacheKey t3) as [o3 [data3 found3]] eqn:E3.
  cbn [snd] in Hhit. injection Hhit as -> ->.
  assert (Ho3 : exists c3, o3 = Some c3).
  { destruct (CacheFacts.Get_wf c2 cacheKey t3 Hwf2) as (c3 & E3' & _).
    rewrite E3 in E3'. by exists c3. }
  destruct Ho3 as [c3 ->]. exists c3. split.
  - unfold CacheMiddlewareNew. rewrite Hget, Hwl. cbn [String.eqb Ascii.eqb negb].
    replace ("GET" ++ ":" ++ URL_String r)%string with cacheKey
      by (unfold cacheKey; by rewrite Hget).
    destruct (Cache.Get (Some c) cacheKey t1) as [o1 [data1 found1]].
    cbn [fst snd] in E1, Hmiss. subst o1 found1. fold first.
    destruct first as [m1 [acts e]]. cbn [fst snd] in *. subst e.
    rewrite Hstatus. cbn [Z.eqb Pos.eqb]. by rewrite E2.
  - unfold CacheMiddlewareNew. rewrite Hget, Hwl. cbn [String.eqb Ascii.eqb negb].
    replace ("GET" ++ ":" ++ URL_String r)%string with cacheKey
      by (unfold cacheKey; by rewrite Hget).
    by rewrite E3.
Qed.

Lemma cache_stage_round_trip_witness :
  let cacheKey := (Method resource_request ++ ":"
                   ++ sample_URL_String resource_request)%string in
  let first := plain_handler (RecordCacheMiss InitMetrics) (Some "req-1"%string)
                             resource_request in
  exists c2 c3,
    CacheMiddlewareNew sample_URL_String (Some CacheView.warm_cache)
      Proxy.sample_whitelist plain_handler (5 * Cache.second) (6 * Cache.second)
      InitMetrics (Some "req-1"%string) resource_request
    = (Some c2, (fst first, (fst (snd first) ++ [SetHeader "X-Cache" "MISS"], Returns))) /\
    CacheMiddlewareNew sample_URL_String (Some c2)
      Proxy.sample_whitelist ok_handler_m (7 * Cache.second) (8 * Cache.second)
      InitMetrics (Some "req-2"%string) resource_request
    = (Some c3,
       (RecordCacheHit InitMetrics,
        ([Log DEBUG "Cache hit"; SetHeader "X-Cache" "HIT";
          Write (Body (captured (fst (snd first))))], Returns))).
Proof.
  apply (cache_stage_round_trip sample_URL_String Proxy.sample_whitelist
           plain_handler ok_handler_m CacheView.warm_cache InitMetrics InitMetrics
           "req-1" "req-2" resource_request
           (5 * Cache.second) (6 * Cache.second) (7 * Cache.second) (8 * Cache.second)).
  - apply CacheMore.warm_cache_wf.
  - by vm_compute.
  - reflexivity.
  - by vm_compute.
  - by vm_compute.
  - reflexivity.
  - reflexivity.
  - by vm_compute.
Defined.

(** X30. What the path whitelist means. A request for a whitelisted
    path is exempt from rate limiting (no token is taken, the limiter
    is not consulted) and from authentication, and the proxy stage
    hands it to the local handler without selecting a backend or
    touching the breaker; a request for any other path goes past the
    cache stage untouched: it is neither looked up nor stored, and no
    hit or miss is counted. So no proxied response is ever cached and
    no cached path is ever proxied. *)
Theorem whitelist_splits_the_chain URL_String security config whitelist
    next mnext limiter cache g w fuel m rid r t0 now t_get t_set :
  (Proxy.whitelisted whitelist (URL_Path r) = true ->
     RateLimitMiddlewareNew limiter whitelist mnext t0 now m rid r
     = (limiter, mnext m rid r) /\
     AuthenticationMiddlewareNew security whitelist next rid r = next rid r /\
     Proxy.ProxyMiddleware config whitelist g r w fuel = Proxy.Done g [Proxy.ServeNext]) /\
  (Proxy.whitelisted whitelist (URL_Path r) = false ->
     CacheMiddlewareNew URL_String cache whitelist mnext t_get t_set m rid r
     = (cache, mnext m rid r)).
Proof.
  split.
  - intros Hwl. unfold RateLimitMiddlewareNew, AuthenticationMiddlewareNew,
      Proxy.ProxyMiddleware. by rewrite Hwl.
  - intros Hwl. unfold CacheMiddlewareNew. rewrite Hwl. cbn [negb].
    by destruct (negb (String.eqb (Method r) "GET")).
Qed.


End StagesFacts.
